(** * kit: order ledger, sales aggregates and receipt codec

    A shallow embedding of the persistence layer of the point-of-sale tool
    ([database.py]), of the cart, the checkout and the receipt renderer of
    the application ([system.py]) and of the purge script ([db_clear.py]).

    Modelling conventions.
    - Python [str] values and file contents are byte sequences ([text]), the
      UTF-8 encoding of the string; the peso sign is its three bytes.
      Character classes ([\d], [\s], [str.strip]) are the ASCII ones: the
      model reads text as Python does when the text is ASCII apart from
      peso signs ([ascii_text], [tame_text]).
    - Python [float] and the SQLite [REAL] columns are exact rationals ([Q]);
      infinities and NaN are outside the model, and a product or a sum is
      the one of binary64 when its exact value is a float ([is_b64],
      [exact_sum]).  [float()] is modelled on plain decimal literals (sign,
      digits, point), which is all it reads in text without letters and
      underscores ([literal_char]).
    - Python [int] and SQLite [INTEGER] are [Z].  Binding a quantity that
      does not fit in 64 bits raises OverflowError ([insert_item]); the
      additions SQLite makes itself ([total_quantity + ?], [SUM]) are
      modelled below [2^63] ([modest_ledger]), and [int()] on runs of at
      most 4300 digits.
    - A statement names the tests of its domain as hypotheses.
    - A SQLite table is the list of its rows in rowid order.  The tables of
      one database file form the record [DB]; every function that opens a
      connection takes the database and returns the committed one.
    - An exception is a value of [exn]; a call that can raise returns a
      [result].  The clock and the failures of the storage engine that the
      code guards against are read from a [World]. *)

From Stdlib Require Import Ascii String List ZArith QArith Qabs Bool Lia Arith.
From Stdlib Require Import Sorted Permutation.
Import ListNotations.

Set Implicit Arguments.
Local Open Scope Z_scope.

(** ** Text *)

Definition text := list ascii.

Definition bytes (s : string) : text := list_ascii_of_string s.

Definition text_eq_dec : forall a b : text, {a = b} + {a <> b} :=
  list_eq_dec ascii_dec.

Definition text_eqb (a b : text) : bool :=
  if text_eq_dec a b then true else false.


(** Byte-wise lexicographic order: SQLite's BINARY collation. *)
Fixpoint text_compare (a b : text) : comparison :=
  match a, b with
  | [], [] => Eq
  | [], _ :: _ => Lt
  | _ :: _, [] => Gt
  | x :: a', y :: b' =>
      match Ascii.compare x y with
      | Eq => text_compare a' b'
      | c => c
      end
  end.

(** *** Character classes *)

Definition char_is (c : ascii) : ascii -> bool := Ascii.eqb c.

Definition char_is_not (c : ascii) (x : ascii) : bool := negb (Ascii.eqb c x).

Definition in_range (lo hi : N) (c : ascii) : bool :=
  (N.leb lo (N_of_ascii c) && N.leb (N_of_ascii c) hi)%bool.

(** [\d] and [[0-9]], on ASCII text *)
Definition is_digit : ascii -> bool := in_range 48 57.

(** [\s] and the characters [str.strip()] removes, on ASCII text: TAB to
    CR, FS to US and the space. *)
Definition is_space (c : ascii) : bool :=
  (in_range 9 13 c || in_range 28 32 c)%bool.

(** [[0-9,]] *)
Definition is_digit_or_comma (c : ascii) : bool :=
  (is_digit c || char_is "," c)%bool.

Definition newline : ascii := "010"%char.
Definition carriage_return : ascii := "013"%char.

(** The peso sign U+20B1 in UTF-8. *)
Definition peso : text := ["226"; "130"; "177"]%char.

(** *** The [str] methods the code calls *)

(** [s.startswith(p)], with the rest of [s] when it holds *)
Fixpoint strip_prefix (p s : text) : option text :=
  match p, s with
  | [], _ => Some s
  | _ :: _, [] => None
  | x :: p', y :: s' => if Ascii.eqb x y then strip_prefix p' s' else None
  end.

Definition startswith (p s : text) : bool :=
  match strip_prefix p s with
  | Some _ => true
  | None => false
  end.

Definition endswith (p s : text) : bool := startswith (rev p) (rev s).

Fixpoint lstrip (s : text) : text :=
  match s with
  | c :: s' => if is_space c then lstrip s' else s
  | [] => []
  end.

Definition rstrip (s : text) : text := rev (lstrip (rev s)).

Definition strip (s : text) : text := rstrip (lstrip s).

(** [s.replace(p, '')] for a non-empty [p]: the occurrences of [p] are
    removed from left to right; [skip] counts the bytes of an occurrence
    that are still to be dropped. *)
Fixpoint remove_all_from (skip : nat) (p s : text) : text :=
  match s with
  | [] => []
  | c :: s' =>
      match skip with
      | S k => remove_all_from k p s'
      | O =>
          if startswith p s
          then remove_all_from (Nat.pred (List.length p)) p s'
          else c :: remove_all_from O p s'
      end
  end.

Definition remove_all (p s : text) : text := remove_all_from O p s.

(** [s.split(':', 1)[1]]: what follows the first colon.  Every caller has
    checked that [s] starts with a word that ends in the colon. *)
Fixpoint after_colon (s : text) : text :=
  match s with
  | [] => []
  | c :: s' => if char_is ":" c then s' else after_colon s'
  end.

Definition to_lower (c : ascii) : ascii :=
  if in_range 65 90 c then ascii_of_N (N_of_ascii c + 32) else c.

(** [s.lower()] *)
Definition lower (s : text) : text := map to_lower s.

(** [l[-n:]] for a positive [n] *)
Definition lastn {A} (n : nat) (l : list A) : list A :=
  skipn (List.length l - n) l.

(** *** Numbers *)

Definition digit_value (c : ascii) : Z := Z.of_N (N_of_ascii c) - 48.

Definition digit_char (d : Z) : ascii := ascii_of_N (Z.to_N (d + 48)).

(** The value of a run of decimal digits. *)
Definition digits_value (ds : text) : Z :=
  fold_left (fun a c => 10 * a + digit_value c) ds 0.

(** [int(s)] for a match of [\d+] in ASCII text; [None] is the
    [ValueError] that more than 4300 digits raise. *)
Definition py_int (s : text) : option Z :=
  if (4300 <? List.length s)%nat then None else Some (digits_value s).

Fixpoint digits_from (fuel : nat) (n : Z) (acc : text) : text :=
  let acc' := digit_char (n mod 10) :: acc in
  match fuel with
  | O => acc'
  | S f => if n / 10 =? 0 then acc' else digits_from f (n / 10) acc'
  end.

(** The decimal digits of a natural number, most significant first. *)
Definition digits_of (n : Z) : text :=
  digits_from (Z.to_nat (Z.log2 n)) n [].

(** [str(n)] and [f"{n}"] for an [int] *)
Definition str_of_int (n : Z) : text :=
  if n <? 0 then "-"%char :: digits_of (- n) else digits_of n.

Fixpoint pow10 (n : nat) : positive :=
  match n with
  | O => 1%positive
  | S n' => (10 * pow10 n')%positive
  end.

Fixpoint span_digits (s : text) : text * text :=
  match s with
  | c :: s' =>
      if is_digit c
      then let (ds, rest) := span_digits s' in (c :: ds, rest)
      else ([], s)
  | [] => ([], [])
  end.

Definition is_nil {A} (l : list A) : bool :=
  match l with
  | [] => true
  | _ => false
  end.

(** The white space [float] skips at both ends of an ASCII string, that
    of C's [isspace]: TAB to CR and the space, without FS to US. *)
Definition is_c_space (c : ascii) : bool :=
  (in_range 9 13 c || char_is " " c)%bool.

Fixpoint lstrip_c (s : text) : text :=
  match s with
  | c :: s' => if is_c_space c then lstrip_c s' else s
  | [] => []
  end.

Definition strip_c (s : text) : text := rev (lstrip_c (rev (lstrip_c s))).

(** [float(s)] on decimal literals: surrounding white space, a sign, an
    integer part, a point and a fraction, one of the two parts at least.
    [None] is the [ValueError].  Exponents, underscores and the words
    [inf] and [nan], which [float] reads as well, need a letter or an
    underscore; the value is the decimal one, which is the float when the
    decimal is one. *)
Definition py_float (s : text) : option Q :=
  let s' := strip_c s in
  let (neg, body) :=
    match s' with
    | c :: r =>
        if char_is "-" c then (true, r)
        else if char_is "+" c then (false, r)
        else (false, s')
    | [] => (false, s')
    end in
  let signed (z : Z) := if neg then - z else z in
  let (ip, rest) := span_digits body in
  match rest with
  | [] => if is_nil ip then None else Some (signed (digits_value ip) # 1)
  | c :: fp =>
      if (char_is "." c && forallb is_digit fp
          && negb (is_nil ip && is_nil fp))%bool
      then Some (signed (digits_value (ip ++ fp)) # pow10 (List.length fp))
      else None
  end.

(** ** Exceptions *)

Inductive exn :=
| IntegrityError | ValueError | OperationalError | OverflowError.

Inductive result (A : Type) :=
| Ok (a : A)
| Raise (e : exn).
Arguments Ok {A} a.
Arguments Raise {A} e.

(** ** The persisted schema ([create_tables]) *)

(** One line of an order as the callers pass it:
    [(code, name, quantity, price, item_total)]. *)
Record Line := mkLine {
  l_code : text;
  l_name : text;
  l_qty : Z;
  l_price : Q;
  l_total : Q
}.

(** [orders(order_id PK AUTOINCREMENT, date_time, total, paid, change,
    employee, receipt_filename UNIQUE)] *)
Record OrderRow := mkOrder {
  order_id : Z;
  date_time : text;
  o_total : Q;
  o_paid : Q;
  o_change : Q;
  employee : option text;
  receipt_filename : option text
}.

(** [order_items(order_item_id PK AUTOINCREMENT, order_id, code, name,
    quantity, price, total)] *)
Record ItemRow := mkItem {
  order_item_id : Z;
  i_order_id : Z;
  code : text;
  name : text;
  quantity : Z;
  price : Q;
  total : Q
}.

(** [sales(code PK, name, total_quantity, total_revenue, last_sold)] *)
Record SalesRow := mkSales {
  s_code : text;
  s_name : text;
  total_quantity : Z;
  total_revenue : Q;
  last_sold : option text
}.

(** The database file: the three tables and the two AUTOINCREMENT counters
    that SQLite keeps in [sqlite_sequence]. *)
Record DB := mkDB {
  orders : list OrderRow;
  order_items : list ItemRow;
  sales : list SalesRow;
  seq_orders : Z;
  seq_order_items : Z
}.

Definition empty_db : DB := mkDB [] [] [] 0 0.

(** What the code reads from its environment: [datetime.now()] formatted
    for the order row and for [last_sold], and which statements of the
    aggregate update the storage engine refuses. *)
Record World := mkWorld {
  now_order : text;
  now_sales : text;
  stmt_raises : Line -> bool;
  txn_raises : bool
}.

(** AUTOINCREMENT: one more than the largest rowid the table holds or has
    ever held. *)
Definition max_rowid (ids : list Z) : Z := fold_right Z.max 0 ids.

Definition next_rowid (seq : Z) (ids : list Z) : Z :=
  Z.max seq (max_rowid ids) + 1.

(** ** Ledger store *)

Definition holds_key (k : text) (o : OrderRow) : bool :=
  match receipt_filename o with
  | Some k' => text_eqb k' k
  | None => false
  end.

(** [SELECT COUNT(1) FROM orders WHERE receipt_filename = ?] *)
Definition count_receipt (k : text) (os : list OrderRow) : nat :=
  length (filter (holds_key k) os).

(** [SELECT order_id FROM orders WHERE receipt_filename = ?], [fetchone()] *)
Definition select_order_id (k : text) (os : list OrderRow) : option Z :=
  option_map order_id (find (holds_key k) os).

(** The UNIQUE constraint of [receipt_filename]; NULLs never collide. *)
Definition unique_violation (key : option text) (os : list OrderRow) : bool :=
  match key with
  | Some k => existsb (holds_key k) os
  | None => false
  end.

(** [INSERT INTO orders (...) VALUES (...)] followed by [cur.lastrowid]. *)
Definition insert_order (db : DB) (dt : text) (tot paid chg : Q)
    (emp key : option text) : result (DB * Z) :=
  if unique_violation key (orders db) then Raise IntegrityError
  else
    let oid := next_rowid (seq_orders db) (map order_id (orders db)) in
    Ok (mkDB (orders db ++ [mkOrder oid dt tot paid chg emp key])
             (order_items db) (sales db) oid (seq_order_items db), oid).

(** What SQLite stores as an INTEGER: the signed 64-bit numbers. *)
Definition fits_int64 (z : Z) : bool :=
  ((- 2 ^ 63 <=? z) && (z <? 2 ^ 63))%bool.

(** [INSERT INTO order_items (...) VALUES (...)] for one line.  Binding
    [int(quantity)] raises OverflowError when the number does not fit. *)
Definition insert_item (db : DB) (oid : Z) (it : Line) : result DB :=
  if fits_int64 (l_qty it)
  then
    let iid := next_rowid (seq_order_items db)
                          (map order_item_id (order_items db)) in
    Ok (mkDB (orders db)
             (order_items db ++
                [mkItem iid oid (l_code it) (l_name it) (l_qty it)
                        (l_price it) (l_total it)])
             (sales db) (seq_orders db) iid)
  else Raise OverflowError.

(** The loop over the lines: it ends at the first line that raises. *)
Fixpoint insert_items (db : DB) (oid : Z) (items : list Line) : result DB :=
  match items with
  | [] => Ok db
  | it :: items' =>
      match insert_item db oid it with
      | Ok db' => insert_items db' oid items'
      | Raise e => Raise e
      end
  end.

(** Python truthiness of an [Optional[str]]. *)
Definition truthy (key : option text) : bool :=
  match key with
  | Some (_ :: _) => true
  | _ => false
  end.

(** ** Sales aggregator *)

Definition sales_has (c : text) (ss : list SalesRow) : bool :=
  existsb (fun s => text_eqb (s_code s) c) ss.

(** [UPDATE sales SET total_quantity = total_quantity + ?,
    total_revenue = total_revenue + ?, last_sold = ? WHERE code = ?], for
    sums below [2^63]: beyond, SQLite turns the quantity into a REAL. *)
Definition update_sales_row (c : text) (q : Z) (rev : Q) (when : text)
    (ss : list SalesRow) : list SalesRow :=
  map (fun s =>
         if text_eqb (s_code s) c
         then mkSales (s_code s) (s_name s) (total_quantity s + q)
                      (total_revenue s + rev)%Q (Some when)
         else s) ss.

(** One turn of the loop of [_increment_sales]: the upsert, skipped when
    the statement raises. *)
Definition upsert_sale (w : World) (when : text) (ss : list SalesRow)
    (it : Line) : list SalesRow :=
  if stmt_raises w it then ss
  else if sales_has (l_code it) ss
       then update_sales_row (l_code it) (l_qty it) (l_total it) when ss
       else ss ++ [mkSales (l_code it) (l_name it) (l_qty it) (l_total it)
                           (Some when)].

(** [_increment_sales(items, when)]: an error outside the per-item guard
    (connect, commit) leaves the function with nothing committed. *)
Definition _increment_sales (w : World) (db : DB) (items : list Line)
    (when : text) : result DB :=
  if txn_raises w then Raise OperationalError
  else Ok (mkDB (orders db) (order_items db)
                (fold_left (upsert_sale w when) items (sales db))
                (seq_orders db) (seq_order_items db)).

(** [save_order], up to [conn.commit()]: the order row, or the id of the
    order that already holds the receipt file name, then the item rows.
    An exception of the item loop leaves the function before the commit:
    the connection is dropped and its transaction is rolled back. *)
Definition write_order (w : World) (db : DB) (items : list Line)
    (tot paid chg : Q) (emp key : option text) : result (DB * Z) :=
  let resolved :=
    match insert_order db (now_order w) tot paid chg emp key with
    | Ok r => Ok r
    | Raise IntegrityError =>
        let existing :=
          if truthy key
          then match key with
               | Some k => select_order_id k (orders db)
               | None => None
               end
          else None in
        match existing with
        | Some oid => Ok (db, oid)
        | None => Raise IntegrityError
        end
    | Raise e => Raise e
    end in
  match resolved with
  | Raise e => Raise e
  | Ok (db1, oid) =>
      match insert_items db1 oid items with
      | Ok db2 => Ok (db2, oid)
      | Raise e => Raise e
      end
  end.

(** The aggregate update after the commit, inside [try ... except: pass]. *)
Definition try_increment_sales (w : World) (db : DB) (items : list Line)
  : DB :=
  match _increment_sales w db items (now_sales w) with
  | Ok db' => db'
  | Raise _ => db
  end.

(** [save_order(items, total, paid, change, employee, receipt_filename)] *)
Definition save_order (w : World) (db : DB) (items : list Line)
    (tot paid chg : Q) (emp key : option text) : result (DB * Z) :=
  match write_order w db items tot paid chg emp key with
  | Raise e => Raise e
  | Ok (db2, oid) => Ok (try_increment_sales w db2 items, oid)
  end.

(** The older [save_receipt(items, total, paid, change)] of [database.py]:
    no employee, no receipt file name. *)
Definition db_save_receipt (w : World) (db : DB) (items : list Line)
    (tot paid chg : Q) : result DB :=
  match insert_order db (now_order w) tot paid chg None None with
  | Raise e => Raise e
  | Ok (db1, oid) =>
      match insert_items db1 oid items with
      | Ok db2 => Ok (try_increment_sales w db2 items)
      | Raise e => Raise e
      end
  end.

(** *** Rebuilding the aggregates from the ledger *)

(** One row of
    [SELECT code, name, SUM(quantity), SUM(total), MAX((SELECT date_time ...))
     FROM order_items GROUP BY code, name], for sums below [2^63]: beyond,
    [SUM] raises. *)
Record Group := mkGroup {
  g_code : text;
  g_name : text;
  qty_sum : Z;
  revenue_sum : Q;
  last_dt : option text
}.

(** [(SELECT date_time FROM orders WHERE orders.order_id = ?)]: NULL when no
    order has the id. *)
Definition order_date_time (os : list OrderRow) (oid : Z) : option text :=
  option_map date_time (find (fun o => order_id o =? oid) os).

(** SQL [MAX] of two values: a NULL is ignored. *)
Definition sql_max (a b : option text) : option text :=
  match a, b with
  | None, _ => b
  | _, None => a
  | Some x, Some y =>
      match text_compare x y with
      | Lt => Some y
      | _ => Some x
      end
  end.

Definition key_compare (c1 n1 c2 n2 : text) : comparison :=
  match text_compare c1 c2 with
  | Eq => text_compare n1 n2
  | c => c
  end.

(** The row joins the group of its [(code, name)]; the groups are kept in
    the order of the sorter SQLite runs for GROUP BY: by code, then name. *)
Fixpoint add_to_groups (r : ItemRow) (dt : option text) (gs : list Group)
  : list Group :=
  match gs with
  | [] => [mkGroup (code r) (name r) (quantity r) (total r) dt]
  | g :: gs' =>
      match key_compare (code r) (name r) (g_code g) (g_name g) with
      | Eq => mkGroup (g_code g) (g_name g) (qty_sum g + quantity r)
                      (revenue_sum g + total r)%Q (sql_max (last_dt g) dt)
              :: gs'
      | Lt => mkGroup (code r) (name r) (quantity r) (total r) dt :: g :: gs'
      | Gt => g :: add_to_groups r dt gs'
      end
  end.

Definition group_by_code_name (db : DB) : list Group :=
  fold_left
    (fun gs r =>
       add_to_groups r (order_date_time (orders db) (i_order_id r)) gs)
    (order_items db) [].

(** [INSERT INTO sales (...) VALUES (...)] inside [try ... except: continue]:
    the PRIMARY KEY of [sales] is [code], a second row for a code raises
    and is skipped. *)
Definition insert_sales (ss : list SalesRow) (g : Group) : list SalesRow :=
  if sales_has (g_code g) ss then ss
  else ss ++ [mkSales (g_code g) (g_name g) (qty_sum g) (revenue_sum g)
                      (last_dt g)].

(** [update_sales_from_orders()]: the rebuilt database and [len(rows)]. *)
Definition update_sales_from_orders (db : DB) : DB * nat :=
  let rows := group_by_code_name db in
  (mkDB (orders db) (order_items db) (fold_left insert_sales rows [])
        (seq_orders db) (seq_order_items db),
   length rows).

(** [SELECT ... FROM sales WHERE code = ?] *)
Definition sales_of (c : text) (db : DB) : option SalesRow :=
  find (fun s => text_eqb (s_code s) c) (sales db).

(** The ledger side of the consistency property: the sums over every
    [order_items] row of a code, and the codes the ledger mentions. *)
Definition ledger_quantity (c : text) (db : DB) : Z :=
  fold_left (fun a r => if text_eqb (code r) c then a + quantity r else a)
            (order_items db) 0.

Definition ledger_revenue (c : text) (db : DB) : Q :=
  fold_left (fun a r => if text_eqb (code r) c then (a + total r)%Q else a)
            (order_items db) 0%Q.

Definition distinct_codes (db : DB) : nat :=
  length (nodup text_eq_dec (map code (order_items db))).

(** ** Regular expressions

    The fragment of Python's [re] that [item_re] is written in: a sequence
    of character classes with a quantifier, optional literals and capture
    groups that do not nest, matched by backtracking in the priority order
    of [re] (greedy quantifiers try the longest repetition first, the lazy
    star the shortest). *)

Inductive quant := One | Opt | Star | Plus | LazyStar.

Inductive node :=
| Chars (p : ascii -> bool) (q : quant)
| OptLit (alts : list text)       (* one of the literals, or nothing *)
| GroupStart
| GroupEnd.

(** The groups matched so far, the last one first, and the bytes of the
    group that is open, the last one first. *)
Record capt := mkCapt {
  closed : list text;
  opened : option text
}.

Definition push (c : ascii) (st : capt) : capt :=
  match opened st with
  | Some g => mkCapt (closed st) (Some (c :: g))
  | None => st
  end.

Definition pushes (u : text) (st : capt) : capt :=
  fold_left (fun s c => push c s) u st.

Definition group_start (st : capt) : capt := mkCapt (closed st) (Some []).

Definition group_end (st : capt) : capt :=
  match opened st with
  | Some g => mkCapt (rev g :: closed st) None
  | None => st
  end.

Definition cont := capt -> text -> option capt.

Definition or_else (a b : option capt) : option capt :=
  match a with
  | Some r => Some r
  | None => b
  end.

Definition one (p : ascii -> bool) (k : cont) : cont :=
  fun st s =>
    match s with
    | c :: s' => if p c then k (push c st) s' else None
    | [] => None
    end.

Fixpoint star (p : ascii -> bool) (k : cont) (st : capt) (s : text)
  : option capt :=
  match s with
  | c :: s' =>
      if p c then or_else (star p k (push c st) s') (k st s) else k st s
  | [] => k st s
  end.

Fixpoint lazy_star (p : ascii -> bool) (k : cont) (st : capt) (s : text)
  : option capt :=
  or_else (k st s)
          match s with
          | c :: s' => if p c then lazy_star p k (push c st) s' else None
          | [] => None
          end.

Fixpoint opt_lit (alts : list text) (k : cont) (st : capt) (s : text)
  : option capt :=
  match alts with
  | [] => k st s
  | a :: alts' =>
      match strip_prefix a s with
      | Some s' => or_else (k (pushes a st) s') (opt_lit alts' k st s)
      | None => opt_lit alts' k st s
      end
  end.

(** [$]: the end of the string, or just before a final newline. *)
Definition at_end (s : text) : bool :=
  match s with
  | [] => true
  | [c] => Ascii.eqb c newline
  | _ => false
  end.

Fixpoint run (re : list node) : cont :=
  match re with
  | [] => fun st s => if at_end s then Some st else None
  | Chars p One :: re' => one p (run re')
  | Chars p Opt :: re' =>
      fun st s => or_else (one p (run re') st s) (run re' st s)
  | Chars p Star :: re' => star p (run re')
  | Chars p Plus :: re' => one p (star p (run re'))
  | Chars p LazyStar :: re' => lazy_star p (run re')
  | OptLit alts :: re' => opt_lit alts (run re')
  | GroupStart :: re' => fun st s => run re' (group_start st) s
  | GroupEnd :: re' => fun st s => run re' (group_end st) s
  end.

(** [re.compile(re ++ "$").match(s)]: the groups of the match. *)
Definition re_match (re : list node) (s : text) : option (list text) :=
  option_map (fun st => rev (closed st)) (run re (mkCapt [] None) s).

(** [m.group(n)] *)
Definition group (m : list text) (n : nat) : text := nth (Nat.pred n) m [].

(** ** Receipt codec: parsing ([import_receipts_from_folder]) *)

Definition comma : text := [","%char].
Definition dollar : text := ["$"%char].

(** The amount after [@] and after [=], tokens spaced out:
      [\$₱]? ( [0-9,]+ \.? [0-9]* ) *)
Definition amount_re : list node :=
  [OptLit [dollar; peso];
   GroupStart; Chars is_digit_or_comma Plus; Chars (char_is ".") Opt;
   Chars is_digit Star; GroupEnd].

(** [item_re], tokens spaced out as under [re.VERBOSE]:
      ^ (\d+) \s+ x \s+ (.*?) \s+ \( ([^)]+) \) \s+ @ \s*
      [\$₱]? ( [0-9,]+ \.? [0-9]* ) \s* = \s*
      [\$₱]? ( [0-9,]+ \.? [0-9]* ) $ *)
Definition item_re : list node :=
  [GroupStart; Chars is_digit Plus; GroupEnd;
   Chars is_space Plus; Chars (char_is "x") One; Chars is_space Plus;
   GroupStart; Chars (char_is_not newline) LazyStar; GroupEnd;
   Chars is_space Plus; Chars (char_is "(") One;
   GroupStart; Chars (char_is_not ")") Plus; GroupEnd;
   Chars (char_is ")") One;
   Chars is_space Plus; Chars (char_is "@") One; Chars is_space Star]
  ++ amount_re
  ++ [Chars is_space Star; Chars (char_is "=") One; Chars is_space Star]
  ++ amount_re.

(** [float(g.replace(',', '').replace('$', '').replace('₱', ''))] *)
Definition float_of_group (g : text) : option Q :=
  py_float (remove_all peso (remove_all dollar (remove_all comma g))).

(** The loop over the lines that collects [items].  The [int] call and the
    two [float] calls are not guarded: their [ValueError] leaves the
    importer. *)
Fixpoint parse_items (lines : list text) : result (list Line) :=
  match lines with
  | [] => Ok []
  | L :: rest =>
      match re_match item_re L with
      | None => parse_items rest
      | Some m =>
          match py_int (group m 1) with
          | None => Raise ValueError
          | Some qty =>
              let name := strip (group m 2) in
              let code := strip (group m 3) in
              match float_of_group (group m 4) with
              | None => Raise ValueError
              | Some price =>
                  match float_of_group (group m 5) with
                  | None => Raise ValueError
                  | Some total =>
                      match parse_items rest with
                      | Ok items =>
                          Ok (mkLine code name qty price total :: items)
                      | Raise e => Raise e
                      end
                  end
              end
          end
      end
  end.

(** The loop that keeps the value of the last [Employee:] line. *)
Definition parse_employee (lines : list text) : option text :=
  fold_left
    (fun emp L =>
       if startswith (bytes "Employee:") L
       then Some (strip (after_colon L))
       else emp)
    lines None.

Record Totals := mkTotals {
  subtotal : option Q;
  paid : option Q;
  change : option Q
}.

(** [float(L.split(':',1)[1].strip().replace('$','').replace('₱','')
    .replace(',',''))] inside [try ... except: None] *)
Definition scalar_of (L : text) : option Q :=
  py_float
    (remove_all comma (remove_all peso (remove_all dollar
       (strip (after_colon L))))).

(** The three tests one line goes through in the loop over the totals. *)
Definition scan_total (t : Totals) (L : text) : Totals :=
  let t1 :=
    if startswith (bytes "Subtotal:") L
    then mkTotals (scalar_of L) (paid t) (change t) else t in
  let t2 :=
    if startswith (bytes "Paid:") L
    then mkTotals (subtotal t1) (scalar_of L) (change t1) else t1 in
  if startswith (bytes "Change:") L
  then mkTotals (subtotal t2) (paid t2) (scalar_of L) else t2.

(** [for L in reversed(lines[-10:])] *)
Definition find_totals (lines : list text) : Totals :=
  fold_left scan_total (rev (lastn 10 lines)) (mkTotals None None None).

(** [sum(it[4] for it in items)] *)
Definition sum_totals (items : list Line) : Q :=
  fold_left (fun a it => (a + l_total it)%Q) items 0%Q.

Definition total_val (t : Totals) (items : list Line) : Q :=
  match subtotal t with
  | Some s => s
  | None => sum_totals items
  end.

Definition paid_val (t : Totals) (items : list Line) : Q :=
  match paid t with
  | Some p => p
  | None => total_val t items
  end.

Definition change_val (t : Totals) (items : list Line) : Q :=
  match change t with
  | Some c => c
  | None => (paid_val t items - total_val t items)%Q
  end.

(** ** Files *)

(** Universal newlines of a file opened in text mode: CR LF and CR are
    read as LF. *)
Fixpoint universal_newlines (s : text) : text :=
  match s with
  | [] => []
  | c :: s' =>
      if Ascii.eqb c carriage_return
      then newline ::
           match s' with
           | d :: s'' =>
               if Ascii.eqb d newline then universal_newlines s''
               else universal_newlines s'
           | [] => []
           end
      else c :: universal_newlines s'
  end.

(** The lines of a text, each without its newline; [cur] is the line being
    read, last byte first. *)
Fixpoint split_lines (cur : text) (s : text) : list text :=
  match s with
  | [] => if is_nil cur then [] else [rev cur]
  | c :: s' =>
      if Ascii.eqb c newline then rev cur :: split_lines [] s'
      else split_lines (c :: cur) s'
  end.

(** [[L.rstrip('\n') for L in f]] *)
Definition file_lines (content : text) : list text :=
  split_lines [] (universal_newlines content).

(** A directory entry: the name, and the decoded content unless opening or
    decoding the file fails. *)
Record File := mkFile {
  f_name : text;
  f_content : option text
}.

(** ** Receipt codec: rendering ([system.py]) *)

Definition HEADER_NAME : text := bytes "POS System Management".
Definition RECEIPTS_DIR : text := bytes "receipts".

(** Rounding of a non-negative rational to the nearest integer, a tie to
    the even one: the rounding of [format(v, '.2f')]. *)
Definition round_half_even (q : Q) : Z :=
  let n := Qnum q in
  let d := Z.pos (Qden q) in
  match 2 * (n mod d) ?= d with
  | Lt => n / d
  | Gt => n / d + 1
  | Eq => if Z.even (n / d) then n / d else n / d + 1
  end.

(** The amount in hundredths, without its sign. *)
Definition cents (v : Q) : Z := round_half_even (Qabs v * 100).

(** The [,] option of the format: a comma before every group of three
    digits, counted from the right.  The argument is the digits from the
    last to the first. *)
Fixpoint group3 (ds : text) : text :=
  match ds with
  | a :: b :: c :: ((_ :: _) as rest) =>
      a :: b :: c :: ","%char :: group3 rest
  | _ => ds
  end.

Definition group_thousands (ds : text) : text := rev (group3 (rev ds)).

Definition two_digits (n : Z) : text :=
  [digit_char (n / 10); digit_char (n mod 10)].

(** [f"{v:,.2f}"] *)
Definition format_2f (v : Q) : text :=
  (if Qnum v <? 0 then ["-"%char] else [])
  ++ group_thousands (digits_of (cents v / 100))
  ++ "."%char :: two_digits (cents v mod 100).

(** [format_currency(v)] *)
Definition format_currency (v : Q) : text := peso ++ format_2f v.

(** The value a rendered amount denotes: [v] rounded to two decimals. *)
Definition round2 (v : Q) : Q :=
  (if Qnum v <? 0 then - cents v else cents v) # 100.

Module Order.

(** An entry of [Order.items]: the dict with the keys [code], [name],
    [price] and [qty]. *)
Record item := mkItem {
  code : text;
  name : text;
  price : Q;
  qty : Z
}.

Definition t := list item.

(** [it['price'] * it['qty']], the product of binary64 when it is exact. *)
Definition line_total (it : item) : Q := (price it * inject_Z (qty it))%Q.

(** [Order.subtotal()], the sum of binary64 when every addition is
    exact. *)
Definition subtotal (order : t) : Q :=
  fold_left (fun a it => (a + line_total it)%Q) order 0%Q.

(** [Order.as_lines()] *)
Definition as_lines (order : t) : list Line :=
  map (fun it => mkLine (code it) (name it) (qty it) (price it)
                        (line_total it)) order.

End Order.

(** [f"{employee_name}"] for an [Optional[str]] *)
Definition str_of_employee (e : option text) : text :=
  match e with
  | Some n => n
  | None => bytes "None"
  end.

(** One [f.write] of the loop over [order.as_lines()]. *)
Definition render_line (l : Line) : text :=
  str_of_int (l_qty l) ++ bytes " x " ++ l_name l ++ bytes " (" ++ l_code l
  ++ bytes ") @ " ++ format_currency (l_price l) ++ bytes " = "
  ++ format_currency (l_total l) ++ [newline].

(** [save_receipt(order, paid, change, employee_name)]: the name of the
    file and what is written to it; [now] is
    [datetime.now().strftime('%Y%m%d_%H%M%S')]. *)
Definition save_receipt (now : text) (order : Order.t) (paid change : Q)
    (employee_name : option text) : text * text :=
  let fname := RECEIPTS_DIR ++ bytes "/receipt_" ++ now ++ bytes ".txt" in
  let subtotal := Order.subtotal order in
  let tax := 0%Q in
  let total := (subtotal + tax)%Q in
  (fname,
   HEADER_NAME ++ [newline]
   ++ bytes "Employee: " ++ str_of_employee employee_name ++ [newline]
   ++ now ++ [newline; newline]
   ++ concat (map render_line (Order.as_lines order))
   ++ [newline]
   ++ bytes "Subtotal: " ++ format_currency subtotal ++ [newline]
   ++ bytes "Tax: " ++ format_currency tax ++ [newline]
   ++ bytes "Total: " ++ format_currency total ++ [newline]
   ++ bytes "Paid: " ++ format_currency paid ++ [newline]
   ++ bytes "Change: " ++ format_currency change ++ [newline]).

(** ** Receipt importer *)

(** One turn of the loop over [os.listdir(receipts_dir)]: the database, and
    whether the file was imported; an exception here leaves the function.
    The name is one that can be bound to the query, as every ASCII name
    is.  When [save_order] raises the older saver is tried, and when both
    raise the file is passed over. *)
Definition import_file (w : World) (db : DB) (f : File) : DB * result bool :=
  let fname := f_name f in
  if negb (endswith (bytes ".txt") (lower fname)) then (db, Ok false)
  else if (0 <? count_receipt fname (orders db))%nat then (db, Ok false)
  else
    match f_content f with
    | None => (db, Ok false)
    | Some content =>
        let lines := file_lines content in
        let employee := parse_employee lines in
        match parse_items lines with
        | Raise e => (db, Raise e)
        | Ok items =>
            let t := find_totals lines in
            if is_nil items then (db, Ok false)
            else
              let total_val := total_val t items in
              let paid_val := paid_val t items in
              let change_val := change_val t items in
              match save_order w db items total_val paid_val change_val
                               employee (Some fname) with
              | Ok (db', _) => (db', Ok true)
              | Raise _ =>
                  match db_save_receipt w db items total_val paid_val
                                        change_val with
                  | Ok db' => (db', Ok true)
                  | Raise _ => (db, Ok false)
                  end
              end
        end
    end.

Fixpoint import_files (w : World) (db : DB) (files : list File)
    (imported : nat) : DB * result nat :=
  match files with
  | [] => (db, Ok imported)
  | f :: rest =>
      match import_file w db f with
      | (db', Ok true) => import_files w db' rest (S imported)
      | (db', Ok false) => import_files w db' rest imported
      | (db', Raise e) => (db', Raise e)
      end
  end.

(** [import_receipts_from_folder(receipts_dir)]; the directory is [None]
    when [os.path.isdir] is false. *)
Definition import_receipts_from_folder (w : World) (db : DB)
    (receipts_dir : option (list File)) : DB * result nat :=
  match receipts_dir with
  | None => (db, Ok 0%nat)
  | Some files => import_files w db files 0%nat
  end.

(** ** Ledger store: queries and deletion *)

(** [ORDER BY key DESC] over rows already in rowid order: a row goes before
    the first row whose key does not exceed its own, so rows with equal
    keys keep their order. *)
Fixpoint insert_desc {A} (gt : A -> A -> bool) (x : A) (l : list A)
  : list A :=
  match l with
  | [] => [x]
  | y :: l' => if gt y x then y :: insert_desc gt x l' else x :: y :: l'
  end.

Definition sort_desc {A} (gt : A -> A -> bool) (l : list A) : list A :=
  fold_right (insert_desc gt) [] l.

(** [SELECT code, name, quantity, price, total FROM order_items
    WHERE order_id = ?] *)
Definition items_of_order (oid : Z) (rows : list ItemRow) : list ItemRow :=
  filter (fun r => i_order_id r =? oid) rows.

(** [fetch_receipts()]: the orders, the last id first, each with the
    tuples of its items. *)
Definition fetch_receipts (db : DB) : list (OrderRow * list Line) :=
  map (fun o =>
         (o, map (fun r => mkLine (code r) (name r) (quantity r) (price r)
                                  (total r))
                 (items_of_order (order_id o) (order_items db))))
      (sort_desc (fun a b => order_id b <? order_id a) (orders db)).

(** [fetch_sales()]: [SELECT ... FROM sales ORDER BY total_revenue DESC]. *)
Definition fetch_sales (db : DB) : list SalesRow :=
  sort_desc (fun a b => negb (Qle_bool (total_revenue a) (total_revenue b)))
            (sales db).

(** [[f for f in os.listdir(receipts_dir) if f.lower().endswith('.txt')]] *)
Definition txt_names (files : list File) : list text :=
  filter (fun n => endswith (bytes ".txt") (lower n)) (map f_name files).

(** [receipt_filename IN (?, ..., ?)]; a NULL is in no list. *)
Definition key_in (names : list text) (o : OrderRow) : bool :=
  match receipt_filename o with
  | Some k => existsb (text_eqb k) names
  | None => false
  end.

Definition id_in (ids : list Z) (oid : Z) : bool := existsb (Z.eqb oid) ids.

(** [delete_imported_receipts(receipts_dir)].  [max_vars] is the number of
    [?] parameters SQLite accepts in one statement; beyond it [execute]
    raises, the [finally] closes the connection and nothing is committed. *)
Definition delete_imported_receipts (max_vars : nat) (db : DB)
    (receipts_dir : option (list File)) : DB * result nat :=
  match receipts_dir with
  | None => (db, Ok 0%nat)
  | Some files =>
      let filenames := txt_names files in
      if is_nil filenames then (db, Ok 0%nat)
      else if (max_vars <? List.length filenames)%nat
      then (db, Raise OperationalError)
      else
        let order_ids :=
          map order_id (filter (key_in filenames) (orders db)) in
        if is_nil order_ids then (db, Ok 0%nat)
        else if (max_vars <? List.length order_ids)%nat
        then (db, Raise OperationalError)
        else
          let kept_items :=
            filter (fun r => negb (id_in order_ids (i_order_id r)))
                   (order_items db) in
          let kept_orders :=
            filter (fun o => negb (id_in order_ids (order_id o)))
                   (orders db) in
          (mkDB kept_orders kept_items (sales db) (seq_orders db)
                (seq_order_items db),
           Ok (List.length (orders db) - List.length kept_orders)%nat)
  end.

(** ** The cart and the checkout ([system.py]) *)

(** [Order.add(code, name, price, qty)]: the quantity of the entry that has
    the code is raised, or a new entry is appended. *)
Fixpoint Order_add (order : Order.t) (code name : text) (price : Q) (qty : Z)
  : Order.t :=
  match order with
  | [] => [Order.mkItem code name price qty]
  | it :: rest =>
      if text_eqb (Order.code it) code
      then Order.mkItem (Order.code it) (Order.name it) (Order.price it)
                        (Order.qty it + qty) :: rest
      else it :: Order_add rest code name price qty
  end.

(** [Order.remove_index(idx)] *)
Definition Order_remove_index (order : Order.t) (idx : Z) : Order.t :=
  if ((0 <=? idx) && (idx <? Z.of_nat (List.length order)))%bool
  then firstn (Z.to_nat idx) order ++ skipn (S (Z.to_nat idx)) order
  else order.








(** ** The purge ([db_clear.py]) *)



(** ** The catalog tables ([database.py]) and their seed ([system.py]) *)

(** [MENU]: the categories in the order of the dict, each with its
    [(code, name, price)] entries. *)
Definition MENU : list (text * list (text * text * Q)) :=
  [(bytes "Student Meals",
    [(bytes "AR", bytes "Adobo Rice Bowl", 65%Q);
     (bytes "SR", bytes "Siomai Rice Bowl", 60%Q);
     (bytes "BS", bytes "Burger Steak Bowl", 65%Q);
     (bytes "LS", bytes "Lumpiang Shanghai Bowl", 65%Q);
     (bytes "CS", bytes "Chicken Skin Bowl", 60%Q);
     (bytes "SS", bytes "Sisig Bowl", 65%Q)]);
   (bytes "Add-ons",
    [(bytes "R", bytes "Rice", 20%Q);
     (bytes "E", bytes "Egg", 15%Q);
     (bytes "SM", bytes "Siomai (4pcs)", 25%Q);
     (bytes "CH", bytes "Cheese Sticks (7pcs)", 20%Q);
     (bytes "F", bytes "Fries", 25%Q)]);
   (bytes "Drinks",
    [(bytes "SG", bytes "Sago't Gulaman", 30%Q);
     (bytes "BJ", bytes "Buko Juice", 30%Q);
     (bytes "CK", bytes "Coke", 25%Q);
     (bytes "RY", bytes "Royal", 25%Q);
     (bytes "SP", bytes "Sprite", 25%Q)]);
   (bytes "Shakes",
    [(bytes "MG", bytes "Mango Graham Shake", 45%Q);
     (bytes "WM", bytes "Watermelon Shake", 45%Q);
     (bytes "CM", bytes "Choco Milo Shake", 45%Q)])].

(** [EMPLOYEES]: the user names with their passwords. *)
Definition EMPLOYEES : list (text * text) :=
  [(bytes "kit", bytes "admin123")].

(** [login(admin_id PK AUTOINCREMENT, username UNIQUE, password)] *)
Record LoginRow := mkLogin {
  admin_id : Z;
  username : text;
  password : text
}.

(** [menu(menu_id PK AUTOINCREMENT, code UNIQUE, name, category, price)] *)
Record MenuRow := mkMenu {
  menu_id : Z;
  m_code : text;
  m_name : text;
  category : text;
  m_price : Q
}.

Record Catalog := mkCatalog {
  login : list LoginRow;
  menu : list MenuRow;
  seq_login : Z;
  seq_menu : Z
}.

(** [INSERT OR IGNORE INTO login (username, password) VALUES (?, ?)]: the
    rowid is drawn before the UNIQUE constraint is checked, and the counter
    keeps it when the row is ignored. *)
Definition insert_login (c : Catalog) (e : text * text) : Catalog :=
  let id := next_rowid (seq_login c) (map admin_id (login c)) in
  if existsb (fun r => text_eqb (username r) (fst e)) (login c)
  then mkCatalog (login c) (menu c) id (seq_menu c)
  else mkCatalog (login c ++ [mkLogin id (fst e) (snd e)]) (menu c) id
                 (seq_menu c).

(** [INSERT OR IGNORE INTO menu (code, name, category, price)
    VALUES (?, ?, ?, ?)] for one tuple of [executemany]. *)
Definition insert_menu (c : Catalog) (e : text * text * text * Q) : Catalog :=
  let '(code, name, cat, price) := e in
  let id := next_rowid (seq_menu c) (map menu_id (menu c)) in
  if existsb (fun r => text_eqb (m_code r) code) (menu c)
  then mkCatalog (login c) (menu c) (seq_login c) id
  else mkCatalog (login c) (menu c ++ [mkMenu id code name cat price])
                 (seq_login c) id.

(** The built-in menu of [insert_default_data]. *)
Definition FALLBACK_MENU : list (text * text * text * Q) :=
  [(bytes "AR", bytes "Adobo Rice Bowl", bytes "Student Meal", 65%Q);
   (bytes "SR", bytes "Siomai Rice Bowl", bytes "Student Meal", 60%Q);
   (bytes "BS", bytes "Burger Steak Bowl", bytes "Student Meal", 65%Q);
   (bytes "LS", bytes "Lumpiang Shanghai Bowl", bytes "Student Meal", 65%Q);
   (bytes "CS", bytes "Chicken Skin Bowl", bytes "Student Meal", 60%Q);
   (bytes "SS", bytes "Sisig Bowl", bytes "Student Meal", 65%Q)].

(** The tuples [insert_default_data] offers to the [menu] table. *)
Definition menu_inserts (menu_items : option (list (text * list (text * text * Q))))
  : list (text * text * text * Q) :=
  match menu_items with
  | Some ((_ :: _) as m) =>
      flat_map (fun ci =>
                  map (fun e => (fst (fst e), snd (fst e), fst ci, snd e))
                      (snd ci)) m
  | _ => FALLBACK_MENU
  end.

(** The pairs it offers to the [login] table. *)
Definition login_inserts (employees : option (list (text * text)))
  : list (text * text) :=
  match employees with
  | Some ((_ :: _) as es) => es
  | _ => [(bytes "kit", bytes "admin123")]
  end.

(** [insert_default_data()]; [employees] and [menu_items] are [EMPLOYEES]
    and [MENU] as read from [system.py], [None] when the module cannot be
    loaded or does not hold a dict. *)
Definition insert_default_data (employees : option (list (text * text)))
    (menu_items : option (list (text * list (text * text * Q))))
    (c : Catalog) : Catalog :=
  fold_left insert_menu (menu_inserts menu_items)
            (fold_left insert_login (login_inserts employees) c).

(** ** Vocabulary of the properties

    Tests, views and sample data that the statements below are written
    with. *)

(** *** The domain of the model

    The embedding computes with bytes, unbounded integers and exact
    rationals.  The tests of this section delimit the inputs on which
    Python and SQLite compute the same: text that is ASCII apart from peso
    signs, decimal literals without exponent, quantities that SQLite
    stores as integers, sums and products that binary64 holds exactly.  A
    statement assumes them where the code it is about depends on them. *)

Definition is_ascii (c : ascii) : bool := (N_of_ascii c <? 128)%N.

Definition ascii_text (s : text) : bool := forallb is_ascii s.

(** ASCII apart from peso signs. *)
Definition tame_text (s : text) : bool := ascii_text (remove_all peso s).

(** How often 2 divides [p], and what is left of [p]. *)
Fixpoint twos (p : positive) : Z :=
  match p with
  | xO p' => 1 + twos p'
  | _ => 0
  end.

Fixpoint odd_part (p : positive) : positive :=
  match p with
  | xO p' => odd_part p'
  | _ => p
  end.

(** The rational is a finite binary64 number: zero, or an odd significand
    below [2^53] times a power of two that is at least [2^-1074], the
    whole below [2^1024]. *)
Definition is_b64 (q : Q) : bool :=
  let r := Qred q in
  match Qnum r with
  | 0 => true
  | Z.pos n | Z.neg n =>
      let k := twos (Qden r) in
      (Pos.eqb (odd_part (Qden r)) 1
       && (Z.log2 (Z.pos (odd_part n)) <? 53)
       && (- 1074 <=? twos n - k)
       && (Z.log2 (Z.pos n) - k <? 1024))%bool
  end.

(** Every addition of [sum(l)], started at [acc], is exact. *)
Fixpoint exact_sum (acc : Q) (l : list Q) : bool :=
  match l with
  | [] => true
  | x :: l' => (is_b64 (acc + x) && exact_sum (acc + x)%Q l')%bool
  end.

(** The amounts of the cart are floats, and so are the quantities, the
    line totals and every partial sum of the subtotal: the products and
    sums of [as_lines] and [subtotal] are exact. *)
Definition exact_item (it : Order.item) : bool :=
  (is_b64 (Order.price it) && is_b64 (inject_Z (Order.qty it))
   && is_b64 (Order.line_total it))%bool.

Definition exact_order (order : Order.t) : bool :=
  (forallb exact_item order
   && exact_sum 0 (map Order.line_total order))%bool.


(** The rounded amount is a float: [float] reads the rendered amount
    without an error of its own. *)
Definition exact_cents (v : Q) : bool := is_b64 (round2 v).

(** Every quantity can be bound to an INTEGER column. *)
Definition quantities_fit (items : list Line) : bool :=
  forallb (fun it => fits_int64 (l_qty it)) items.

Definition exact_option (v : option Q) : bool :=
  match v with
  | Some q => is_b64 q
  | None => true
  end.

(** The amounts the importer records are floats, and the sum and the
    difference it computes when the file announces no Subtotal or no
    Change are exact. *)
Definition exact_amounts (t : Totals) (items : list Line) : bool :=
  (match subtotal t with
   | Some s => is_b64 s
   | None => forallb (fun it => is_b64 (l_total it)) items
             && exact_sum 0 (map l_total items)
   end
   && exact_option (paid t)
   && match change t with
      | Some c => is_b64 c
      | None => is_b64 (paid_val t items - total_val t items)
      end)%bool.

(** The amounts of the lines are floats. *)
Definition exact_lines (items : list Line) : bool :=
  forallb (fun it => (is_b64 (l_price it) && is_b64 (l_total it))%bool) items.

(** The AUTOINCREMENT counters are far from the largest rowid. *)
Definition roomy (db : DB) : bool :=
  ((next_rowid (seq_orders db) (map order_id (orders db)) <? 2 ^ 62)
   && (next_rowid (seq_order_items db)
                  (map order_item_id (order_items db)) <? 2 ^ 62))%bool.

(** A byte that is neither a letter nor an underscore: a scalar made of
    such bytes is a float only as a plain decimal literal. *)
Definition literal_char (c : ascii) : bool :=
  negb (in_range 65 90 c || in_range 97 122 c || char_is "_" c).

(** The line starts like a line of the totals block. *)
Definition announces (L : text) : bool :=
  (startswith (bytes "Subtotal:") L || startswith (bytes "Paid:") L
   || startswith (bytes "Change:") L)%bool.

(** The scalars of the last ten lines are written without exponent, word
    or underscore. *)
Definition plain_totals (lines : list text) : bool :=
  forallb (fun L => (negb (announces L)
                     || forallb literal_char (after_colon L))%bool)
          (lastn 10 lines).

(** At most 200 bytes to a line and 10000 lines: every number the file
    holds is a finite float, and so is every sum of them. *)
Definition short_lines (lines : list text) : bool :=
  (forallb (fun L => Z.of_nat (List.length L) <=? 200) lines
   && (Z.of_nat (List.length lines) <=? 10000))%bool.

(** A file content the importer model reads as Python does. *)
Definition tame (content : text) : bool :=
  (tame_text content && short_lines (file_lines content)
   && plain_totals (file_lines content))%bool.

(** The ledger is within integer and exact arithmetic: no quantity is
    negative and their sum is below [2^63]; every line total is a whole
    number that is not negative, and their sum is at most [2^53]. *)
Definition whole (q : Q) : bool :=
  ((Qden (Qred q) =? 1)%positive && (0 <=? Qnum q))%bool.

Definition modest_ledger (db : DB) : bool :=
  (forallb (fun r => ((0 <=? quantity r) && whole (total r))%bool)
           (order_items db)
   && (fold_right (fun r a => quantity r + a) 0 (order_items db) <? 2 ^ 63)
   && Qle_bool (fold_right (fun r a => (total r + a)%Q) 0%Q (order_items db))
               (2 ^ 53 # 1))%bool.

(** The item rows of an order whose quantities fit. *)
Definition store_item (db : DB) (oid : Z) (it : Line) : DB :=
  let iid := next_rowid (seq_order_items db)
                        (map order_item_id (order_items db)) in
  mkDB (orders db)
       (order_items db ++
          [mkItem iid oid (l_code it) (l_name it) (l_qty it)
                  (l_price it) (l_total it)])
       (sales db) (seq_orders db) iid.

Definition store_items (db : DB) (oid : Z) (items : list Line) : DB :=
  fold_left (fun d it => store_item d oid it) items db.

(** *** Tests on text *)

(** The byte [x] does not occur in [s]. *)
Definition no_char (x : ascii) (s : text) : bool :=
  forallb (fun c => negb (Ascii.eqb x c)) s.

(** The text starts with a byte that is no white space. *)
Definition first_ok (s : text) : bool :=
  match s with
  | c :: _ => negb (is_space c)
  | [] => false
  end.

(** Not empty, and no white space at either end. *)
Definition clean (s : text) : bool := (first_ok s && first_ok (rev s))%bool.

(** A repetition of [p] cannot go on into [s]. *)
Definition stops (p : ascii -> bool) (s : text) : bool :=
  match s with
  | c :: _ => negb (p c)
  | [] => true
  end.

(** Neither a newline nor a carriage return. *)
Definition plain (s : text) : bool :=
  (no_char newline s && no_char carriage_return s)%bool.

(** No parenthesis, opening or closing. *)
Definition no_parens (s : text) : bool :=
  (no_char "(" s && no_char ")" s)%bool.

(** The bytes of a rendered amount. *)
Definition amount_char (c : ascii) : bool :=
  (is_digit_or_comma c || char_is "." c || char_is "-" c)%bool.

(** The sign as [format_2f] writes it and as [float] reads it. *)
Definition minus_if (neg : bool) : text := if neg then ["-"%char] else [].

Definition signed_if (neg : bool) (z : Z) : Z := if neg then - z else z.

(** After white space, the text goes on with an opening parenthesis. *)
Definition paren_next (t : text) : bool :=
  match lstrip t with
  | c :: _ => char_is "(" c
  | [] => false
  end.

(** The first byte of [Subtotal:], [Paid:] or [Change:]. *)
Definition totals_initial (c : ascii) : bool :=
  (char_is "S" c || char_is "P" c || char_is "C" c)%bool.

(** *** The layout of a receipt *)

(** The text of an item line: quantity, name, code and the two amounts. *)
Definition item_text (D name code A1 A2 : text) : text :=
  D ++ bytes " x " ++ name ++ bytes " (" ++ code ++ bytes ") @ "
    ++ peso ++ A1 ++ bytes " = " ++ peso ++ A2.

(** Every line followed by a newline. *)
Definition unlines (ls : list text) : text :=
  concat (map (fun l => l ++ [newline]) ls).

(** One element of [Order.as_lines]. *)
Definition as_line (it : Order.item) : Line :=
  mkLine (Order.code it) (Order.name it) (Order.qty it) (Order.price it)
         (Order.line_total it).

(** The lines [save_receipt] writes. *)
Definition line_text (l : Line) : text :=
  str_of_int (l_qty l) ++ bytes " x " ++ l_name l ++ bytes " (" ++ l_code l
  ++ bytes ") @ " ++ format_currency (l_price l) ++ bytes " = "
  ++ format_currency (l_total l).

(** The lines before the items. *)
Definition head_lines (now : text) (employee_name : option text)
  : list text :=
  [HEADER_NAME; bytes "Employee: " ++ str_of_employee employee_name; now; []].

(** The totals block. *)
Definition totals_lines (sub paid change : Q) : list text :=
  [bytes "Subtotal: " ++ format_currency sub;
   bytes "Tax: " ++ format_currency 0;
   bytes "Total: " ++ format_currency (sub + 0);
   bytes "Paid: " ++ format_currency paid;
   bytes "Change: " ++ format_currency change].

(** The lines of the file as a list. *)
Definition receipt_lines (now : text) (order : Order.t) (paid change : Q)
    (employee_name : option text) : list text :=
  head_lines now employee_name
  ++ map line_text (Order.as_lines order)
  ++ [] :: totals_lines (Order.subtotal order) paid change.

(** *** Well-formed orders *)

(** A display name and a product code without surrounding white space,
    parentheses in the name, a closing parenthesis in the code or line
    breaks; a quantity and a unit price that are not negative; at most
    4300 digits in the quantity, the most [str] and [int] convert. *)
Definition wf_item (it : Order.item) : bool :=
  (clean (Order.name it) && no_parens (Order.name it) && plain (Order.name it)
   && clean (Order.code it) && no_char ")" (Order.code it)
   && plain (Order.code it)
   && (0 <=? Order.qty it) && (0 <=? Qnum (Order.price it))
   && (List.length (str_of_int (Order.qty it)) <=? 4300)%nat)%bool.

(** The form of [strftime('%Y%m%d_%H%M%S')]: digits and underscores. *)
Definition wf_timestamp (now : text) : bool :=
  forallb (fun c => (is_digit c || char_is "_" c)%bool) now.

(** A well-formed input of [save_receipt]: the paid and change amounts are
    arbitrary. *)
Definition well_formed (now : text) (order : Order.t)
    (employee_name : option text) : bool :=
  (wf_timestamp now && forallb wf_item order
   && plain (str_of_employee employee_name))%bool.

(** The names, the codes and the employee name are ASCII. *)
Definition ascii_input (order : Order.t) (employee_name : option text)
  : bool :=
  (forallb (fun it => (ascii_text (Order.name it)
                       && ascii_text (Order.code it))%bool) order
   && ascii_text (str_of_employee employee_name))%bool.

(** The arithmetic of the receipt is exact: the cart, the paid and change
    amounts, and every amount once it is rounded to hundredths. *)
Definition exact_receipt (order : Order.t) (paid change : Q) : bool :=
  (exact_order order
   && forallb (fun it => (exact_cents (Order.price it)
                          && exact_cents (Order.line_total it))%bool) order
   && exact_cents (Order.subtotal order)
   && is_b64 paid && is_b64 change
   && exact_cents paid && exact_cents change)%bool.

(** What the importer is to recover from the line of an item. *)
Definition recovered (it : Order.item) : Line :=
  mkLine (Order.code it) (Order.name it) (Order.qty it)
         (round2 (Order.price it)) (round2 (Order.line_total it)).

(** *** Views of the ledger *)

(** The line an [order_items] row stores. *)
Definition line_of_row (r : ItemRow) : Line :=
  mkLine (code r) (name r) (quantity r) (price r) (total r).

(** The sums over the groups of a code. *)
Definition group_quantity (c : text) (gs : list Group) : Z :=
  fold_right (fun g a => if text_eqb (g_code g) c then qty_sum g + a else a)
             0 gs.

Definition group_revenue (c : text) (gs : list Group) : Q :=
  fold_right
    (fun g a => if text_eqb (g_code g) c then (revenue_sum g + a)%Q else a)
    0%Q gs.

(** The [sales] row the rebuild inserts for a group. *)
Definition sales_row_of (g : Group) : SalesRow :=
  mkSales (g_code g) (g_name g) (qty_sum g) (revenue_sum g) (last_dt g).

(** *** Views of the importer *)

(** The outcomes of reading and parsing a file. *)
Inductive parsed :=
| Skipped
| Failed (e : exn)
| Parsed (emp : option text) (items : list Line) (t : Totals).

(** What reading and parsing a file yields, whatever the database holds. *)
Definition parse_file (f : File) : parsed :=
  match f_content f with
  | None => Skipped
  | Some content =>
      match parse_items (file_lines content) with
      | Raise e => Failed e
      | Ok items =>
          if is_nil items then Skipped
          else Parsed (parse_employee (file_lines content)) items
                      (find_totals (file_lines content))
      end
  end.

(** The file is passed over before it is opened: its name does not end in
    [.txt], or an order already holds the name. *)
Definition seen (db : DB) (f : File) : bool :=
  (negb (endswith (bytes ".txt") (lower (f_name f)))
   || (0 <? count_receipt (f_name f) (orders db))%nat)%bool.

(** The file parses to lines of which a quantity does not fit. *)
Definition oversized (f : File) : Prop :=
  exists emp items t,
    parse_file f = Parsed emp items t /\ quantities_fit items = false.

(** The file is passed over in every world: it was seen, nothing in it
    makes an order, or both savers raise on its lines. *)
Definition settled (db : DB) (f : File) : Prop :=
  seen db f = true \/ parse_file f = Skipped \/ oversized f.

(** A folder the importer model reads as Python does: ASCII names, tame
    contents, no item line whose quantity does not fit, amounts that are
    floats and exact sums. *)
Definition tame_file (f : File) : bool :=
  (ascii_text (f_name f)
   && match f_content f with
      | Some content =>
          tame content
          && match parse_items (file_lines content) with
             | Ok items =>
                 quantities_fit items && exact_lines items
                 && exact_amounts (find_totals (file_lines content)) items
             | Raise _ => true
             end
      | None => true
      end)%bool.

Definition tame_dir (receipts_dir : option (list File)) : bool :=
  match receipts_dir with
  | Some files => forallb tame_file files
  | None => true
  end.

(** *** Sample data *)

(** Sample data: the order of the scenario of the specification. *)
Definition adobo : Line :=
  mkLine (bytes "AR") (bytes "Adobo Rice Bowl") 2 65 130.

(** A world without failures. *)
Definition quiet : World :=
  mkWorld (bytes "2024-11-04 10:15:00") (bytes "2024-11-04 10:15:00")
          (fun _ => false) false.

(** A world in which every statement of the aggregate update raises. *)
Definition failing : World :=
  mkWorld (bytes "2024-11-04 10:15:00") (bytes "2024-11-04 10:15:00")
          (fun _ => true) true.

(** The ledger after the scenario order was recorded under
    [receipt_x.txt]. *)
Definition ledger_x : DB :=
  match save_order quiet empty_db [adobo] 130 150 20 None
                   (Some (bytes "receipt_x.txt")) with
  | Ok (db, _) => db
  | Raise _ => empty_db
  end.

(** A ledger whose only order holds the empty string as its key. *)
Definition ledger_empty_key : DB :=
  match save_order quiet empty_db [adobo] 130 150 20 None (Some []) with
  | Ok (db, _) => db
  | Raise _ => empty_db
  end.

(** The product AR sold under two display names, the catalog having been
    renamed between the two orders. *)
Definition adobo_renamed : Line :=
  mkLine (bytes "AR") (bytes "Adobo Bowl") 1 65 65.

(** The ledger after both orders. *)
Definition ledger_renamed : DB :=
  match save_order quiet ledger_x [adobo_renamed] 65 100 35 None
                   (Some (bytes "receipt_y.txt")) with
  | Ok (db, _) => db
  | Raise _ => empty_db
  end.


(** A receipt without Subtotal and Change lines. *)
Definition receipt_paid_only : text :=
  bytes "2 x Adobo Rice Bowl (AR) @ 65.00 = 130.00" ++ [newline]
  ++ bytes "Paid: 150" ++ [newline].


(** A receipt whose second line matches the item grammar with a lone comma
    as its unit price. *)
Definition receipt_comma_price : text :=
  bytes "2 x Adobo Rice Bowl (AR) @ 65.00 = 130.00" ++ [newline]
  ++ bytes "1 x Rice (R) @ , = 20.00" ++ [newline].

(** The receipt of the scenario as [save_receipt] writes it. *)
Definition receipt_scenario : text :=
  snd (save_receipt (bytes "20241104_101500")
         [Order.mkItem (bytes "AR") (bytes "Adobo Rice Bowl") 65 2]
         150 20 (Some (bytes "Kit"))).



(** A directory: two receipts and a file that is none. *)
Definition scenario_dir : option (list File) :=
  Some [mkFile (bytes "receipt_x.txt") (Some receipt_scenario);
        mkFile (bytes "notes.md") (Some receipt_scenario);
        mkFile (bytes "receipt_y.TXT") (Some receipt_paid_only)].

(** *** Views of the aggregates *)

(** What a list of order lines adds to a code. *)
Definition lines_quantity (c : text) (items : list Line) : Z :=
  fold_right (fun it a => if text_eqb (l_code it) c then l_qty it + a else a)
             0 items.

Definition lines_revenue (c : text) (items : list Line) : Q :=
  fold_right
    (fun it a => if text_eqb (l_code it) c then (l_total it + a)%Q else a)
    0%Q items.

(** The aggregates the [sales] table holds for a code; nothing when the
    code has no row. *)
Definition sales_quantity (c : text) (db : DB) : Z :=
  match sales_of c db with
  | Some s => total_quantity s
  | None => 0
  end.

Definition sales_revenue (c : text) (db : DB) : Q :=
  match sales_of c db with
  | Some s => total_revenue s
  | None => 0%Q
  end.

(** The quantity and the revenue a [find] in [sales] reports. *)
Definition found_quantity (s : option SalesRow) : Z :=
  match s with Some s => total_quantity s | None => 0 end.

Definition found_revenue (s : option SalesRow) : Q :=
  match s with Some s => total_revenue s | None => 0%Q end.

(** An [order_items] row carries the code. *)
Definition sold (c : text) (db : DB) : bool :=
  existsb (fun r => text_eqb (code r) c) (order_items db).

(** The aggregates agree with the ledger: a code has a [sales] row exactly
    when an order line carries it, and the row holds the sums over these
    lines. *)
Definition consistent (db : DB) : Prop :=
  forall c,
    sales_has c (sales db) = sold c db /\
    sales_quantity c db = ledger_quantity c db /\
    (sales_revenue c db == ledger_revenue c db)%Q.

(** No statement of the aggregate update fails. *)
Definition fault_free (w : World) : Prop :=
  txn_raises w = false /\ forall it, stmt_raises w it = false.

(** Every line of a code carries the same display name. *)
Definition one_name_per_code (db : DB) : Prop :=
  forall r1 r2,
    In r1 (order_items db) -> In r2 (order_items db) ->
    code r1 = code r2 -> name r1 = name r2.

(** The AUTOINCREMENT counter of [orders] is not behind the table: no order
    and no order line carries an id beyond it. *)
Definition wf_ids (db : DB) : bool :=
  (forallb (fun o => order_id o <=? seq_orders db) (orders db)
   && forallb (fun r => i_order_id r <=? seq_orders db) (order_items db))%bool.

(** The order of the rows of [GROUP BY code, name]. *)
Definition key_before (g h : Group) : Prop :=
  key_compare (g_code g) (g_name g) (g_code h) (g_name h) = Lt.

(** The group is the one of the row. *)
Definition group_of_row (g : Group) (r : ItemRow) : Prop :=
  g_code g = code r /\ g_name g = name r.

(** *** Views of the cart *)

(** The entry of a code, the one [Order.add] looks for. *)
Definition cart_entry (c : text) (order : Order.t) : option Order.item :=
  find (fun it => text_eqb (Order.code it) c) order.

(** The quantity the cart holds of a code. *)
Definition cart_qty (c : text) (order : Order.t) : Z :=
  match cart_entry c order with
  | Some it => Order.qty it
  | None => 0
  end.

(** The unit price an added quantity is charged at: the price of the entry
    the cart has for the code, and the price passed when it has none. *)
Definition charged_price (c : text) (price : Q) (order : Order.t) : Q :=
  match cart_entry c order with
  | Some it => Order.price it
  | None => price
  end.

(** *** Views of the catalog *)

(** The tuple a [menu] row was inserted from. *)
Definition menu_tuple (r : MenuRow) : text * text * text * Q :=
  (m_code r, m_name r, category r, m_price r).

(** The code of a tuple offered to the [menu] table. *)
Definition offered_code (e : text * text * text * Q) : text :=
  fst (fst (fst e)).

Definition empty_catalog : Catalog := mkCatalog [] [] 0 0.
(** * Properties *)

Unset Implicit Arguments.

(** ** Text *)

Lemma text_eqb_eq a b : text_eqb a b = true <-> a = b.
Proof. unfold text_eqb. destruct (text_eq_dec a b); split; congruence. Qed.

Lemma text_eqb_refl a : text_eqb a a = true.
Proof. now apply text_eqb_eq. Qed.

Lemma text_eqb_neq a b : a <> b -> text_eqb a b = false.
Proof. unfold text_eqb. destruct (text_eq_dec a b); congruence. Qed.

Lemma text_compare_eq a b : text_compare a b = Eq <-> a = b.
Proof.
  revert b. induction a as [|x a IH]; intros [|y b]; simpl; split;
    try congruence; try reflexivity.
  - destruct (Ascii.compare x y) eqn:E; try discriminate.
    apply Ascii.compare_eq_iff in E. intros H. apply IH in H. congruence.
  - intros H. injection H as -> ->.
    replace (Ascii.compare y y) with Eq.
    + now apply IH.
    + symmetry. destruct (Ascii.compare y y) eqn:E; trivial;
        pose proof (Ascii.compare_antisym y y) as A; rewrite E in A;
        discriminate.
Qed.

Lemma forallb_rev {A} (p : A -> bool) (l : list A) :
  forallb p (rev l) = forallb p l.
Proof.
  induction l as [|x l IH]; simpl; trivial.
  rewrite forallb_app, IH. simpl. rewrite andb_true_r. apply andb_comm.
Qed.

Lemma forallb_map {A B} (f : A -> B) (p : B -> bool) (l : list A) :
  forallb p (map f l) = forallb (fun x => p (f x)) l.
Proof. induction l as [|x l IH]; simpl; trivial. now rewrite IH. Qed.

(** ** Characters and numbers *)

Ltac ascii_cases c :=
  destruct c as [[] [] [] [] [] [] [] []]; vm_compute;
  try reflexivity; try discriminate; try tauto.

Lemma digit_not_space c : is_digit c = true -> is_space c = false.
Proof. ascii_cases c. Qed.

Lemma digit_is_digit_or_comma c :
  is_digit c = true -> is_digit_or_comma c = true.
Proof. unfold is_digit_or_comma. now intros ->. Qed.

Lemma digit_char_value d : 0 <= d <= 9 -> digit_value (digit_char d) = d.
Proof.
  intros H.
  assert (C : d = 0 \/ d = 1 \/ d = 2 \/ d = 3 \/ d = 4 \/ d = 5 \/ d = 6 \/
              d = 7 \/ d = 8 \/ d = 9) by lia.
  repeat (destruct C as [->|C]; [reflexivity|]). now subst.
Qed.

Lemma digit_char_is_digit d : 0 <= d <= 9 -> is_digit (digit_char d) = true.
Proof.
  intros H.
  assert (C : d = 0 \/ d = 1 \/ d = 2 \/ d = 3 \/ d = 4 \/ d = 5 \/ d = 6 \/
              d = 7 \/ d = 8 \/ d = 9) by lia.
  repeat (destruct C as [->|C]; [reflexivity|]). now subst.
Qed.

Lemma digits_value_app ds c :
  digits_value (ds ++ [c]) = 10 * digits_value ds + digit_value c.
Proof. unfold digits_value. now rewrite fold_left_app. Qed.

Lemma digits_value_app2 ds a b :
  digits_value (ds ++ [a; b])
  = 100 * digits_value ds + (10 * digit_value a + digit_value b).
Proof. unfold digits_value. rewrite fold_left_app. cbn [fold_left]. lia. Qed.

(** The digits written for [n] read back as [n]. *)
Lemma digits_from_spec fuel :
  forall n acc,
    0 <= n < 10 * 2 ^ Z.of_nat fuel ->
    exists ds,
      digits_from fuel n acc = ds ++ acc /\
      ds <> [] /\ forallb is_digit ds = true /\ digits_value ds = n.
Proof.
  induction fuel as [|f IH]; intros n acc H.
  - simpl in H. exists [digit_char (n mod 10)]. simpl.
    rewrite Z.mod_small by lia.
    rewrite digit_char_is_digit by lia.
    unfold digits_value. simpl. rewrite digit_char_value by lia.
    repeat split; congruence.
  - cbn [digits_from].
    assert (M : 0 <= n mod 10 <= 9)
      by (pose proof (Z.mod_pos_bound n 10 ltac:(lia)); lia).
    destruct (n / 10 =? 0) eqn:E.
    + apply Z.eqb_eq in E. exists [digit_char (n mod 10)]. simpl.
      rewrite digit_char_is_digit by lia.
      unfold digits_value. simpl. rewrite digit_char_value by lia.
      pose proof (Z.div_mod n 10 ltac:(lia)). repeat split; try congruence. lia.
    + assert (B : 0 <= n / 10 < 10 * 2 ^ Z.of_nat f).
      { rewrite Nat2Z.inj_succ, Z.pow_succ_r in H by lia.
        split; [apply Z.div_pos; lia|].
        apply Z.div_lt_upper_bound; lia. }
      destruct (IH (n / 10) (digit_char (n mod 10) :: acc) B)
        as (ds & D & N & A & V).
      exists (ds ++ [digit_char (n mod 10)]).
      rewrite D, <- app_assoc. simpl. split; [reflexivity|].
      split; [now destruct ds|].
      rewrite forallb_app, A. simpl. rewrite digit_char_is_digit by lia.
      split; [reflexivity|].
      rewrite digits_value_app, V, digit_char_value by lia.
      pose proof (Z.div_mod n 10 ltac:(lia)). lia.
Qed.

Lemma digits_of_spec n :
  0 <= n ->
  digits_of n <> [] /\ forallb is_digit (digits_of n) = true /\
  digits_value (digits_of n) = n.
Proof.
  intros H. unfold digits_of.
  assert (B : 0 <= n < 10 * 2 ^ Z.of_nat (Z.to_nat (Z.log2 n))).
  { split; trivial. rewrite Z2Nat.id by apply Z.log2_nonneg.
    destruct (Z.eq_dec n 0) as [->|N]; [simpl; lia|].
    pose proof (Z.log2_spec n).
    rewrite Z.pow_succ_r in * by apply Z.log2_nonneg.
    lia. }
  destruct (digits_from_spec _ n [] B) as (ds & D & N & A & V).
  rewrite D, app_nil_r. auto.
Qed.

Lemma str_of_int_nonneg n : 0 <= n -> str_of_int n = digits_of n.
Proof.
  intros H. unfold str_of_int.
  destruct (n <? 0) eqn:E; trivial. apply Z.ltb_lt in E. lia.
Qed.

Lemma two_digits_spec n :
  0 <= n < 100 ->
  forallb is_digit (two_digits n) = true /\
  forall ds, digits_value (ds ++ two_digits n) = 100 * digits_value ds + n.
Proof.
  intros H. unfold two_digits.
  assert (A : 0 <= n / 10 <= 9).
  { split; [apply Z.div_pos; lia|].
    assert (n / 10 < 10) by (apply Z.div_lt_upper_bound; lia). lia. }
  assert (B : 0 <= n mod 10 <= 9)
    by (pose proof (Z.mod_pos_bound n 10 ltac:(lia)); lia).
  split.
  - simpl. now rewrite !digit_char_is_digit.
  - intros ds. rewrite digits_value_app2, !digit_char_value by lia.
    pose proof (Z.div_mod n 10 ltac:(lia)). lia.
Qed.

(** ** Text operations on rendered amounts *)

Lemma remove_all_single c s :
  remove_all [c] s = filter (fun x => negb (Ascii.eqb c x)) s.
Proof.
  unfold remove_all. induction s as [|x s IH]; trivial.
  cbn [remove_all_from filter]. unfold startswith. cbn [strip_prefix].
  destruct (Ascii.eqb c x); cbn [negb List.length Nat.pred]; now rewrite IH.
Qed.

Lemma remove_all_absent x p s :
  no_char x s = true -> remove_all (x :: p) s = s.
Proof.
  unfold remove_all, no_char. induction s as [|c s IH]; trivial.
  cbn [forallb remove_all_from]. intros H. apply andb_prop in H.
  destruct H as [H1 H2]. apply negb_true_iff in H1.
  unfold startswith. cbn [strip_prefix]. rewrite H1. now rewrite IH.
Qed.

Lemma remove_all_peso_prefix s :
  remove_all peso (peso ++ s) = remove_all peso s.
Proof. reflexivity. Qed.

Lemma filter_id {A} (p : A -> bool) l : forallb p l = true -> filter p l = l.
Proof.
  induction l as [|x l IH]; simpl; trivial.
  intros H. apply andb_prop in H. destruct H as [-> H]. now rewrite IH.
Qed.

(** *** Thousands separators *)

Lemma group3_spec n :
  forall ds,
    (List.length ds <= n)%nat ->
    forallb is_digit ds = true ->
    forallb is_digit_or_comma (group3 ds) = true /\
    filter (fun x => negb (Ascii.eqb "," x)) (group3 ds) = ds.
Proof.
  induction n as [|n IH]; intros ds L D.
  - destruct ds; [auto|simpl in L; lia].
  - destruct ds as [|a [|b [|c [|d rest]]]];
      try (split;
           [ apply forallb_forall; intros x I;
             apply digit_is_digit_or_comma;
             revert x I; now apply forallb_forall
           | apply filter_id, forallb_forall; intros x I;
             assert (X : is_digit x = true)
               by (revert x I; now apply forallb_forall);
             revert X; clear; ascii_cases x ]).
    change (group3 (a :: b :: c :: d :: rest))
      with (a :: b :: c :: ","%char :: group3 (d :: rest)).
    cbn [forallb] in D.
    apply andb_prop in D. destruct D as [Da D].
    apply andb_prop in D. destruct D as [Db D].
    apply andb_prop in D. destruct D as [Dc D].
    destruct (IH (d :: rest)) as [G F]; [simpl in *; lia|exact D|].
    split.
    + cbn [forallb]. rewrite G, !digit_is_digit_or_comma by assumption.
      reflexivity.
    + assert (N : forall x, is_digit x = true ->
                            negb (Ascii.eqb "," x) = true)
        by (clear; intros x; ascii_cases x).
      rewrite <- F at 2. cbn [filter]. rewrite !N by assumption.
      reflexivity.
Qed.

Lemma filter_rev {A} (p : A -> bool) l : filter p (rev l) = rev (filter p l).
Proof.
  induction l as [|x l IH]; simpl; trivial.
  rewrite filter_app, IH. simpl. destruct (p x); simpl; trivial.
  now rewrite app_nil_r.
Qed.

Lemma group_thousands_spec ds :
  ds <> [] ->
  forallb is_digit ds = true ->
  group_thousands ds <> [] /\
  forallb is_digit_or_comma (group_thousands ds) = true /\
  remove_all comma (group_thousands ds) = ds.
Proof.
  intros N D. unfold group_thousands.
  assert (D' : forallb is_digit (rev ds) = true) by now rewrite forallb_rev.
  destruct (group3_spec (List.length (rev ds)) (rev ds) (le_n _) D') as [G F].
  assert (R : remove_all comma (rev (group3 (rev ds))) = ds).
  { unfold comma. rewrite remove_all_single, filter_rev, F.
    apply rev_involutive. }
  split; [|split].
  - intros E. rewrite E in R. change ([] = ds) in R. congruence.
  - now rewrite forallb_rev.
  - exact R.
Qed.

(** *** [strip] on text without surrounding white space *)

Lemma lstrip_first_ok s : first_ok s = true -> lstrip s = s.
Proof.
  destruct s as [|c s]; simpl; [discriminate|].
  intros H. apply negb_true_iff in H. now rewrite H.
Qed.

Lemma strip_clean s : clean s = true -> strip s = s.
Proof.
  unfold clean, strip, rstrip. intros H. apply andb_prop in H.
  destruct H as [H1 H2].
  rewrite (lstrip_first_ok s H1), (lstrip_first_ok _ H2).
  apply rev_involutive.
Qed.

Lemma c_space_is_space c : is_c_space c = true -> is_space c = true.
Proof. ascii_cases c. Qed.

Lemma lstrip_c_first_ok s : first_ok s = true -> lstrip_c s = s.
Proof.
  destruct s as [|c s]; simpl; [discriminate|].
  intros H. apply negb_true_iff in H.
  destruct (is_c_space c) eqn:C; trivial.
  apply c_space_is_space in C. congruence.
Qed.

Lemma strip_c_clean s : clean s = true -> strip_c s = s.
Proof.
  unfold clean, strip_c. intros H. apply andb_prop in H.
  destruct H as [H1 H2].
  rewrite (lstrip_c_first_ok s H1), (lstrip_c_first_ok _ H2).
  apply rev_involutive.
Qed.

Lemma first_ok_rev_app a b :
  b <> [] -> first_ok (rev (a ++ b)) = first_ok (rev b).
Proof.
  intros N. rewrite rev_app_distr.
  destruct (rev b) as [|c r] eqn:E; trivial.
  apply (f_equal (@rev ascii)) in E. rewrite rev_involutive in E.
  simpl in E. congruence.
Qed.

Lemma first_ok_rev_digits ds :
  ds <> [] -> forallb is_digit ds = true -> first_ok (rev ds) = true.
Proof.
  intros N D. rewrite <- forallb_rev in D.
  destruct (rev ds) as [|c r] eqn:E.
  - apply (f_equal (@rev ascii)) in E. rewrite rev_involutive in E.
    simpl in E. congruence.
  - simpl in *. apply andb_prop in D. destruct D as [D _].
    now rewrite (digit_not_space c D).
Qed.

(** *** [float] on a decimal literal *)

Lemma span_digits_app ds rest :
  forallb is_digit ds = true -> stops is_digit rest = true ->
  span_digits (ds ++ rest) = (ds, rest).
Proof.
  intros D S. induction ds as [|c ds IH]; cbn [app span_digits forallb] in *.
  - destruct rest as [|c rest]; trivial. cbn [stops span_digits] in *.
    apply negb_true_iff in S. now rewrite S.
  - apply andb_prop in D. destruct D as [-> D]. now rewrite IH.
Qed.

Lemma py_float_decimal neg ds dd :
  ds <> [] -> dd <> [] ->
  forallb is_digit ds = true -> forallb is_digit dd = true ->
  py_float (minus_if neg ++ ds ++ "."%char :: dd)
  = Some (signed_if neg (digits_value (ds ++ dd)) # pow10 (List.length dd)).
Proof.
  intros Nds Ndd Dds Ddd. unfold py_float.
  assert (S : span_digits (ds ++ "."%char :: dd) = (ds, "."%char :: dd))
    by now apply span_digits_app.
  assert (L : first_ok (rev (minus_if neg ++ ds ++ "."%char :: dd)) = true).
  { rewrite app_assoc.
    rewrite first_ok_rev_app by discriminate.
    change ("."%char :: dd) with (["."%char] ++ dd).
    rewrite first_ok_rev_app by assumption.
    now apply first_ok_rev_digits. }
  destruct ds as [|c ds]; [congruence|].
  assert (Dc : is_digit c = true).
  { simpl in Dds. now apply andb_prop in Dds. }
  rewrite strip_c_clean.
  - destruct neg; cbn [minus_if app signed_if].
    + change (char_is "-" "-") with true. cbv iota.
      cbn [app] in S. rewrite S.
      change (char_is "." ".") with true. rewrite Ddd. reflexivity.
    + assert (M : char_is "-" c = false) by (revert Dc; clear; ascii_cases c).
      assert (P : char_is "+" c = false) by (revert Dc; clear; ascii_cases c).
      rewrite M, P. cbn [app] in S. rewrite S.
      change (char_is "." ".") with true. rewrite Ddd. reflexivity.
  - unfold clean. rewrite L, andb_true_r.
    destruct neg; cbn [minus_if app first_ok]; trivial.
    now rewrite (digit_not_space c Dc).
Qed.

(** *** Rounding to hundredths *)

Lemma round_half_even_nonneg q : 0 <= Qnum q -> 0 <= round_half_even q.
Proof.
  intros H. unfold round_half_even.
  assert (D : 0 <= Qnum q / Z.pos (Qden q)) by (apply Z.div_pos; lia).
  destruct (2 * (Qnum q mod Z.pos (Qden q)) ?= Z.pos (Qden q));
    [destruct (Z.even _)|..]; lia.
Qed.

Lemma cents_nonneg v : 0 <= cents v.
Proof.
  apply round_half_even_nonneg. destruct v as [n d]. simpl. lia.
Qed.

(** An amount that is a whole number of hundredths is rendered exactly. *)
Lemma round2_hundredths z : round2 (z # 100) = z # 100.
Proof.
  unfold round2, cents, round_half_even. simpl Qnum. simpl Qden.
  change (Z.pos (100 * 1)) with 100.
  rewrite Z.mod_mul, Z.div_mul by lia. simpl.
  destruct (z <? 0) eqn:E; f_equal; [apply Z.ltb_lt in E|apply Z.ltb_ge in E];
    lia.
Qed.

(** *** What [format_2f] writes *)

Lemma format_2f_parts v :
  exists G d1 d2,
    format_2f v = minus_if (Qnum v <? 0) ++ G ++ ["."%char; d1; d2] /\
    G <> [] /\ forallb is_digit_or_comma G = true /\
    is_digit d1 = true /\ is_digit d2 = true /\
    remove_all comma G <> [] /\
    forallb is_digit (remove_all comma G) = true /\
    digits_value (remove_all comma G ++ [d1; d2]) = cents v.
Proof.
  pose proof (cents_nonneg v) as C.
  assert (Q : 0 <= cents v / 100) by (apply Z.div_pos; lia).
  assert (R : 0 <= cents v mod 100 < 100) by (apply Z.mod_pos_bound; lia).
  destruct (digits_of_spec _ Q) as (N & D & V).
  destruct (group_thousands_spec _ N D) as (GN & GD & GR).
  destruct (two_digits_spec _ R) as (TD & TV).
  exists (group_thousands (digits_of (cents v / 100))),
         (digit_char (cents v mod 100 / 10)),
         (digit_char ((cents v mod 100) mod 10)).
  split; [reflexivity|]. rewrite GR.
  cbn [two_digits forallb] in TD.
  apply andb_prop in TD. destruct TD as [T1 T2].
  apply andb_prop in T2. destruct T2 as [T2 _].
  repeat split; trivial.
  specialize (TV (digits_of (cents v / 100))). unfold two_digits in TV.
  rewrite TV, V. pose proof (Z.div_mod (cents v) 100 ltac:(lia)). lia.
Qed.

Lemma forallb_impl {A} (p q : A -> bool) l :
  (forall x, p x = true -> q x = true) ->
  forallb p l = true -> forallb q l = true.
Proof.
  intros I H. apply forallb_forall. intros x X. apply I.
  revert x X. now apply forallb_forall.
Qed.

Lemma format_2f_chars v : forallb amount_char (format_2f v) = true.
Proof.
  destruct (format_2f_parts v) as (G & d1 & d2 & -> & _ & GD & D1 & D2 & _).
  rewrite !forallb_app. cbn [forallb].
  rewrite (forallb_impl is_digit_or_comma amount_char G) by
    (trivial; intros x; unfold amount_char; now intros ->).
  unfold amount_char at 2 3 4. unfold is_digit_or_comma.
  rewrite D1, D2.
  destruct (Qnum v <? 0); reflexivity.
Qed.

Lemma amount_chars_no_char x s :
  amount_char x = false -> forallb amount_char s = true -> no_char x s = true.
Proof.
  intros X. apply forallb_impl. intros c C.
  destruct (Ascii.eqb x c) eqn:E; trivial.
  apply Ascii.eqb_eq in E. congruence.
Qed.

Lemma remove_comma_amount v :
  exists ds dd,
    remove_all comma (format_2f v)
    = minus_if (Qnum v <? 0) ++ ds ++ "."%char :: dd
    /\ ds <> [] /\ dd <> [] /\
    forallb is_digit ds = true /\ forallb is_digit dd = true /\
    List.length dd = 2%nat /\ digits_value (ds ++ dd) = cents v.
Proof.
  destruct (format_2f_parts v)
    as (G & d1 & d2 & E & _ & _ & D1 & D2 & N & D & V).
  exists (remove_all comma G), [d1; d2].
  split.
  - rewrite E. unfold comma. rewrite !remove_all_single, !filter_app.
    f_equal; [now destruct (Qnum v <? 0)|]. f_equal.
    cbn [filter].
    assert (K : forall x, is_digit x = true -> negb (Ascii.eqb "," x) = true)
      by (clear; intros x; ascii_cases x).
    rewrite (K _ D1), (K _ D2). reflexivity.
  - cbn [forallb]. rewrite D1, D2. repeat split; trivial; discriminate.
Qed.

(** Python reads a rendered amount back as the amount rounded to two
    decimals. *)
Lemma py_float_format_2f v :
  py_float (remove_all comma (format_2f v)) = Some (round2 v).
Proof.
  destruct (remove_comma_amount v)
    as (ds & dd & -> & N1 & N2 & D1 & D2 & L & V).
  rewrite py_float_decimal by assumption.
  rewrite V, L. unfold round2, signed_if. reflexivity.
Qed.

Lemma remove_all_comma_chars s :
  forallb amount_char s = true ->
  forallb amount_char (remove_all comma s) = true.
Proof.
  intros H. unfold comma. rewrite remove_all_single.
  apply forallb_forall. intros x X. apply filter_In in X.
  destruct X as [X _]. revert x X. now apply forallb_forall.
Qed.

(** The conversion of the two amount groups of an item line. *)
Lemma float_of_group_format_2f v :
  float_of_group (format_2f v) = Some (round2 v).
Proof.
  unfold float_of_group.
  pose proof (remove_all_comma_chars _ (format_2f_chars v)) as C.
  unfold dollar at 1. rewrite remove_all_absent
    by (apply amount_chars_no_char; trivial).
  unfold peso at 1. rewrite remove_all_absent
    by (apply amount_chars_no_char; trivial).
  apply py_float_format_2f.
Qed.

Lemma first_ok_rev_format_2f v : first_ok (rev (format_2f v)) = true.
Proof.
  destruct (format_2f_parts v) as (G & d1 & d2 & -> & _ & _ & _ & D2 & _).
  rewrite app_assoc. change ["."%char; d1; d2] with (["."%char; d1] ++ [d2]).
  rewrite app_assoc, rev_app_distr. simpl.
  now rewrite (digit_not_space _ D2).
Qed.

(** The conversion of a line of the totals block: the word before the
    colon, a space and the rendered amount. *)
Lemma scalar_of_rendered word v :
  no_char ":" word = true ->
  scalar_of (word ++ bytes ": " ++ format_currency v) = Some (round2 v).
Proof.
  intros W. unfold scalar_of.
  assert (A : after_colon (word ++ bytes ": " ++ format_currency v)
              = " "%char :: format_currency v).
  { induction word as [|c word IH]; [reflexivity|].
    cbn [no_char forallb] in W. apply andb_prop in W. destruct W as [W1 W2].
    cbn [app after_colon]. unfold char_is.
    apply negb_true_iff in W1. rewrite W1. now apply IH. }
  rewrite A.
  assert (S : strip (" "%char :: format_currency v) = format_currency v).
  { unfold strip. change (lstrip (" "%char :: format_currency v))
      with (lstrip (format_currency v)).
    apply strip_clean. unfold clean, format_currency.
    rewrite first_ok_rev_app, first_ok_rev_format_2f; [reflexivity|].
    destruct (format_2f_parts v) as (G & d1 & d2 & -> & _).
    now destruct (minus_if (Qnum v <? 0)), G. }
  rewrite S. unfold format_currency.
  unfold dollar at 1. rewrite remove_all_absent.
  - rewrite remove_all_peso_prefix.
    unfold peso at 1. rewrite remove_all_absent
      by (apply amount_chars_no_char; [reflexivity|apply format_2f_chars]).
    apply py_float_format_2f.
  - unfold no_char. rewrite forallb_app.
    change (forallb _ peso) with true. cbn [andb].
    apply (amount_chars_no_char "$"); [reflexivity|apply format_2f_chars].
Qed.





(** ** The backtracking matcher

    Each lemma lets a match proceed by one node of the expression: when
    the rest of the expression matches the rest of the text after the
    first choice of the node, that match is the result. *)

Lemma pushes_closed u cl : pushes u (mkCapt cl None) = mkCapt cl None.
Proof. induction u as [|c u IH]; trivial. Qed.

Lemma pushes_opened u cl g :
  pushes u (mkCapt cl (Some g)) = mkCapt cl (Some (rev u ++ g)).
Proof.
  revert g. induction u as [|c u IH]; intros g; trivial.
  cbn [pushes fold_left]. unfold push at 2. cbn [opened closed].
  change (fold_left (fun s c0 => push c0 s) u (mkCapt cl (Some (c :: g))))
    with (pushes u (mkCapt cl (Some (c :: g)))).
  rewrite IH. cbn [rev]. now rewrite <- app_assoc.
Qed.

Section Engine.

Variable p : ascii -> bool.
Variable k : cont.

Lemma star_first u : forall st s r,
  forallb p u = true -> stops p s = true ->
  k (pushes u st) s = Some r ->
  star p k st (u ++ s) = Some r.
Proof.
  induction u as [|c u IH]; intros st s r U S K.
  - cbn [app pushes fold_left] in *. destruct s as [|c s]; trivial.
    cbn [stops star] in *. apply negb_true_iff in S. now rewrite S.
  - cbn [forallb] in U. apply andb_prop in U. destruct U as [C U].
    cbn [app star]. rewrite C. now rewrite (IH (push c st) s r).
Qed.

Lemma lazy_star_first u : forall st s r,
  forallb p u = true ->
  (forall u1 u2, u = u1 ++ u2 -> u2 <> [] ->
                 k (pushes u1 st) (u2 ++ s) = None) ->
  k (pushes u st) s = Some r ->
  lazy_star p k st (u ++ s) = Some r.
Proof.
  induction u as [|c u IH]; intros st s r U F K.
  - cbn [app pushes fold_left] in *. destruct s; cbn [lazy_star]; now rewrite K.
  - cbn [forallb] in U. apply andb_prop in U. destruct U as [C U].
    cbn [app lazy_star].
    pose proof (F [] (c :: u) eq_refl ltac:(discriminate)) as F0.
    cbn [pushes fold_left app] in F0. rewrite F0, C. cbn [or_else].
    apply IH; trivial.
    intros u1 u2 E N. apply (F (c :: u1) u2); trivial. now rewrite E.
Qed.

(** No repetition of [p] is followed by a match of [k]. *)
Lemma star_none : forall s st,
  (forall u v st', s = u ++ v -> k st' v = None) ->
  star p k st s = None.
Proof.
  induction s as [|c s IH]; intros st F.
  - cbn [star]. now apply (F [] []).
  - cbn [star]. rewrite (F [] (c :: s) st eq_refl).
    destruct (p c); trivial.
    rewrite IH; trivial.
    intros u v st' E. apply (F (c :: u) v). now rewrite E.
Qed.

End Engine.

Lemma run_one re p c st s r :
  p c = true -> run re (push c st) s = Some r ->
  run (Chars p One :: re) st (c :: s) = Some r.
Proof. intros P K. cbn [run one]. now rewrite P. Qed.

Lemma run_opt re p c st s r :
  p c = true -> run re (push c st) s = Some r ->
  run (Chars p Opt :: re) st (c :: s) = Some r.
Proof. intros P K. cbn [run one]. now rewrite P, K. Qed.

Lemma run_star re p u st s r :
  forallb p u = true -> stops p s = true ->
  run re (pushes u st) s = Some r ->
  run (Chars p Star :: re) st (u ++ s) = Some r.
Proof. intros U S K. cbn [run]. now apply star_first. Qed.

Lemma run_plus re p u st s r :
  u <> [] -> forallb p u = true -> stops p s = true ->
  run re (pushes u st) s = Some r ->
  run (Chars p Plus :: re) st (u ++ s) = Some r.
Proof.
  intros N U S K. destruct u as [|c u]; [congruence|].
  cbn [forallb] in U. apply andb_prop in U. destruct U as [C U].
  cbn [run one app]. rewrite C. now apply star_first.
Qed.

Lemma run_peso re st s r :
  run re (pushes peso st) s = Some r ->
  run (OptLit [dollar; peso] :: re) st (peso ++ s) = Some r.
Proof.
  intros K. cbn [run opt_lit].
  change (strip_prefix dollar (peso ++ s)) with (@None text).
  change (strip_prefix peso (peso ++ s)) with (Some s). cbv iota beta.
  now rewrite K.
Qed.

(** A group that is one greedy repetition. *)
Lemma run_group_plus re p u cl s r :
  u <> [] -> forallb p u = true -> stops p s = true ->
  run re (mkCapt (u :: cl) None) s = Some r ->
  run (GroupStart :: Chars p Plus :: GroupEnd :: re) (mkCapt cl None) (u ++ s)
  = Some r.
Proof.
  intros N U S K.
  change (run (GroupStart :: Chars p Plus :: GroupEnd :: re) (mkCapt cl None)
              (u ++ s))
    with (run (Chars p Plus :: GroupEnd :: re) (mkCapt cl (Some [])) (u ++ s)).
  apply run_plus; trivial.
  rewrite pushes_opened.
  change (run (GroupEnd :: re) (mkCapt cl (Some (rev u ++ []))) s)
    with (run re (mkCapt (rev (rev u ++ []) :: cl) None) s).
  now rewrite app_nil_r, rev_involutive.
Qed.

(** A group that is one lazy repetition. *)
Lemma run_group_lazy re p u cl s r :
  forallb p u = true ->
  (forall u1 u2 st, u = u1 ++ u2 -> u2 <> [] -> run re st (u2 ++ s) = None) ->
  run re (mkCapt (u :: cl) None) s = Some r ->
  run (GroupStart :: Chars p LazyStar :: GroupEnd :: re) (mkCapt cl None)
      (u ++ s) = Some r.
Proof.
  intros U F K.
  change (run (GroupStart :: Chars p LazyStar :: GroupEnd :: re)
              (mkCapt cl None) (u ++ s))
    with (lazy_star p (run (GroupEnd :: re)) (mkCapt cl (Some [])) (u ++ s)).
  apply lazy_star_first; trivial.
  - intros u1 u2 E N. cbn [run]. now apply (F u1 u2).
  - rewrite pushes_opened. cbn [run]. unfold group_end. cbn [opened closed].
    now rewrite app_nil_r, rev_involutive.
Qed.

(** ** Item lines *)

(** After white space, [\(] needs the parenthesis. *)
Lemma star_space_paren_none k : forall t st,
  paren_next t = false ->
  star is_space (one (char_is "(") k) st t = None.
Proof.
  induction t as [|c t IH]; intros st H; [reflexivity|].
  cbn [star]. unfold paren_next in H. cbn [lstrip] in H.
  destruct (is_space c) eqn:S.
  - rewrite (IH _ H). cbn [or_else one].
    assert (P : char_is "(" c = false) by (revert S; clear; ascii_cases c).
    now rewrite P.
  - cbn [one]. now rewrite H.
Qed.

Lemma first_ok_rev_cons c u :
  is_space c = true -> first_ok (rev (c :: u)) = true ->
  first_ok (rev u) = true.
Proof.
  intros S H. destruct u as [|d u].
  - simpl in H. rewrite S in H. discriminate.
  - change (c :: d :: u) with ([c] ++ d :: u) in H.
    now rewrite first_ok_rev_app in H by discriminate.
Qed.

Lemma paren_next_app u s :
  first_ok (rev u) = true -> no_char "(" u = true ->
  paren_next (u ++ s) = false.
Proof.
  induction u as [|c u IH]; intros L N; [discriminate|].
  cbn [no_char forallb] in N. apply andb_prop in N. destruct N as [N1 N2].
  unfold paren_next. cbn [app lstrip].
  destruct (is_space c) eqn:S.
  - apply IH; trivial. now apply (first_ok_rev_cons c).
  - unfold char_is. now apply negb_true_iff.
Qed.

(** The rest of a name, up to the parenthesis that opens the code, is no
    match of [\s+\(]. *)
Lemma name_rest_no_match re u s st :
  first_ok (rev u) = true -> no_char "(" u = true ->
  run (Chars is_space Plus :: Chars (char_is "(") One :: re) st (u ++ s)
  = None.
Proof.
  intros L N. destruct u as [|c u]; [discriminate|].
  cbn [run app one]. destruct (is_space c) eqn:S; trivial.
  apply star_space_paren_none.
  cbn [no_char forallb] in N. apply andb_prop in N. destruct N as [_ N].
  apply paren_next_app; trivial. now apply (first_ok_rev_cons c).
Qed.

(** An amount as [format_2f] writes it, after the peso sign. *)
Lemma run_amount re cl G d1 d2 s r :
  G <> [] -> forallb is_digit_or_comma G = true ->
  is_digit d1 = true -> is_digit d2 = true ->
  stops is_digit s = true ->
  run re (mkCapt ((G ++ ["."; d1; d2]%char) :: cl) None) s = Some r ->
  run (amount_re ++ re) (mkCapt cl None)
      (peso ++ (G ++ ["."; d1; d2]%char) ++ s) = Some r.
Proof.
  intros N GD D1 D2 S K.
  unfold amount_re. cbn [app].
  apply run_peso. rewrite pushes_closed.
  change (run (GroupStart :: ?x) (mkCapt cl None) ?t)
    with (run x (mkCapt cl (Some [])) t).
  rewrite <- !app_assoc.
  apply run_plus; trivial. rewrite pushes_opened, app_nil_r.
  cbn [app].
  apply run_opt; [reflexivity|].
  change (d1 :: d2 :: s) with ([d1; d2] ++ s).
  apply run_star; [cbn [forallb]; now rewrite D1, D2|trivial|].
  unfold push. cbn [opened closed]. rewrite pushes_opened.
  cbn [run]. unfold group_end. cbn [opened closed].
  rewrite !rev_app_distr. cbn [rev app]. rewrite rev_involutive.
  rewrite <- K. f_equal. f_equal. f_equal.
  rewrite <- !app_assoc. reflexivity.
Qed.

Lemma stops_first_ok u s : first_ok u = true -> stops is_space (u ++ s) = true.
Proof. destruct u; [discriminate|trivial]. Qed.

Lemma re_match_item_text D name code G1 a1 b1 G2 a2 b2 :
  D <> [] -> forallb is_digit D = true ->
  clean name = true -> no_char "(" name = true ->
  no_char newline name = true ->
  code <> [] -> no_char ")" code = true ->
  G1 <> [] -> forallb is_digit_or_comma G1 = true ->
  is_digit a1 = true -> is_digit b1 = true ->
  G2 <> [] -> forallb is_digit_or_comma G2 = true ->
  is_digit a2 = true -> is_digit b2 = true ->
  re_match item_re
    (item_text D name code (G1 ++ ["."; a1; b1]%char)
               (G2 ++ ["."; a2; b2]%char))
  = Some [D; name; code; G1 ++ ["."; a1; b1]%char; G2 ++ ["."; a2; b2]%char].
Proof.
  intros ND DD CN PN NN NC PC NG1 DG1 Da1 Db1 NG2 DG2 Da2 Db2.
  unfold clean in CN. apply andb_prop in CN. destruct CN as [FN LN].
  unfold re_match.
  set (A1 := G1 ++ ["."; a1; b1]%char).
  set (A2 := G2 ++ ["."; a2; b2]%char).
  assert (R : run item_re (mkCapt [] None) (item_text D name code A1 A2)
              = Some (mkCapt [A2; A1; code; name; D] None));
    [|now rewrite R].
  unfold item_re, item_text. cbn [app].
  apply run_group_plus; trivial.
  change (bytes " x " ++ ?t) with ([" "%char] ++ "x"%char :: [" "%char] ++ t).
  apply run_plus; [discriminate|reflexivity|reflexivity|].
  rewrite pushes_closed.
  apply run_one; [reflexivity|]. unfold push; cbn [opened].
  apply run_plus;
    [discriminate|reflexivity|now apply stops_first_ok|].
  rewrite pushes_closed.
  apply run_group_lazy.
  - exact NN.
  - intros u1 u2 st E N.
    assert (L2 : first_ok (rev u2) = true).
    { rewrite E in LN. now rewrite first_ok_rev_app in LN. }
    assert (P2 : no_char "(" u2 = true).
    { rewrite E in PN. unfold no_char in *. rewrite forallb_app in PN.
      now apply andb_prop in PN. }
    now apply name_rest_no_match.
  - change (bytes " (" ++ ?t) with ([" "%char] ++ "("%char :: t).
    apply run_plus; [discriminate|reflexivity|reflexivity|].
    rewrite pushes_closed.
    apply run_one; [reflexivity|]. unfold push; cbn [opened].
    apply run_group_plus; trivial.
    change (bytes ") @ " ++ ?t)
      with (")"%char :: [" "%char] ++ "@"%char :: [" "%char] ++ t).
    apply run_one; [reflexivity|]. unfold push; cbn [opened].
    apply run_plus; [discriminate|reflexivity|reflexivity|].
    rewrite pushes_closed.
    apply run_one; [reflexivity|]. unfold push; cbn [opened].
    apply run_star; [reflexivity|reflexivity|].
    rewrite pushes_closed.
    apply run_amount; trivial.
    change (bytes " = " ++ ?t) with ([" "%char] ++ "="%char :: [" "%char] ++ t).
    apply run_star; [reflexivity|reflexivity|].
    rewrite pushes_closed.
    apply run_one; [reflexivity|]. unfold push; cbn [opened].
    apply run_star; [reflexivity|reflexivity|].
    rewrite pushes_closed.
    rewrite <- (app_nil_r amount_re).
    rewrite <- (app_nil_r A2) at 1.
    apply run_amount; trivial; reflexivity.
Qed.

(** *** Lines that are no item lines *)

Lemma re_match_item_no_digit s :
  stops is_digit s = true -> re_match item_re s = None.
Proof.
  intros H. unfold re_match, item_re. cbn [app].
  destruct s as [|c s]; trivial.
  cbn [stops] in H. apply negb_true_iff in H.
  cbn [run one]. now rewrite H.
Qed.

Lemma re_match_item_no_space s :
  forallb (fun c => negb (is_space c)) s = true ->
  re_match item_re s = None.
Proof.
  intros H. unfold re_match, item_re. cbn [app].
  destruct s as [|c s]; trivial.
  cbn [run one].
  destruct (is_digit c); trivial.
  rewrite star_none; trivial.
  intros u v st' E.
  destruct v as [|d v]; trivial. cbn [run one].
  assert (I : In d (c :: s)).
  { right. rewrite E. apply in_or_app. right. now left. }
  pose proof (proj1 (forallb_forall _ _) H d I) as X.
  apply negb_true_iff in X. now rewrite X.
Qed.

(** ** Ledger store *)

Lemma store_items_orders db oid items :
  orders (store_items db oid items) = orders db.
Proof.
  unfold store_items. revert db.
  induction items as [|it items IH]; intros db; simpl; trivial.
  now rewrite IH.
Qed.

Lemma store_items_sales db oid items :
  sales (store_items db oid items) = sales db.
Proof.
  unfold store_items. revert db.
  induction items as [|it items IH]; intros db; simpl; trivial.
  now rewrite IH.
Qed.

Lemma store_items_rows db oid items :
  exists rows,
    order_items (store_items db oid items) = order_items db ++ rows /\
    map line_of_row rows = items /\
    Forall (fun r => i_order_id r = oid) rows.
Proof.
  unfold store_items. revert db.
  induction items as [|it items IH]; intros db; simpl.
  - exists []. rewrite app_nil_r. auto.
  - destruct (IH (store_item db oid it)) as (rows & E & M & F).
    eexists (_ :: rows). rewrite E. simpl. rewrite <- app_assoc. simpl.
    split; [reflexivity|]. split.
    + rewrite M. now destruct it.
    + constructor; trivial.
Qed.

(** The loop over the lines stores every line or, at the first quantity
    that does not fit, raises OverflowError. *)
Lemma insert_items_cases db oid items :
  insert_items db oid items
  = if quantities_fit items then Ok (store_items db oid items)
    else Raise OverflowError.
Proof.
  revert db. induction items as [|it items IH]; intros db; [reflexivity|].
  cbn [insert_items quantities_fit forallb]. unfold insert_item.
  destruct (fits_int64 (l_qty it)); [|reflexivity].
  cbn [andb]. rewrite IH. reflexivity.
Qed.

Lemma insert_items_fit db oid items :
  quantities_fit items = true ->
  insert_items db oid items = Ok (store_items db oid items).
Proof. intros H. now rewrite insert_items_cases, H. Qed.

Lemma insert_items_overflow db oid items :
  quantities_fit items = false ->
  insert_items db oid items = Raise OverflowError.
Proof. intros H. now rewrite insert_items_cases, H. Qed.

Lemma try_increment_sales_ledger w db items :
  orders (try_increment_sales w db items) = orders db /\
  order_items (try_increment_sales w db items) = order_items db.
Proof.
  unfold try_increment_sales, _increment_sales.
  destruct (txn_raises w); simpl; auto.
Qed.

Lemma count_receipt_app k os os' :
  count_receipt k (os ++ os') = (count_receipt k os + count_receipt k os')%nat.
Proof. unfold count_receipt. now rewrite filter_app, length_app. Qed.

Lemma existsb_count_receipt k os :
  existsb (holds_key k) os = false <-> count_receipt k os = 0%nat.
Proof.
  unfold count_receipt. induction os as [|o os IH]; simpl.
  - tauto.
  - destruct (holds_key k o); simpl.
    + split; discriminate.
    + exact IH.
Qed.

Lemma find_holds_key k os :
  existsb (holds_key k) os = true ->
  exists o, find (holds_key k) os = Some o /\ In o os /\ holds_key k o = true.
Proof.
  induction os as [|o os IH]; simpl; [discriminate|].
  destruct (holds_key k o) eqn:E; simpl.
  - intros _. exists o. auto.
  - intros H. destruct (IH H) as (o' & F & I & K). exists o'. auto.
Qed.

Lemma find_holds_key_app_new k os o :
  existsb (holds_key k) os = false -> holds_key k o = true ->
  find (holds_key k) (os ++ [o]) = Some o.
Proof.
  induction os as [|o' os IH]; simpl; intros H K.
  - now rewrite K.
  - destruct (holds_key k o'); [discriminate|]. now apply IH.
Qed.

(** A call whose key some order already holds: the id of that order, no new
    order row, one item row per line. *)
Lemma write_order_existing w db items tot paid chg emp k o :
  k <> [] ->
  quantities_fit items = true ->
  find (holds_key k) (orders db) = Some o ->
  write_order w db items tot paid chg emp (Some k)
  = Ok (store_items db (order_id o) items, order_id o).
Proof.
  intros Hk Q F. unfold write_order, insert_order. simpl.
  assert (E : existsb (holds_key k) (orders db) = true).
  { apply existsb_exists. exists o. apply find_some in F. tauto. }
  rewrite E. destruct k as [|c k]; [congruence|].
  unfold select_order_id. rewrite F. cbn [option_map].
  now rewrite insert_items_fit.
Qed.

(** A call whose key no order holds: a new order row with a fresh id. *)
Lemma write_order_fresh w db items tot paid chg emp k :
  quantities_fit items = true ->
  existsb (holds_key k) (orders db) = false ->
  let oid := next_rowid (seq_orders db) (map order_id (orders db)) in
  write_order w db items tot paid chg emp (Some k)
  = Ok (store_items
          (mkDB (orders db ++
                   [mkOrder oid (now_order w) tot paid chg emp (Some k)])
                (order_items db) (sales db) oid (seq_order_items db))
          oid items, oid).
Proof.
  intros Q E. unfold write_order, insert_order. simpl. rewrite E.
  now rewrite insert_items_fit.
Qed.

(** A quantity that does not fit: the call raises, whatever the key. *)
Lemma write_order_overflow w db items tot paid chg emp key :
  quantities_fit items = false ->
  write_order w db items tot paid chg emp key = Raise IntegrityError \/
  write_order w db items tot paid chg emp key = Raise OverflowError.
Proof.
  intros Q. unfold write_order, insert_order.
  destruct (unique_violation key (orders db)).
  - destruct (if truthy key then _ else _) as [oid|]; auto.
    right. now rewrite insert_items_overflow.
  - right. now rewrite insert_items_overflow.
Qed.

Lemma write_order_fits w db items tot paid chg emp key r :
  write_order w db items tot paid chg emp key = Ok r ->
  quantities_fit items = true.
Proof.
  intros W. destruct (quantities_fit items) eqn:Q; trivial.
  destruct (write_order_overflow w db items tot paid chg emp key Q) as [E|E];
    congruence.
Qed.

Lemma save_order_of_write w db items tot paid chg emp key db2 oid :
  write_order w db items tot paid chg emp key = Ok (db2, oid) ->
  save_order w db items tot paid chg emp key
  = Ok (try_increment_sales w db2 items, oid).
Proof. unfold save_order. now intros ->. Qed.

(** C1 at the failing input: the first call stores the empty string as the
    receipt key and returns order 1; the second call with the same key
    hits the UNIQUE constraint, the empty string is falsy, the lookup the
    comment of [save_order] announces is skipped and the IntegrityError is
    raised again instead of the order id being returned. *)
Lemma save_order_twice_empty_key_raises :
  save_order quiet empty_db [adobo] 130 150 20 None (Some [])
  = Ok (ledger_empty_key, 1) /\
  count_receipt [] (orders ledger_empty_key) = 1%nat /\
  save_order quiet ledger_empty_key [adobo] 130 150 20 None (Some [])
  = Raise IntegrityError.
Proof. repeat split. Qed.

(** The lookup works for every other key: for a non-empty receipt key and
    quantities that fit, two calls of [save_order] with that key, whatever
    the lines and amounts of either call, return the same order id, and
    afterwards exactly one order row holds the key.  The ledger starts in
    a state that respects the UNIQUE constraint. *)
Lemma save_order_twice_nonempty_key :
  forall w1 w2 db items1 tot1 paid1 chg1 emp1 items2 tot2 paid2 chg2 emp2 k,
    k <> [] ->
    quantities_fit items1 = true ->
    quantities_fit items2 = true ->
    (count_receipt k (orders db) <= 1)%nat ->
    exists oid db1 db2,
      save_order w1 db items1 tot1 paid1 chg1 emp1 (Some k) = Ok (db1, oid) /\
      save_order w2 db1 items2 tot2 paid2 chg2 emp2 (Some k) = Ok (db2, oid) /\
      count_receipt k (orders db2) = 1%nat.
Proof.
  intros w1 w2 db items1 tot1 paid1 chg1 emp1 items2 tot2 paid2 chg2 emp2 k
         Hk Q1 Q2 Hu.
  destruct (existsb (holds_key k) (orders db)) eqn:E.
  - destruct (find_holds_key _ _ E) as (o & F & _ & _).
    pose proof (@write_order_existing w1 _ items1 tot1 paid1 chg1 emp1 _ _ Hk
                  Q1 F)
      as W1.
    apply save_order_of_write in W1.
    set (db1 := try_increment_sales w1 (store_items db (order_id o) items1)
                                    items1) in *.
    assert (O1 : orders db1 = orders db).
    { unfold db1.
      rewrite (proj1 (try_increment_sales_ledger _ _ _)).
      apply store_items_orders. }
    assert (F1 : find (holds_key k) (orders db1) = Some o) by now rewrite O1.
    pose proof (@write_order_existing w2 _ items2 tot2 paid2 chg2 emp2 _ _ Hk
                  Q2 F1)
      as W2.
    apply save_order_of_write in W2.
    exists (order_id o), db1. eexists. split; [exact W1|]. split; [exact W2|].
    rewrite (proj1 (try_increment_sales_ledger _ _ _)), store_items_orders, O1.
    assert (count_receipt k (orders db) <> 0%nat).
    { intros Z0. apply existsb_count_receipt in Z0. congruence. }
    lia.
  - pose proof (@write_order_fresh w1 db items1 tot1 paid1 chg1 emp1 k Q1 E)
      as W1.
    cbv zeta in W1. apply save_order_of_write in W1.
    set (oid := next_rowid (seq_orders db) (map order_id (orders db))) in *.
    set (row := mkOrder oid (now_order w1) tot1 paid1 chg1 emp1 (Some k)) in *.
    match type of W1 with _ = Ok (?d, _) => set (db1 := d) in * end.
    assert (O1 : orders db1 = orders db ++ [row]).
    { unfold db1.
      rewrite (proj1 (try_increment_sales_ledger _ _ _)).
      now rewrite store_items_orders. }
    assert (K : holds_key k row = true).
    { unfold holds_key, row. simpl. apply text_eqb_refl. }
    assert (F1 : find (holds_key k) (orders db1) = Some row).
    { rewrite O1. now apply find_holds_key_app_new. }
    pose proof (@write_order_existing w2 _ items2 tot2 paid2 chg2 emp2 _ _ Hk
                  Q2 F1)
      as W2.
    apply save_order_of_write in W2.
    exists oid, db1. eexists. split; [exact W1|]. split; [exact W2|].
    rewrite (proj1 (try_increment_sales_ledger _ _ _)), store_items_orders, O1.
    rewrite count_receipt_app.
    apply existsb_count_receipt in E. rewrite E.
    unfold count_receipt. simpl. now rewrite K.
Qed.

Lemma save_order_twice_nonempty_key_witness :
  exists oid db1 db2,
    save_order quiet empty_db [adobo] 130 150 20 None
               (Some (bytes "receipt_x.txt")) = Ok (db1, oid) /\
    save_order quiet db1 [adobo] 130 150 20 None
               (Some (bytes "receipt_x.txt")) = Ok (db2, oid) /\
    count_receipt (bytes "receipt_x.txt") (orders db2) = 1%nat.
Proof.
  apply (@save_order_twice_nonempty_key quiet quiet empty_db).
  - discriminate.
  - reflexivity.
  - reflexivity.
  - unfold count_receipt. simpl. lia.
Defined.

(** C9 at the failing input: an order holds the empty string as its receipt
    key, the insert hits the UNIQUE constraint, and the call raises
    IntegrityError instead of returning the id of that order; no item row
    is written. *)
Lemma save_order_held_empty_key_raises :
  unique_violation (Some []) (orders ledger_empty_key) = true /\
  select_order_id [] (orders ledger_empty_key) = Some 1 /\
  save_order quiet ledger_empty_key [adobo] 130 150 20 None (Some [])
  = Raise IntegrityError.
Proof. repeat split. Qed.

(** For every other key the lines are appended: when [save_order] is called
    with a non-empty receipt key that an existing order already holds and
    with quantities that fit, it returns the id of that order, adds no
    order row, and appends one [order_items] row per supplied line, each
    attached to the existing order. *)
Lemma save_order_held_key_appends_lines :
  forall w db items tot paid chg emp k o,
    k <> [] ->
    quantities_fit items = true ->
    find (holds_key k) (orders db) = Some o ->
    exists db' rows,
      save_order w db items tot paid chg emp (Some k) = Ok (db', order_id o) /\
      orders db' = orders db /\
      order_items db' = order_items db ++ rows /\
      map line_of_row rows = items /\
      Forall (fun r => i_order_id r = order_id o) rows.
Proof.
  intros w db items tot paid chg emp k o Hk Q F.
  pose proof (@write_order_existing w _ items tot paid chg emp _ _ Hk Q F)
    as W.
  apply save_order_of_write in W.
  destruct (store_items_rows db (order_id o) items) as (rows & E & M & A).
  eexists. exists rows. split; [exact W|].
  destruct (try_increment_sales_ledger w
              (store_items db (order_id o) items) items) as [O I].
  rewrite O, I, store_items_orders. auto.
Qed.

Lemma save_order_held_key_appends_lines_witness :
  exists db' rows,
    save_order quiet ledger_x [adobo; adobo] 260 300 40 None
               (Some (bytes "receipt_x.txt")) = Ok (db', 1) /\
    orders db' = orders ledger_x /\
    order_items db' = order_items ledger_x ++ rows /\
    map line_of_row rows = [adobo; adobo] /\
    Forall (fun r => i_order_id r = 1) rows.
Proof.
  apply (@save_order_held_key_appends_lines quiet ledger_x [adobo; adobo]
           260 300 40 None (bytes "receipt_x.txt")
           (mkOrder 1 (now_order quiet) 130 150 20 None
                    (Some (bytes "receipt_x.txt")))).
  - discriminate.
  - reflexivity.
  - reflexivity.
Defined.

(** ** Failure of the aggregate update *)

(** C7: once the order and its lines are committed, [save_order] returns
    the order id whatever happens in the aggregate update; the [orders] and
    [order_items] tables are the committed ones, and when the update raises
    the whole database is the committed one. *)
Theorem save_order_survives_sales_failure :
  forall w db items tot paid chg emp key db2 oid,
    write_order w db items tot paid chg emp key = Ok (db2, oid) ->
    exists db3,
      save_order w db items tot paid chg emp key = Ok (db3, oid) /\
      orders db3 = orders db2 /\
      order_items db3 = order_items db2 /\
      (forall e, _increment_sales w db2 items (now_sales w) = Raise e ->
                 db3 = db2).
Proof.
  intros w db items tot paid chg emp key db2 oid W.
  exists (try_increment_sales w db2 items).
  split; [now apply save_order_of_write|].
  destruct (try_increment_sales_ledger w db2 items) as [O I].
  repeat split; trivial.
  intros e R. unfold try_increment_sales. now rewrite R.
Qed.

Lemma save_order_survives_sales_failure_witness :
  exists db3,
    save_order failing empty_db [adobo] 130 150 20 None
               (Some (bytes "receipt_x.txt")) = Ok (db3, 1) /\
    orders db3 = orders ledger_x /\
    order_items db3 = order_items ledger_x /\
    (forall e,
        _increment_sales failing
          (mkDB (orders ledger_x) (order_items ledger_x) [] 1 1)
          [adobo] (now_sales failing) = Raise e ->
        db3 = mkDB (orders ledger_x) (order_items ledger_x) [] 1 1).
Proof.
  apply (@save_order_survives_sales_failure failing empty_db [adobo]
           130 150 20 None (Some (bytes "receipt_x.txt"))
           (mkDB (orders ledger_x) (order_items ledger_x) [] 1 1) 1).
  reflexivity.
Defined.

(** ** Rebuilding the aggregates *)

(** What the rebuild does in general: the lines of a code are spread over
    the groups of the code, one per display name, and the aggregate of the
    code is the first of these groups. *)

Lemma key_compare_eq c1 n1 c2 n2 :
  key_compare c1 n1 c2 n2 = Eq -> c1 = c2 /\ n1 = n2.
Proof.
  unfold key_compare. destruct (text_compare c1 c2) eqn:C; try discriminate.
  intros N. apply text_compare_eq in C. apply text_compare_eq in N. auto.
Qed.

Lemma add_to_groups_quantity c r dt gs :
  group_quantity c (add_to_groups r dt gs)
  = group_quantity c gs + (if text_eqb (code r) c then quantity r else 0).
Proof.
  induction gs as [|g gs IH]; cbn [add_to_groups].
  - cbn [group_quantity fold_right g_code qty_sum].
    destruct (text_eqb (code r) c); lia.
  - destruct (key_compare (code r) (name r) (g_code g) (g_name g)) eqn:K.
    + apply key_compare_eq in K. destruct K as [K _].
      cbn [group_quantity fold_right g_code qty_sum]. rewrite K.
      destruct (text_eqb (g_code g) c); lia.
    + cbn [group_quantity fold_right g_code qty_sum].
      destruct (text_eqb (code r) c), (text_eqb (g_code g) c); lia.
    + cbn [group_quantity fold_right]. fold (group_quantity c gs).
      fold (group_quantity c (add_to_groups r dt gs)). rewrite IH.
      destruct (text_eqb (g_code g) c); lia.
Qed.

Lemma add_to_groups_revenue c r dt gs :
  (group_revenue c (add_to_groups r dt gs)
   == group_revenue c gs + (if text_eqb (code r) c then total r else 0))%Q.
Proof.
  induction gs as [|g gs IH]; cbn [add_to_groups].
  - cbn [group_revenue fold_right g_code revenue_sum].
    destruct (text_eqb (code r) c); ring.
  - destruct (key_compare (code r) (name r) (g_code g) (g_name g)) eqn:K.
    + apply key_compare_eq in K. destruct K as [K _].
      cbn [group_revenue fold_right g_code revenue_sum]. rewrite K.
      destruct (text_eqb (g_code g) c); ring.
    + cbn [group_revenue fold_right g_code revenue_sum].
      destruct (text_eqb (code r) c), (text_eqb (g_code g) c); ring.
    + cbn [group_revenue fold_right]. fold (group_revenue c gs).
      fold (group_revenue c (add_to_groups r dt gs)).
      destruct (text_eqb (g_code g) c); rewrite IH; ring.
Qed.

(** Grouping loses nothing: the groups of a code hold the sums of the
    ledger for the code. *)
Lemma groups_hold_ledger c db :
  group_quantity c (group_by_code_name db) = ledger_quantity c db /\
  (group_revenue c (group_by_code_name db) == ledger_revenue c db)%Q.
Proof.
  unfold group_by_code_name, ledger_quantity, ledger_revenue.
  generalize (orders db). intros os.
  assert (G : forall rows gs a b,
             group_quantity c gs = a ->
             (group_revenue c gs == b)%Q ->
             group_quantity c
               (fold_left
                  (fun gs r =>
                     add_to_groups r (order_date_time os (i_order_id r)) gs)
                  rows gs)
             = fold_left
                 (fun a r => if text_eqb (code r) c then a + quantity r else a)
                 rows a /\
             (group_revenue c
                (fold_left
                   (fun gs r =>
                      add_to_groups r (order_date_time os (i_order_id r)) gs)
                   rows gs)
              == fold_left
                   (fun a r =>
                      if text_eqb (code r) c then (a + total r)%Q else a)
                   rows b)%Q).
  { induction rows as [|r rows IH]; intros gs a b A B; [now split|].
    cbn [fold_left]. apply IH.
    - rewrite add_to_groups_quantity, A.
      destruct (text_eqb (code r) c); lia.
    - rewrite add_to_groups_revenue, B.
      destruct (text_eqb (code r) c); ring. }
  apply G; reflexivity.
Qed.

Lemma find_app_none {A} (p : A -> bool) l x :
  find p l = None -> find p (l ++ [x]) = if p x then Some x else None.
Proof.
  induction l as [|y l IH]; cbn [app find]; [reflexivity|].
  destruct (p y); [discriminate|exact IH].
Qed.

Lemma find_app_some {A} (p : A -> bool) l l' y :
  find p l = Some y -> find p (l ++ l') = Some y.
Proof.
  induction l as [|z l IH]; cbn [app find]; [discriminate|].
  destruct (p z); trivial.
Qed.

Lemma sales_has_find c ss :
  sales_has c ss = true <->
  find (fun s => text_eqb (s_code s) c) ss <> None.
Proof.
  unfold sales_has. induction ss as [|s ss IH]; cbn [existsb find].
  - split; [discriminate|congruence].
  - destruct (text_eqb (s_code s) c); cbn [orb]; [|exact IH].
    split; [discriminate|reflexivity].
Qed.

(** The aggregate of a code is its first group; the later groups of the
    code collide with the primary key and are dropped. *)
Lemma rebuild_keeps_first_group c gs : forall ss,
  find (fun s => text_eqb (s_code s) c) (fold_left insert_sales gs ss)
  = match find (fun s => text_eqb (s_code s) c) ss with
    | Some s => Some s
    | None =>
        option_map sales_row_of (find (fun g => text_eqb (g_code g) c) gs)
    end.
Proof.
  induction gs as [|g gs IH]; intros ss; cbn [fold_left find].
  - now destruct (find _ ss).
  - rewrite IH. unfold insert_sales.
    destruct (sales_has (g_code g) ss) eqn:H.
    + destruct (find (fun s => text_eqb (s_code s) c) ss) as [s|] eqn:F;
        trivial.
      destruct (text_eqb (g_code g) c) eqn:E; trivial.
      apply text_eqb_eq in E. rewrite E in H.
      apply sales_has_find in H. congruence.
    + destruct (find (fun s => text_eqb (s_code s) c) ss) as [s|] eqn:F.
      * now rewrite (find_app_some _ _ _ _ F).
      * rewrite find_app_none by exact F. cbn [s_code].
        now destruct (text_eqb (g_code g) c).
Qed.

Lemma update_sales_from_orders_spec c db :
  sales_of c (fst (update_sales_from_orders db))
  = option_map sales_row_of
      (find (fun g => text_eqb (g_code g) c) (group_by_code_name db)) /\
  snd (update_sales_from_orders db) = List.length (group_by_code_name db).
Proof.
  unfold sales_of, update_sales_from_orders. cbn [fst snd sales].
  split; [|reflexivity]. now rewrite rebuild_keeps_first_group.
Qed.

(** With one display name per code the rebuild is exact: the scenario
    ledger holds 2 units and 130 for AR, and so does the aggregate. *)
Example rebuild_single_name :
  ledger_quantity (bytes "AR") ledger_x = 2 /\
  sales_of (bytes "AR") (fst (update_sales_from_orders ledger_x))
  = Some (mkSales (bytes "AR") (bytes "Adobo Rice Bowl") 2 130
                  (Some (bytes "2024-11-04 10:15:00"))) /\
  snd (update_sales_from_orders ledger_x) = distinct_codes ledger_x.
Proof. repeat split. Qed.

(** C2 at the failing input: the ledger holds 3 units and 195 of revenue for
    AR; the rebuild groups by (code, name), the second group collides with
    the primary key of [sales] and is dropped, and the aggregate of AR is
    left with 1 unit and 65. *)
Lemma rebuild_drops_second_name :
  ledger_quantity (bytes "AR") ledger_renamed = 3 /\
  (ledger_revenue (bytes "AR") ledger_renamed == 195)%Q /\
  sales_of (bytes "AR") (fst (update_sales_from_orders ledger_renamed))
  = Some (mkSales (bytes "AR") (bytes "Adobo Bowl") 1 65
                  (Some (bytes "2024-11-04 10:15:00"))) /\
  List.length (sales (fst (update_sales_from_orders ledger_renamed))) = 1%nat.
Proof. repeat split. Qed.

(** C8 at the failing input: one product code in the ledger, two rows
    counted. *)
Lemma rebuild_counts_names_not_codes :
  distinct_codes ledger_renamed = 1%nat /\
  snd (update_sales_from_orders ledger_renamed) = 2%nat.
Proof. split; reflexivity. Qed.

(** ** Receipt importer *)

Lemma import_file_seen w db f :
  seen db f = true -> import_file w db f = (db, Ok false).
Proof.
  unfold seen, import_file. intros H.
  destruct (endswith (bytes ".txt") (lower (f_name f))); simpl in *; trivial.
  now rewrite H.
Qed.

Lemma save_order_fresh_key w db items tot pd chg emp k :
  quantities_fit items = true ->
  count_receipt k (orders db) = 0%nat ->
  let oid := next_rowid (seq_orders db) (map order_id (orders db)) in
  exists db',
    save_order w db items tot pd chg emp (Some k) = Ok (db', oid) /\
    orders db'
    = orders db ++ [mkOrder oid (now_order w) tot pd chg emp (Some k)].
Proof.
  intros Q C oid. apply existsb_count_receipt in C.
  pose proof (@write_order_fresh w db items tot pd chg emp k Q C) as W.
  cbv zeta in W. apply save_order_of_write in W.
  eexists. split; [exact W|].
  rewrite (proj1 (try_increment_sales_ledger _ _ _)).
  now rewrite store_items_orders.
Qed.

(** A quantity that does not fit makes both savers raise. *)
Lemma save_order_overflow w db items tot pd chg emp key :
  quantities_fit items = false ->
  exists e, save_order w db items tot pd chg emp key = Raise e.
Proof.
  intros Q. unfold save_order.
  destruct (write_order_overflow w db items tot pd chg emp key Q) as [E|E];
    rewrite E; eauto.
Qed.

Lemma db_save_receipt_overflow w db items tot pd chg :
  quantities_fit items = false ->
  db_save_receipt w db items tot pd chg = Raise OverflowError.
Proof.
  intros Q. unfold db_save_receipt, insert_order. cbn [unique_violation].
  now rewrite insert_items_overflow.
Qed.

Lemma import_file_unseen w db f :
  seen db f = false ->
  match parse_file f with
  | Skipped => import_file w db f = (db, Ok false)
  | Failed e => import_file w db f = (db, Raise e)
  | Parsed emp items t =>
      if quantities_fit items
      then
        exists db',
          import_file w db f = (db', Ok true) /\
          orders db' =
            orders db ++
              [mkOrder (next_rowid (seq_orders db) (map order_id (orders db)))
                       (now_order w) (total_val t items) (paid_val t items)
                       (change_val t items) emp (Some (f_name f))]
      else import_file w db f = (db, Ok false)
  end.
Proof.
  unfold seen, parse_file, import_file. intros H.
  apply orb_false_iff in H. destruct H as [H1 H2].
  rewrite H1, H2. simpl.
  destruct (f_content f) as [content|]; trivial.
  destruct (parse_items (file_lines content)) as [items|e]; trivial.
  destruct items as [|it items]; [reflexivity|].
  change (is_nil (it :: items)) with false. cbv iota.
  apply Nat.ltb_ge in H2.
  assert (C : count_receipt (f_name f) (orders db) = 0%nat) by lia.
  set (t := find_totals (file_lines content)).
  destruct (quantities_fit (it :: items)) eqn:Q.
  - destruct (@save_order_fresh_key w db (it :: items)
                (total_val t (it :: items)) (paid_val t (it :: items))
                (change_val t (it :: items))
                (parse_employee (file_lines content)) (f_name f) Q C)
      as (db' & S & O).
    exists db'. now rewrite S.
  - destruct (save_order_overflow w db (it :: items)
                (total_val t (it :: items))
                (paid_val t (it :: items)) (change_val t (it :: items))
                (parse_employee (file_lines content)) (Some (f_name f)) Q)
      as (e & ->).
    now rewrite db_save_receipt_overflow.
Qed.




(** *** Lines that are not item lines, and amounts that do not convert *)

Lemma parse_items_ignores L rest :
  re_match item_re L = None -> parse_items (L :: rest) = parse_items rest.
Proof. intros H. simpl. now rewrite H. Qed.

(** The only exception of the item loop: a line matches [item_re] and its
    quantity has too many digits or one of its two amounts is not a
    number. *)
Lemma parse_items_raise_inv lines e :
  parse_items lines = Raise e ->
  e = ValueError /\
  exists L m,
    In L lines /\ re_match item_re L = Some m /\
    (py_int (group m 1) = None \/
     float_of_group (group m 4) = None \/ float_of_group (group m 5) = None).
Proof.
  induction lines as [|L rest IH]; simpl; [discriminate|].
  destruct (re_match item_re L) as [m|] eqn:M.
  - destruct (py_int (group m 1)) as [qty|] eqn:I.
    + destruct (float_of_group (group m 4)) as [p|] eqn:P.
      * destruct (float_of_group (group m 5)) as [t|] eqn:T.
        -- destruct (parse_items rest) as [items|e'] eqn:R; [discriminate|].
           intros H. injection H as ->.
           destruct (IH eq_refl) as (-> & L' & m' & I' & M' & F).
           split; trivial. exists L', m'. auto.
        -- intros H. injection H as <-. split; trivial. exists L, m. auto.
      * intros H. injection H as <-. split; trivial. exists L, m. auto.
    + intros H. injection H as <-. split; trivial. exists L, m. auto.
  - intros H. destruct (IH H) as (-> & L' & m' & I & M' & F).
    split; trivial. exists L', m'. auto.
Qed.

(** C6 at the failing input: the line matches [item_re], its price group is
    [","], [float('')] raises ValueError outside any [try], the importer is
    left with the exception and the file after it is never read. *)
Lemma parse_items_raises_on_comma_price :
  re_match item_re (bytes "1 x Rice (R) @ , = 20.00")
  = Some [bytes "1"; bytes "Rice"; bytes "R"; bytes ","; bytes "20.00"] /\
  parse_items (file_lines receipt_comma_price) = Raise ValueError /\
  import_receipts_from_folder quiet empty_db
    (Some [mkFile (bytes "receipt_a.txt") (Some receipt_comma_price);
           mkFile (bytes "receipt_b.txt") (Some receipt_scenario)])
  = (empty_db, Raise ValueError).
Proof. repeat split; vm_compute; reflexivity. Qed.

(** *** The totals block *)


Section Scan.

Variable lines : list text.




End Scan.

(** A scalar is unset when every line of the block that announces it fails
    to convert. *)
Lemma find_totals_unset lines :
  let block := lastn 10 lines in
  let unset word :=
    forall L, In L block -> startswith word L = true -> scalar_of L = None in
  (unset (bytes "Subtotal:") -> subtotal (find_totals lines) = None) /\
  (unset (bytes "Paid:") -> paid (find_totals lines) = None) /\
  (unset (bytes "Change:") -> change (find_totals lines) = None).
Proof.
  intros block unset. unfold find_totals. fold block.
  assert (G : forall ls t,
             (forall L, In L ls -> In L block) ->
             (unset (bytes "Subtotal:") -> subtotal t = None ->
              subtotal (fold_left scan_total ls t) = None) /\
             (unset (bytes "Paid:") -> paid t = None ->
              paid (fold_left scan_total ls t) = None) /\
             (unset (bytes "Change:") -> change t = None ->
              change (fold_left scan_total ls t) = None)).
  { induction ls as [|L ls IH]; intros t I; [now auto|].
    cbn [fold_left].
    assert (IL : In L block) by (apply I; now left).
    assert (I' : forall L', In L' ls -> In L' block)
      by (intros L' H; apply I; now right).
    destruct (IH (scan_total t L) I') as (IS & IP & IC).
    repeat split; intros U T; [apply IS|apply IP|apply IC]; trivial;
      unfold scan_total;
      pose proof (U L IL) as UL;
      destruct (startswith (bytes "Subtotal:") L);
      destruct (startswith (bytes "Paid:") L);
      destruct (startswith (bytes "Change:") L);
      cbn [subtotal paid change]; auto. }
  destruct (G (rev block) (mkTotals None None None)) as (S & P & C).
  - intros L H. now apply in_rev.
  - repeat split; auto.
Qed.



(** *** Running the importer again *)

Lemma import_file_settled w db f :
  settled db f -> import_file w db f = (db, Ok false).
Proof.
  intros [S|[P|(emp & items & t & P & Q)]].
  - now apply import_file_seen.
  - destruct (seen db f) eqn:S; [now apply import_file_seen|].
    pose proof (import_file_unseen w db f S) as I. now rewrite P in I.
  - destruct (seen db f) eqn:S; [now apply import_file_seen|].
    pose proof (import_file_unseen w db f S) as I. now rewrite P, Q in I.
Qed.

Lemma seen_grows db db' f l :
  orders db' = orders db ++ l -> seen db f = true -> seen db' f = true.
Proof.
  unfold seen. intros O H. apply orb_true_iff in H. apply orb_true_iff.
  destruct H as [H|H]; [now left|right].
  apply Nat.ltb_lt in H. apply Nat.ltb_lt.
  rewrite O, count_receipt_app. lia.
Qed.

Lemma settled_grows db db' f l :
  orders db' = orders db ++ l -> settled db f -> settled db' f.
Proof.
  intros O [S|P]; [left|now right]. eapply seen_grows; eauto.
Qed.

(** The three ways a turn of the loop ends. *)
Lemma import_file_cases w db f :
  (import_file w db f = (db, Ok false) /\ settled db f) \/
  (exists e, import_file w db f = (db, Raise e) /\
             seen db f = false /\ parse_file f = Failed e) \/
  (exists db' row, import_file w db f = (db', Ok true) /\
                   orders db' = orders db ++ [row] /\
                   seen db' f = true).
Proof.
  destruct (seen db f) eqn:S.
  - left. split; [now apply import_file_seen|now left].
  - pose proof (import_file_unseen w db f S) as I.
    destruct (parse_file f) as [|e|emp items t] eqn:P.
    + left. split; trivial. right. now left.
    + right. left. exists e. auto.
    + destruct (quantities_fit items) eqn:Q.
      2:{ left. split; trivial. right. right. now exists emp, items, t. }
      right. right. destruct I as (db' & I & O).
      exists db'. eexists. split; [exact I|]. split; [exact O|].
      unfold seen. apply orb_true_iff. right. apply Nat.ltb_lt.
      rewrite O, count_receipt_app. unfold count_receipt at 2. simpl.
      unfold holds_key. simpl. rewrite text_eqb_refl. simpl. lia.
Qed.

Lemma import_files_orders_grow w files :
  forall db n db1 r,
    import_files w db files n = (db1, r) ->
    exists l, orders db1 = orders db ++ l.
Proof.
  induction files as [|f rest IH]; intros db n db1 r; simpl.
  - intros H. injection H as <- _. exists []. now rewrite app_nil_r.
  - destruct (import_file_cases w db f)
      as [[I _]|[(e & I & _)|(db' & row & I & O & _)]]; rewrite I.
    + apply IH.
    + intros H. injection H as <- _. exists []. now rewrite app_nil_r.
    + intros H. destruct (IH _ _ _ _ H) as (l & E).
      exists (row :: l). rewrite E, O, <- app_assoc. reflexivity.
Qed.

Lemma import_files_again w1 w2 files :
  forall db n db1 r,
    import_files w1 db files n = (db1, r) ->
    forall n',
      import_files w2 db1 files n'
      = (db1, match r with Ok _ => Ok n' | Raise e => Raise e end).
Proof.
  induction files as [|f rest IH]; intros db n db1 r; simpl.
  - intros H. injection H as <- <-. reflexivity.
  - destruct (import_file_cases w1 db f)
      as [[I S]|[(e & I & U & P)|(db' & row & I & O & S)]]; rewrite I.
    + intros H n'.
      destruct (import_files_orders_grow _ _ _ _ _ _ H) as (l & E).
      rewrite (import_file_settled w2 db1 f (settled_grows _ _ _ _ E S)).
      eapply IH; eauto.
    + intros H n'. injection H as <- <-.
      pose proof (import_file_unseen w2 db f U) as I2. rewrite P in I2.
      now rewrite I2.
    + intros H n'.
      destruct (import_files_orders_grow _ _ _ _ _ _ H) as (l & E).
      assert (S1 : settled db1 f).
      { left. eapply seen_grows; eauto. }
      rewrite (import_file_settled w2 db1 f S1).
      eapply IH; eauto.
Qed.

(** C4: a second run of the importer over the same directory, whatever the
    clock and the failures of the aggregate update in either run, leaves
    the database as the first run left it and imports nothing: a file whose
    name an order already holds is passed over, and so is every file the
    first run imported. *)
Theorem import_twice_same_ledger :
  forall w1 w2 db receipts_dir,
    let first := import_receipts_from_folder w1 db receipts_dir in
    import_receipts_from_folder w2 (fst first) receipts_dir
    = (fst first,
       match snd first with Ok _ => Ok 0%nat | Raise e => Raise e end)
    /\
    forall w d f,
      (0 < count_receipt (f_name f) (orders d))%nat ->
      import_file w d f = (d, Ok false).
Proof.
  intros w1 w2 db receipts_dir first. split.
  - unfold first. destruct receipts_dir as [files|]; simpl; trivial.
    destruct (import_files w1 db files 0) as [db1 r] eqn:R. simpl.
    eapply import_files_again; eauto.
  - intros w d f H. apply import_file_seen. unfold seen.
    apply orb_true_iff. right. now apply Nat.ltb_lt.
Qed.

Lemma import_twice_same_ledger_witness :
  (let first := import_receipts_from_folder quiet empty_db scenario_dir in
   import_receipts_from_folder failing (fst first) scenario_dir
   = (fst first,
      match snd first with Ok _ => Ok 0%nat | Raise e => Raise e end))
  /\
  import_file quiet ledger_x
    (mkFile (bytes "receipt_x.txt") (Some receipt_scenario))
  = (ledger_x, Ok false).
Proof.
  destruct (import_twice_same_ledger quiet failing empty_db scenario_dir)
    as [A B].
  split; [exact A|].
  apply B. unfold count_receipt. simpl. lia.
Defined.

(** ** Reading back a rendered receipt *)

(** *** The lines of the file *)

Lemma universal_newlines_id s :
  no_char carriage_return s = true -> universal_newlines s = s.
Proof.
  induction s as [|c s IH]; trivial.
  cbn [no_char forallb]. intros H. apply andb_prop in H. destruct H as [C H].
  cbn [universal_newlines]. apply negb_true_iff in C.
  rewrite Ascii.eqb_sym, C. now rewrite IH.
Qed.

Lemma split_lines_line l : forall cur rest,
  no_char newline l = true ->
  split_lines cur (l ++ newline :: rest)
  = (rev cur ++ l) :: split_lines [] rest.
Proof.
  induction l as [|c l IH]; intros cur rest H.
  - cbn [app split_lines]. change (Ascii.eqb newline newline) with true.
    cbv iota. now rewrite app_nil_r.
  - cbn [no_char forallb] in H. apply andb_prop in H. destruct H as [C H].
    cbn [app split_lines]. apply negb_true_iff in C.
    rewrite Ascii.eqb_sym, C. rewrite IH by exact H.
    cbn [rev]. now rewrite <- app_assoc.
Qed.

Lemma split_lines_unlines ls :
  forallb (no_char newline) ls = true ->
  split_lines [] (unlines ls) = ls.
Proof.
  induction ls as [|l ls IH]; trivial.
  cbn [forallb]. intros H. apply andb_prop in H. destruct H as [L H].
  unfold unlines. cbn [map concat]. rewrite <- app_assoc. cbn [app].
  rewrite split_lines_line by exact L.
  cbn [rev app]. f_equal. now apply IH.
Qed.

Lemma no_char_app x a b :
  no_char x (a ++ b) = (no_char x a && no_char x b)%bool.
Proof. apply forallb_app. Qed.

Lemma no_char_concat x ls :
  forallb (no_char x) ls = true -> no_char x (concat ls) = true.
Proof.
  induction ls as [|l ls IH]; trivial.
  cbn [forallb concat]. intros H. apply andb_prop in H.
  destruct H as [L H]. now rewrite no_char_app, L, IH.
Qed.

Lemma file_lines_unlines ls :
  forallb plain ls = true -> file_lines (unlines ls) = ls.
Proof.
  intros H. unfold file_lines.
  assert (N : forallb (no_char newline) ls = true).
  { revert H. apply forallb_impl. intros l P. unfold plain in P.
    now apply andb_prop in P. }
  rewrite universal_newlines_id; [now apply split_lines_unlines|].
  unfold unlines. apply no_char_concat. rewrite forallb_map.
  revert H. apply forallb_impl. intros l P. unfold plain in P.
  apply andb_prop in P. destruct P as [_ P].
  rewrite no_char_app, P. reflexivity.
Qed.

Lemma unlines_app a b : unlines (a ++ b) = unlines a ++ unlines b.
Proof. unfold unlines. now rewrite map_app, concat_app. Qed.

Lemma unlines_items ls :
  concat (map render_line ls) = unlines (map line_text ls).
Proof.
  unfold unlines. rewrite map_map. f_equal. apply map_ext. intros l.
  unfold render_line, line_text. now rewrite <- !app_assoc.
Qed.

Lemma save_receipt_lines now order paid change employee_name :
  snd (save_receipt now order paid change employee_name)
  = unlines (receipt_lines now order paid change employee_name).
Proof.
  unfold save_receipt, receipt_lines, head_lines, totals_lines.
  cbn [snd]. rewrite !unlines_app, unlines_items.
  unfold unlines. cbn [map concat].
  rewrite <- !app_assoc. cbn [app]. reflexivity.
Qed.

(** *** Well-formed input *)

Lemma wf_item_inv it :
  wf_item it = true ->
  clean (Order.name it) = true /\ no_char "(" (Order.name it) = true /\
  plain (Order.name it) = true /\
  clean (Order.code it) = true /\ no_char ")" (Order.code it) = true /\
  plain (Order.code it) = true /\
  0 <= Order.qty it /\
  (Qnum (Order.price it) <? 0) = false /\
  (Qnum (Order.line_total it) <? 0) = false.
Proof.
  unfold wf_item, no_parens. intros H.
  rewrite !andb_true_iff in H.
  destruct H as [[[[[[[[CN [P1 P2]] PN] CC] PC] PLC] Q] P] _].
  apply Z.leb_le in Q. apply Z.leb_le in P.
  repeat split; trivial.
  - apply Z.ltb_ge. exact P.
  - apply Z.ltb_ge. unfold Order.line_total. simpl. nia.
Qed.

Lemma wf_item_digits it :
  wf_item it = true ->
  (4300 <? List.length (digits_of (Order.qty it)))%nat = false.
Proof.
  intros H. pose proof (wf_item_inv it H) as (_ & _ & _ & _ & _ & _ & Q & _).
  unfold wf_item in H. apply andb_prop in H. destruct H as [_ H].
  rewrite (str_of_int_nonneg _ Q) in H.
  apply Nat.leb_le in H. apply Nat.ltb_ge. exact H.
Qed.

(** *** Every line is a line *)

Lemma plain_amount_chars s : forallb amount_char s = true -> plain s = true.
Proof.
  intros H. unfold plain.
  now rewrite !(amount_chars_no_char _ s) by trivial.
Qed.

Lemma plain_app a b : plain (a ++ b) = (plain a && plain b)%bool.
Proof.
  unfold plain. rewrite !no_char_app.
  destruct (no_char newline a), (no_char newline b),
    (no_char carriage_return a), (no_char carriage_return b); reflexivity.
Qed.

Lemma plain_format_currency v : plain (format_currency v) = true.
Proof.
  unfold format_currency. rewrite plain_app.
  now rewrite (plain_amount_chars _ (format_2f_chars v)).
Qed.

Lemma plain_digits ds : forallb is_digit ds = true -> plain ds = true.
Proof.
  intros H. apply plain_amount_chars. revert H. apply forallb_impl.
  intros c C. unfold amount_char, is_digit_or_comma. now rewrite C.
Qed.

Lemma plain_line_text it :
  wf_item it = true -> plain (line_text (as_line it)) = true.
Proof.
  intros W. destruct (wf_item_inv it W) as (_ & _ & PN & _ & _ & PC & Q & _).
  unfold line_text, as_line. cbn [l_qty l_name l_code l_price l_total].
  rewrite str_of_int_nonneg by exact Q.
  destruct (digits_of_spec _ Q) as (_ & D & _).
  rewrite !plain_app, !plain_format_currency, PN, PC, (plain_digits _ D).
  reflexivity.
Qed.

Lemma plain_timestamp now : wf_timestamp now = true -> plain now = true.
Proof.
  intros H. unfold plain, no_char, wf_timestamp in *.
  assert (N : forallb (fun c => negb (Ascii.eqb newline c)) now = true).
  { revert H. apply forallb_impl. clear. intros c. ascii_cases c. }
  assert (C : forallb (fun c => negb (Ascii.eqb carriage_return c)) now
              = true).
  { revert H. apply forallb_impl. clear. intros c. ascii_cases c. }
  now rewrite N, C.
Qed.

Lemma plain_receipt_lines now order paid change employee_name :
  well_formed now order employee_name = true ->
  forallb plain (receipt_lines now order paid change employee_name) = true.
Proof.
  unfold well_formed. intros H.
  apply andb_prop in H. destruct H as [H PE].
  apply andb_prop in H. destruct H as [WT WI].
  unfold receipt_lines, head_lines, totals_lines.
  rewrite !forallb_app. cbn [forallb].
  rewrite !plain_app, !plain_format_currency, PE, (plain_timestamp _ WT).
  replace (forallb plain (map line_text (Order.as_lines order))) with true;
    [reflexivity|].
  symmetry. unfold Order.as_lines. rewrite map_map, forallb_map.
  revert WI. apply forallb_impl. intros it W. now apply plain_line_text.
Qed.

(** *** The item lines *)

Lemma parse_items_skip pre rest :
  Forall (fun L => re_match item_re L = None) pre ->
  parse_items (pre ++ rest) = parse_items rest.
Proof.
  induction 1 as [|L pre N _ IH]; trivial.
  cbn [app]. now rewrite parse_items_ignores.
Qed.

Lemma line_text_item_text it :
  0 <= Order.qty it ->
  line_text (as_line it)
  = item_text (digits_of (Order.qty it)) (Order.name it) (Order.code it)
              (format_2f (Order.price it)) (format_2f (Order.line_total it)).
Proof.
  intros Q. unfold line_text, item_text, as_line, format_currency.
  cbn [l_qty l_name l_code l_price l_total].
  rewrite str_of_int_nonneg by exact Q.
  now rewrite <- !app_assoc.
Qed.

(** The line of a well-formed item is recognized, and read back as the
    item with its amounts rounded to two decimals. *)
Lemma parse_items_line it rest :
  wf_item it = true ->
  parse_items (line_text (as_line it) :: rest)
  = match parse_items rest with
    | Ok items => Ok (recovered it :: items)
    | Raise e => Raise e
    end.
Proof.
  intros W.
  destruct (wf_item_inv it W) as (CN & PN & LN & CC & PC & _ & Q & SP & ST).
  destruct (digits_of_spec _ Q) as (ND & DD & VD).
  destruct (format_2f_parts (Order.price it))
    as (G1 & a1 & b1 & E1 & NG1 & DG1 & Da1 & Db1 & _).
  destruct (format_2f_parts (Order.line_total it))
    as (G2 & a2 & b2 & E2 & NG2 & DG2 & Da2 & Db2 & _).
  rewrite SP in E1. rewrite ST in E2. cbn [minus_if app] in E1, E2.
  assert (NC : Order.code it <> []).
  { unfold clean in CC. now destruct (Order.code it). }
  assert (NL : no_char newline (Order.name it) = true).
  { unfold plain in LN. now apply andb_prop in LN. }
  assert (M : re_match item_re (line_text (as_line it))
              = Some [digits_of (Order.qty it); Order.name it; Order.code it;
                      format_2f (Order.price it);
                      format_2f (Order.line_total it)]).
  { rewrite line_text_item_text by exact Q. rewrite E1, E2.
    now apply re_match_item_text. }
  cbn [parse_items]. rewrite M. cbn [group nth Nat.pred].
  rewrite !float_of_group_format_2f, !strip_clean by assumption.
  unfold py_int. rewrite (wf_item_digits it W), VD. reflexivity.
Qed.

Lemma parse_items_lines order rest :
  forallb wf_item order = true ->
  parse_items rest = Ok [] ->
  parse_items (map line_text (Order.as_lines order) ++ rest)
  = Ok (map recovered order).
Proof.
  intros W R. induction order as [|it order IH]; [exact R|].
  cbn [forallb] in W. apply andb_prop in W. destruct W as [W1 W2].
  unfold Order.as_lines. cbn [map app].
  rewrite (parse_items_line it _ W1).
  unfold Order.as_lines in IH. now rewrite IH.
Qed.

Lemma parse_items_receipt_lines now order paid change employee_name :
  well_formed now order employee_name = true ->
  parse_items (receipt_lines now order paid change employee_name)
  = Ok (map recovered order).
Proof.
  unfold well_formed. intros H.
  apply andb_prop in H. destruct H as [H _].
  apply andb_prop in H. destruct H as [WT WI].
  unfold receipt_lines. rewrite parse_items_skip.
  - apply parse_items_lines; [exact WI|].
    apply (parse_items_skip ([] :: totals_lines _ _ _) []).
    unfold totals_lines.
    repeat apply Forall_cons; try apply Forall_nil;
      now apply re_match_item_no_digit.
  - unfold head_lines.
    constructor; [now apply re_match_item_no_digit|].
    constructor; [now apply re_match_item_no_digit|].
    constructor.
    + apply re_match_item_no_space. revert WT. apply forallb_impl.
      clear. intros c. ascii_cases c.
    + constructor; [now apply re_match_item_no_digit|constructor].
Qed.

(** *** The totals block *)

Lemma announces_initial L :
  stops totals_initial L = true -> announces L = false.
Proof.
  destruct L as [|c L]; [reflexivity|].
  cbn [stops]. unfold totals_initial, char_is. intros H.
  apply negb_true_iff in H. apply orb_false_iff in H. destruct H as [H C].
  apply orb_false_iff in H. destruct H as [S P].
  unfold announces, startswith, bytes.
  cbn [list_ascii_of_string strip_prefix].
  now rewrite S, P, C.
Qed.

Lemma scan_total_other t L : announces L = false -> scan_total t L = t.
Proof.
  unfold announces. intros H.
  apply orb_false_iff in H. destruct H as [H C].
  apply orb_false_iff in H. destruct H as [S P].
  unfold scan_total. rewrite S, P, C. now destruct t.
Qed.

Lemma fold_scan_total_other ls t :
  Forall (fun L => announces L = false) ls ->
  fold_left scan_total ls t = t.
Proof.
  intros H. revert t. induction H as [|L ls S _ IH]; intros t; trivial.
  cbn [fold_left]. now rewrite scan_total_other, IH.
Qed.

Lemma In_skipn {A} n (l : list A) x : In x (skipn n l) -> In x l.
Proof.
  intros H. rewrite <- (firstn_skipn n l). apply in_or_app. now right.
Qed.

(** Lines before the block that announce no total leave the result to
    the block. *)
Lemma find_totals_block pre block :
  (List.length block <= 10)%nat ->
  Forall (fun L => announces L = false) pre ->
  find_totals (pre ++ block)
  = fold_left scan_total (rev block) (mkTotals None None None).
Proof.
  intros B P. unfold find_totals, lastn.
  rewrite length_app, skipn_app.
  replace (List.length pre + List.length block - 10 - List.length pre)%nat
    with 0%nat by lia.
  cbn [skipn]. rewrite rev_app_distr, fold_left_app.
  apply fold_scan_total_other.
  apply Forall_forall. intros L I. apply in_rev in I. apply In_skipn in I.
  revert L I. now apply Forall_forall.
Qed.

(** The lines of the block, one by one. *)
Lemma scan_total_subtotal t v :
  scan_total t (bytes "Subtotal: " ++ format_currency v)
  = mkTotals (Some (round2 v)) (paid t) (change t).
Proof.
  rewrite <- (scalar_of_rendered (bytes "Subtotal") v eq_refl).
  generalize (format_currency v). intros x. reflexivity.
Qed.

Lemma scan_total_paid t v :
  scan_total t (bytes "Paid: " ++ format_currency v)
  = mkTotals (subtotal t) (Some (round2 v)) (change t).
Proof.
  rewrite <- (scalar_of_rendered (bytes "Paid") v eq_refl).
  generalize (format_currency v). intros x. reflexivity.
Qed.

Lemma scan_total_change t v :
  scan_total t (bytes "Change: " ++ format_currency v)
  = mkTotals (subtotal t) (paid t) (Some (round2 v)).
Proof.
  rewrite <- (scalar_of_rendered (bytes "Change") v eq_refl).
  generalize (format_currency v). intros x. reflexivity.
Qed.

Lemma fold_scan_totals_lines sub pd chg :
  fold_left scan_total (rev (totals_lines sub pd chg))
            (mkTotals None None None)
  = mkTotals (Some (round2 sub)) (Some (round2 pd)) (Some (round2 chg)).
Proof.
  unfold totals_lines. cbn [rev app fold_left].
  rewrite scan_total_change, scan_total_paid.
  rewrite (scan_total_other _ (bytes "Total: " ++ _)) by reflexivity.
  rewrite (scan_total_other _ (bytes "Tax: " ++ _)) by reflexivity.
  rewrite scan_total_subtotal. reflexivity.
Qed.

Lemma find_totals_receipt_lines now order paid change employee_name :
  well_formed now order employee_name = true ->
  find_totals (receipt_lines now order paid change employee_name)
  = mkTotals (Some (round2 (Order.subtotal order))) (Some (round2 paid))
             (Some (round2 change)).
Proof.
  unfold well_formed. intros H.
  apply andb_prop in H. destruct H as [H _].
  apply andb_prop in H. destruct H as [WT WI].
  unfold receipt_lines.
  change ([] :: totals_lines (Order.subtotal order) paid change)
    with ([[]] ++ totals_lines (Order.subtotal order) paid change).
  rewrite !app_assoc. rewrite find_totals_block.
  - apply fold_scan_totals_lines.
  - unfold totals_lines. cbn [List.length]. lia.
  - rewrite <- app_assoc. apply Forall_app. split; [|apply Forall_app; split].
    + unfold head_lines.
      constructor; [reflexivity|]. constructor; [reflexivity|].
      constructor; [|constructor; [reflexivity|constructor]].
      apply announces_initial.
      destruct now as [|c now']; trivial.
      cbn [wf_timestamp forallb] in WT. apply andb_prop in WT.
      destruct WT as [C _]. cbn [stops]. revert C. clear. ascii_cases c.
    + apply Forall_forall. intros L I. unfold Order.as_lines in I.
      apply in_map_iff in I. destruct I as (l & <- & I).
      apply in_map_iff in I. destruct I as (it & <- & I).
      pose proof (proj1 (forallb_forall _ _) WI it I) as W.
      destruct (wf_item_inv it W) as (_ & _ & _ & _ & _ & _ & Q & _).
      change (announces (line_text (as_line it)) = false).
      rewrite (line_text_item_text it Q). unfold item_text.
      apply announces_initial.
      destruct (digits_of_spec _ Q) as (ND & DD & _).
      destruct (digits_of (Order.qty it)) as [|c ds]; [congruence|].
      cbn [forallb] in DD. apply andb_prop in DD. destruct DD as [C _].
      cbn [app stops]. revert C. clear. ascii_cases c.
    + constructor; [reflexivity|constructor].
Qed.

(** *** Round trip *)




(** The values of the scenario, written out. *)
Example receipt_scenario_values :
  parse_items (file_lines receipt_scenario)
  = Ok [mkLine (bytes "AR") (bytes "Adobo Rice Bowl") 2
               (6500 # 100) (13000 # 100)] /\
  find_totals (file_lines receipt_scenario)
  = mkTotals (Some (13000 # 100)) (Some (15000 # 100)) (Some (2000 # 100)).
Proof. split; reflexivity. Qed.

(** ** Ledger store: what a call of [save_order] leaves behind *)

Lemma store_items_seq_orders db oid items :
  seq_orders (store_items db oid items) = seq_orders db.
Proof.
  unfold store_items. revert db.
  induction items as [|it items IH]; intros db; simpl; trivial.
  now rewrite IH.
Qed.

(** The two ways [save_order] gets past its first statement: the order row
    is new, or an order holds the non-empty receipt file name. *)
Lemma write_order_inv w db items tot paid chg emp key db2 oid :
  write_order w db items tot paid chg emp key = Ok (db2, oid) ->
  exists db1,
    db2 = store_items db1 oid items /\
    ((unique_violation key (orders db) = false /\
      oid = next_rowid (seq_orders db) (map order_id (orders db)) /\
      db1 = mkDB (orders db ++ [mkOrder oid (now_order w) tot paid chg emp key])
                 (order_items db) (sales db) oid (seq_order_items db))
     \/
     (unique_violation key (orders db) = true /\ db1 = db /\
      exists k o, key = Some k /\ k <> [] /\
                  find (holds_key k) (orders db) = Some o /\
                  order_id o = oid)).
Proof.
  intros W. pose proof (write_order_fits _ _ _ _ _ _ _ _ _ W) as Q.
  revert W. unfold write_order, insert_order.
  destruct (unique_violation key (orders db)) eqn:U.
  - destruct key as [k|]; [|discriminate U].
    destruct k as [|c k]; cbn [truthy]; [discriminate|].
    unfold select_order_id.
    destruct (find (holds_key (c :: k)) (orders db)) as [o|] eqn:F;
      cbn [option_map]; [|discriminate].
    rewrite (insert_items_fit _ _ _ Q).
    intros H. injection H as <- <-.
    exists db. split; [reflexivity|]. right.
    repeat split; trivial. exists (c :: k), o. repeat split; trivial.
    discriminate.
  - rewrite (insert_items_fit _ _ _ Q).
    intros H. injection H as <- <-.
    eexists. split; [reflexivity|]. left. repeat split.
Qed.

(** A call of [save_order] that returned has bound every quantity. *)
Lemma save_order_fits w db items tot paid chg emp key r :
  save_order w db items tot paid chg emp key = Ok r ->
  quantities_fit items = true.
Proof.
  unfold save_order.
  destruct (write_order w db items tot paid chg emp key) as [r'|e] eqn:W;
    [|discriminate].
  intros _. exact (write_order_fits _ _ _ _ _ _ _ _ _ W).
Qed.

(** The tables after a call of [save_order] that returned. *)
Lemma save_order_inv w db items tot paid chg emp key db' oid :
  save_order w db items tot paid chg emp key = Ok (db', oid) ->
  exists rows,
    order_items db' = order_items db ++ rows /\
    map line_of_row rows = items /\
    Forall (fun r => i_order_id r = oid) rows /\
    sales db'
    = (if txn_raises w then sales db
       else fold_left (upsert_sale w (now_sales w)) items (sales db)) /\
    ((unique_violation key (orders db) = false /\
      oid = next_rowid (seq_orders db) (map order_id (orders db)) /\
      orders db'
      = orders db ++ [mkOrder oid (now_order w) tot paid chg emp key] /\
      seq_orders db' = oid)
     \/
     (unique_violation key (orders db) = true /\
      orders db' = orders db /\ seq_orders db' = seq_orders db /\
      exists k o, key = Some k /\ k <> [] /\
                  find (holds_key k) (orders db) = Some o /\
                  order_id o = oid)).
Proof.
  unfold save_order.
  destruct (write_order w db items tot paid chg emp key) as [[db2 o2]|e] eqn:W;
    [|discriminate].
  intros H. injection H as <- <-.
  apply write_order_inv in W. destruct W as (db1 & -> & C).
  destruct (store_items_rows db1 o2 items) as (rows & R & M & F).
  exists rows.
  assert (S : sales (try_increment_sales w (store_items db1 o2 items) items)
              = if txn_raises w then sales db1
                else fold_left (upsert_sale w (now_sales w)) items
                               (sales db1)).
  { unfold try_increment_sales, _increment_sales.
    destruct (txn_raises w); cbn [sales]; now rewrite store_items_sales. }
  assert (Q : seq_orders (try_increment_sales w (store_items db1 o2 items)
                                              items)
              = seq_orders db1).
  { unfold try_increment_sales, _increment_sales.
    destruct (txn_raises w); cbn [seq_orders];
      apply store_items_seq_orders. }
  destruct (try_increment_sales_ledger w (store_items db1 o2 items) items)
    as [O I].
  rewrite I, R, S, O, Q, store_items_orders.
  destruct C as [(U & E & ->)|(U & -> & K)]; cbn [order_items sales orders
                                                    seq_orders].
  - repeat split; trivial. left. repeat split; trivial.
  - repeat split; trivial. right. repeat split; trivial.
Qed.

(** ** Sales aggregator: the incremental path *)

Lemma rows_quantity_lines c rows : forall a,
  fold_left (fun a r => if text_eqb (code r) c then a + quantity r else a)
            rows a
  = a + lines_quantity c (map line_of_row rows).
Proof.
  induction rows as [|r rows IH]; intros a; cbn [fold_left map lines_quantity
                                                   fold_right].
  - lia.
  - fold (lines_quantity c (map line_of_row rows)). rewrite IH.
    cbn [line_of_row l_code l_qty]. destruct (text_eqb (code r) c); lia.
Qed.

Lemma rows_revenue_lines c rows : forall a,
  (fold_left (fun a r => if text_eqb (code r) c then (a + total r)%Q else a)
             rows a
   == a + lines_revenue c (map line_of_row rows))%Q.
Proof.
  induction rows as [|r rows IH]; intros a; cbn [fold_left map lines_revenue
                                                   fold_right].
  - ring.
  - fold (lines_revenue c (map line_of_row rows)). rewrite IH.
    cbn [line_of_row l_code l_total]. destruct (text_eqb (code r) c); ring.
Qed.

Lemma ledger_quantity_app c db db' rows :
  order_items db' = order_items db ++ rows ->
  ledger_quantity c db'
  = ledger_quantity c db + lines_quantity c (map line_of_row rows).
Proof.
  intros E. unfold ledger_quantity. rewrite E, fold_left_app.
  apply rows_quantity_lines.
Qed.

Lemma ledger_revenue_app c db db' rows :
  order_items db' = order_items db ++ rows ->
  (ledger_revenue c db'
   == ledger_revenue c db + lines_revenue c (map line_of_row rows))%Q.
Proof.
  intros E. unfold ledger_revenue. rewrite E, fold_left_app.
  apply rows_revenue_lines.
Qed.

Lemma sold_app c db db' rows :
  order_items db' = order_items db ++ rows ->
  sold c db'
  = (sold c db
     || existsb (fun it => text_eqb (l_code it) c) (map line_of_row rows))%bool.
Proof.
  intros E. unfold sold. rewrite E, existsb_app. f_equal. clear E.
  induction rows as [|r rows IH]; cbn [existsb map]; trivial.
  now rewrite IH.
Qed.

(** The [UPDATE] touches the rows of its code and leaves their codes. *)
Lemma find_update_sales_row c c' q rev when ss :
  find (fun s => text_eqb (s_code s) c) (update_sales_row c' q rev when ss)
  = option_map
      (fun s => if text_eqb (s_code s) c'
                then mkSales (s_code s) (s_name s) (total_quantity s + q)
                             (total_revenue s + rev)%Q (Some when)
                else s)
      (find (fun s => text_eqb (s_code s) c) ss).
Proof.
  unfold update_sales_row.
  induction ss as [|s ss IH]; cbn [map find option_map]; trivial.
  destruct (text_eqb (s_code s) c') eqn:E'; cbn [s_code];
    destruct (text_eqb (s_code s) c) eqn:E; cbn [option_map]; trivial;
    now rewrite E'.
Qed.

Lemma sales_has_update_sales_row c c' q rev when ss :
  sales_has c (update_sales_row c' q rev when ss) = sales_has c ss.
Proof.
  unfold sales_has, update_sales_row.
  induction ss as [|s ss IH]; cbn [map existsb]; trivial.
  rewrite IH. now destruct (text_eqb (s_code s) c').
Qed.

Lemma sales_has_none c ss :
  sales_has c ss = false ->
  find (fun s => text_eqb (s_code s) c) ss = None.
Proof.
  intros H. destruct (find _ ss) eqn:F; trivial.
  assert (N : sales_has c ss = true) by (apply sales_has_find; congruence).
  congruence.
Qed.

Lemma sales_has_some c ss :
  sales_has c ss = true ->
  exists s, find (fun s => text_eqb (s_code s) c) ss = Some s /\
            s_code s = c.
Proof.
  intros H. apply sales_has_find in H.
  destruct (find _ ss) as [s|] eqn:F; [|congruence].
  exists s. split; trivial. apply find_some in F. now apply text_eqb_eq.
Qed.

(** One upsert adds the line to the row of its code and to no other. *)
Lemma upsert_sale_adds w when ss it c :
  stmt_raises w it = false ->
  let ss' := upsert_sale w when ss it in
  let look l := find (fun s => text_eqb (s_code s) c) l in
  sales_has c ss' = (sales_has c ss || text_eqb (l_code it) c)%bool /\
  found_quantity (look ss')
  = found_quantity (look ss)
    + (if text_eqb (l_code it) c then l_qty it else 0) /\
  (found_revenue (look ss')
   == found_revenue (look ss)
      + (if text_eqb (l_code it) c then l_total it else 0))%Q.
Proof.
  intros S. unfold upsert_sale. rewrite S. cbv zeta.
  destruct (sales_has (l_code it) ss) eqn:H.
  - rewrite sales_has_update_sales_row, find_update_sales_row.
    destruct (text_eqb (l_code it) c) eqn:E.
    + apply text_eqb_eq in E. subst c. rewrite H.
      destruct (sales_has_some _ _ H) as (s & F & C). rewrite F.
      cbn [option_map]. rewrite C, text_eqb_refl.
      cbn [found_quantity found_revenue total_quantity total_revenue].
      repeat split; reflexivity.
    + rewrite orb_false_r. split; [reflexivity|].
      destruct (find (fun s => text_eqb (s_code s) c) ss) as [s|] eqn:F;
        cbn [option_map found_quantity found_revenue].
      * assert (C : s_code s = c)
          by (apply find_some in F; now apply text_eqb_eq).
        replace (text_eqb (s_code s) (l_code it)) with false.
        -- split; [lia|ring].
        -- symmetry. apply text_eqb_neq. intros N.
           rewrite <- N, C, text_eqb_refl in E. discriminate.
      * split; [lia|ring].
  - unfold sales_has at 1. rewrite existsb_app. fold (sales_has c ss).
    cbn [existsb s_code]. rewrite orb_false_r. split; [reflexivity|].
    destruct (text_eqb (l_code it) c) eqn:E.
    + apply text_eqb_eq in E. subst c.
      rewrite (find_app_none _ _ _ (sales_has_none _ _ H)).
      cbn [s_code]. rewrite text_eqb_refl, (sales_has_none _ _ H).
      cbn [found_quantity found_revenue total_quantity total_revenue].
      split; [lia|ring].
    + destruct (find (fun s => text_eqb (s_code s) c) ss) as [s|] eqn:F.
      * rewrite (find_app_some _ _ _ _ F). split; [lia|ring].
      * rewrite (find_app_none _ _ _ F). cbn [s_code]. rewrite E.
        split; [lia|ring].
Qed.

Lemma upserts_add w when items c : forall ss,
  (forall it, stmt_raises w it = false) ->
  let ss' := fold_left (upsert_sale w when) items ss in
  let look l := find (fun s => text_eqb (s_code s) c) l in
  sales_has c ss'
  = (sales_has c ss
     || existsb (fun it => text_eqb (l_code it) c) items)%bool /\
  found_quantity (look ss')
  = found_quantity (look ss) + lines_quantity c items /\
  (found_revenue (look ss')
   == found_revenue (look ss) + lines_revenue c items)%Q.
Proof.
  induction items as [|it items IH]; intros ss S; cbv zeta;
    cbn [fold_left existsb lines_quantity lines_revenue fold_right].
  - rewrite orb_false_r. repeat split; [lia|ring].
  - fold (lines_quantity c items). fold (lines_revenue c items).
    destruct (IH (upsert_sale w when ss it) S) as (A & B & C).
    destruct (upsert_sale_adds w when ss it c (S it)) as (A' & B' & C').
    rewrite A, B, C, A', B', C', orb_assoc.
    split; [reflexivity|].
    destruct (text_eqb (l_code it) c); split; try lia; ring.
Qed.

(** Appending lines to the ledger and upserting the same lines keeps the
    aggregates in step. *)
Lemma upserts_keep_consistent w when db db' rows :
  (forall it, stmt_raises w it = false) ->
  consistent db ->
  order_items db' = order_items db ++ rows ->
  sales db'
  = fold_left (upsert_sale w when) (map line_of_row rows) (sales db) ->
  consistent db'.
Proof.
  intros S C I L c.
  destruct (C c) as (C1 & C2 & C3).
  destruct (upserts_add w when (map line_of_row rows) c (sales db) S)
    as (A & B & D).
  cbv zeta in A, B, D.
  unfold sales_quantity, sales_revenue, sales_of in *.
  rewrite (sold_app c db db' rows I), (ledger_quantity_app c db db' rows I),
    (ledger_revenue_app c db db' rows I), L.
  fold (found_quantity
          (find (fun s => text_eqb (s_code s) c)
                (fold_left (upsert_sale w when) (map line_of_row rows)
                           (sales db)))).
  fold (found_revenue
          (find (fun s => text_eqb (s_code s) c)
                (fold_left (upsert_sale w when) (map line_of_row rows)
                           (sales db)))).
  rewrite A, B, D, C1.
  fold (found_quantity (find (fun s => text_eqb (s_code s) c) (sales db)))
    in C2.
  fold (found_revenue (find (fun s => text_eqb (s_code s) c) (sales db)))
    in C3.
  rewrite C2, C3. repeat split; reflexivity.
Qed.

(** X1.  While no statement of the aggregate update fails and the ledger
    stays within integer and exact arithmetic (quantities that are not
    negative and sum to less than [2^63], whole line totals that sum to
    [2^53] at most), [save_order] keeps the [sales] table in step with the
    ledger: if every code had a row exactly when an order line carried it,
    holding the sums of the quantities and of the totals of these lines,
    the same is true after the call, whether the call made a new order or
    added the lines to the order that holds the receipt file name. *)
Theorem save_order_keeps_sales_consistent :
  forall w db items tot paid chg emp key db' oid,
    fault_free w ->
    consistent db ->
    save_order w db items tot paid chg emp key = Ok (db', oid) ->
    modest_ledger db' = true ->
    consistent db'.
Proof.
  intros w db items tot paid chg emp key db' oid [T S] C H _.
  apply save_order_inv in H.
  destruct H as (rows & I & M & _ & L & _).
  rewrite T, <- M in L.
  exact (upserts_keep_consistent w (now_sales w) db db' rows S C I L).
Qed.

Lemma save_order_keeps_sales_consistent_witness : consistent ledger_x.
Proof.
  apply (save_order_keeps_sales_consistent quiet empty_db [adobo] 130 150 20
           None (Some (bytes "receipt_x.txt")) ledger_x 1).
  - split; [reflexivity|intros it; reflexivity].
  - intros c. repeat split; reflexivity.
  - reflexivity.
  - reflexivity.
Defined.

(** An upsert leaves the row of a code in place, under its display name. *)
Lemma upsert_sale_keeps_name w when ss it c s :
  find (fun s => text_eqb (s_code s) c) ss = Some s ->
  exists s',
    find (fun s => text_eqb (s_code s) c) (upsert_sale w when ss it)
    = Some s' /\ s_name s' = s_name s.
Proof.
  intros F. unfold upsert_sale.
  destruct (stmt_raises w it); [now exists s|].
  destruct (sales_has (l_code it) ss).
  - rewrite find_update_sales_row, F. cbn [option_map].
    eexists. split; [reflexivity|].
    now destruct (text_eqb (s_code s) (l_code it)).
  - rewrite (find_app_some _ _ _ _ F). now exists s.
Qed.

Lemma upserts_keep_name w when items c : forall ss s,
  find (fun s => text_eqb (s_code s) c) ss = Some s ->
  exists s',
    find (fun s => text_eqb (s_code s) c)
         (fold_left (upsert_sale w when) items ss) = Some s' /\
    s_name s' = s_name s.
Proof.
  induction items as [|it items IH]; intros ss s F; cbn [fold_left].
  - now exists s.
  - destruct (upsert_sale_keeps_name w when ss it c s F) as (s1 & F1 & N1).
    destruct (IH _ _ F1) as (s2 & F2 & N2).
    exists s2. split; [exact F2|congruence].
Qed.

Lemma sales_has_In c ss : sales_has c ss = true <-> In c (map s_code ss).
Proof.
  unfold sales_has. rewrite existsb_exists, in_map_iff.
  split; intros (s & A & B).
  - exists s. split; trivial. now apply text_eqb_eq.
  - exists s. split; trivial. now apply text_eqb_eq.
Qed.

Lemma update_sales_row_codes c q rev when ss :
  map s_code (update_sales_row c q rev when ss) = map s_code ss.
Proof.
  unfold update_sales_row. rewrite map_map. apply map_ext.
  intros s. now destruct (text_eqb (s_code s) c).
Qed.

Lemma upsert_sale_NoDup w when ss it :
  NoDup (map s_code ss) -> NoDup (map s_code (upsert_sale w when ss it)).
Proof.
  intros N. unfold upsert_sale.
  destruct (stmt_raises w it); trivial.
  destruct (sales_has (l_code it) ss) eqn:H.
  - now rewrite update_sales_row_codes.
  - rewrite map_app. cbn [map s_code].
    apply NoDup_app; trivial.
    + constructor; [intros []|constructor].
    + intros c I [<-|[]]. apply sales_has_In in I. congruence.
Qed.

(** X2.  Whatever fails in the aggregate update, [save_order] leaves at
    most one [sales] row per product code, and the row of a code keeps the
    display name it was created with: a later order that carries another
    name for the code adds to the row and does not rename it. *)
Theorem save_order_keeps_one_row_per_code :
  forall w db items tot paid chg emp key db' oid,
    NoDup (map s_code (sales db)) ->
    save_order w db items tot paid chg emp key = Ok (db', oid) ->
    NoDup (map s_code (sales db')) /\
    forall c s,
      sales_of c db = Some s ->
      exists s', sales_of c db' = Some s' /\ s_name s' = s_name s.
Proof.
  intros w db items tot paid chg emp key db' oid N H.
  apply save_order_inv in H. destruct H as (rows & _ & _ & _ & L & _).
  unfold sales_of. rewrite L. destruct (txn_raises w).
  - split; trivial. intros c s F. now exists s.
  - split.
    + clear L. revert N. generalize (sales db).
      induction items as [|it items IH]; intros ss N; cbn [fold_left];
        trivial.
      apply IH. now apply upsert_sale_NoDup.
    + intros c s F. now apply upserts_keep_name.
Qed.

Lemma save_order_keeps_one_row_per_code_witness :
  NoDup (map s_code (sales ledger_renamed)) /\
  forall c s,
    sales_of c ledger_x = Some s ->
    exists s', sales_of c ledger_renamed = Some s' /\ s_name s' = s_name s.
Proof.
  apply (save_order_keeps_one_row_per_code quiet ledger_x [adobo_renamed]
           65 100 35 None (Some (bytes "receipt_y.txt")) ledger_renamed 2).
  - vm_compute. constructor; [intros []|constructor].
  - reflexivity.
Defined.

(** ** Sales aggregator: the rebuild when the display names agree *)

Lemma ascii_compare_refl x : Ascii.compare x x = Eq.
Proof. unfold Ascii.compare. apply N.compare_refl. Qed.

Lemma ascii_compare_lt_trans x y z :
  Ascii.compare x y = Lt -> Ascii.compare y z = Lt -> Ascii.compare x z = Lt.
Proof.
  unfold Ascii.compare. rewrite !N.compare_lt_iff. apply N.lt_trans.
Qed.

Lemma text_compare_refl a : text_compare a a = Eq.
Proof. now apply text_compare_eq. Qed.

Lemma text_compare_antisym a : forall b,
  text_compare a b = CompOpp (text_compare b a).
Proof.
  induction a as [|x a IH]; intros [|y b]; cbn [text_compare CompOpp];
    trivial.
  rewrite (Ascii.compare_antisym x y).
  destruct (Ascii.compare y x); cbn [CompOpp]; trivial.
Qed.

Lemma text_compare_lt_trans a : forall b c,
  text_compare a b = Lt -> text_compare b c = Lt -> text_compare a c = Lt.
Proof.
  induction a as [|x a IH]; intros [|y b] [|z c]; cbn [text_compare];
    try congruence.
  destruct (Ascii.compare x y) eqn:XY; try discriminate;
    destruct (Ascii.compare y z) eqn:YZ; try discriminate; intros A B.
  - apply Ascii.compare_eq_iff in XY, YZ. subst.
    rewrite ascii_compare_refl. now apply (IH b c).
  - apply Ascii.compare_eq_iff in XY. subst. now rewrite YZ.
  - apply Ascii.compare_eq_iff in YZ. subst. now rewrite XY.
  - now rewrite (ascii_compare_lt_trans x y z XY YZ).
Qed.

Lemma key_compare_refl c n : key_compare c n c n = Eq.
Proof. unfold key_compare. now rewrite !text_compare_refl. Qed.

Lemma key_compare_antisym c1 n1 c2 n2 :
  key_compare c1 n1 c2 n2 = CompOpp (key_compare c2 n2 c1 n1).
Proof.
  unfold key_compare. rewrite (text_compare_antisym c1 c2).
  destruct (text_compare c2 c1); cbn [CompOpp]; trivial.
  apply text_compare_antisym.
Qed.

Lemma key_compare_lt_trans c1 n1 c2 n2 c3 n3 :
  key_compare c1 n1 c2 n2 = Lt -> key_compare c2 n2 c3 n3 = Lt ->
  key_compare c1 n1 c3 n3 = Lt.
Proof.
  unfold key_compare.
  destruct (text_compare c1 c2) eqn:A; try discriminate;
    destruct (text_compare c2 c3) eqn:B; try discriminate; intros H1 H2.
  - apply text_compare_eq in A, B. subst. rewrite text_compare_refl.
    now apply (text_compare_lt_trans n1 n2 n3).
  - apply text_compare_eq in A. subst. now rewrite B.
  - apply text_compare_eq in B. subst. now rewrite A.
  - now rewrite (text_compare_lt_trans c1 c2 c3 A B).
Qed.

(** A property of the keys that holds of the groups and of the row holds
    of the groups the row has joined. *)
Lemma add_to_groups_keys (P : text -> text -> Prop) r dt gs :
  Forall (fun g => P (g_code g) (g_name g)) gs ->
  P (code r) (name r) ->
  Forall (fun g => P (g_code g) (g_name g)) (add_to_groups r dt gs).
Proof.
  intros F X. induction F as [|g gs G F IH]; cbn [add_to_groups].
  - now repeat constructor.
  - destruct (key_compare (code r) (name r) (g_code g) (g_name g)).
    + constructor; trivial.
    + repeat constructor; trivial.
    + constructor; trivial.
Qed.

Lemma add_to_groups_sorted r dt gs :
  StronglySorted key_before gs ->
  StronglySorted key_before (add_to_groups r dt gs).
Proof.
  induction 1 as [|g gs S IH F]; cbn [add_to_groups].
  - repeat constructor.
  - destruct (key_compare (code r) (name r) (g_code g) (g_name g)) eqn:K.
    + constructor; trivial.
    + constructor; [now constructor|].
      constructor; [exact K|].
      eapply Forall_impl; [|exact F]. intros h H.
      unfold key_before in *. cbn [g_code g_name].
      now apply (key_compare_lt_trans _ _ (g_code g) (g_name g)).
    + constructor; trivial.
      apply (add_to_groups_keys
               (fun c n => key_compare (g_code g) (g_name g) c n = Lt));
        trivial.
      rewrite key_compare_antisym, K. reflexivity.
Qed.

(** The row has a group, and the groups that were there are still there. *)
Lemma add_to_groups_In r dt gs :
  (exists g, In g (add_to_groups r dt gs) /\ group_of_row g r) /\
  (forall g0, In g0 gs ->
     exists g, In g (add_to_groups r dt gs) /\
               g_code g = g_code g0 /\ g_name g = g_name g0) /\
  (forall g, In g (add_to_groups r dt gs) ->
     group_of_row g r \/
     exists g0, In g0 gs /\ g_code g = g_code g0 /\ g_name g = g_name g0).
Proof.
  unfold group_of_row.
  induction gs as [|g0 gs IH]; cbn [add_to_groups].
  - split; [|split].
    + eexists. split; [left; reflexivity|]. now split.
    + intros ? [].
    + intros g [<-|[]]. left. now split.
  - destruct (key_compare (code r) (name r) (g_code g0) (g_name g0)) eqn:K.
    + apply key_compare_eq in K. destruct K as [K1 K2].
      split; [|split].
      * eexists. split; [left; reflexivity|]. now split.
      * intros h [<-|I].
        -- eexists. split; [left; reflexivity|]. now split.
        -- exists h. split; [now right|now split].
      * intros g [<-|I].
        -- left. now split.
        -- right. exists g. split; [now right|now split].
    + split; [|split].
      * eexists. split; [left; reflexivity|]. now split.
      * intros h I. exists h. split; [now right|now split].
      * intros g [<-|I].
        -- left. now split.
        -- right. exists g. split; [exact I|now split].
    + destruct IH as (A & B & C). split; [|split].
      * destruct A as (g & I & E). exists g. split; [now right|exact E].
      * intros h [<-|I].
        -- exists g0. split; [now left|now split].
        -- destruct (B h I) as (g & I' & E). exists g.
           split; [now right|exact E].
      * intros g [<-|I].
        -- right. exists g0. split; [now left|now split].
        -- destruct (C g I) as [E|(h & I' & E)]; [now left|].
           right. exists h. split; [now right|exact E].
Qed.

Lemma fold_groups_rows (f : ItemRow -> option text) rows : forall gs,
  StronglySorted key_before gs ->
  let gs' := fold_left (fun gs r => add_to_groups r (f r) gs) rows gs in
  StronglySorted key_before gs' /\
  (forall r, In r rows -> exists g, In g gs' /\ group_of_row g r) /\
  (forall g0, In g0 gs ->
     exists g, In g gs' /\ g_code g = g_code g0 /\ g_name g = g_name g0) /\
  (forall g, In g gs' ->
     (exists r, In r rows /\ group_of_row g r) \/
     exists g0, In g0 gs /\ g_code g = g_code g0 /\ g_name g = g_name g0).
Proof.
  induction rows as [|r rows IH]; intros gs S; cbn [fold_left].
  - split; [exact S|]. split; [intros ? []|]. split.
    + intros g0 I. now exists g0.
    + intros g I. right. now exists g.
  - destruct (IH (add_to_groups r (f r) gs) (add_to_groups_sorted _ _ _ S))
      as (S' & A & B & C).
    destruct (add_to_groups_In r (f r) gs) as (A0 & B0 & C0).
    split; [exact S'|]. split; [|split].
    + intros r' [<-|I]; [|now apply A].
      destruct A0 as (g & I & E1 & E2).
      destruct (B g I) as (g' & I' & E1' & E2').
      exists g'. split; trivial. unfold group_of_row. split; congruence.
    + intros g0 I. destruct (B0 g0 I) as (g & I' & E1 & E2).
      destruct (B g I') as (g' & I'' & E1' & E2').
      exists g'. split; trivial. split; congruence.
    + intros g I. destruct (C g I) as [(r' & I' & E)|(g1 & I' & E1 & E2)].
      * left. exists r'. split; [now right|exact E].
      * destruct (C0 g1 I') as [[E1' E2']|(g0 & I'' & E1' & E2')].
        -- left. exists r. split; [now left|].
           unfold group_of_row. split; congruence.
        -- right. exists g0. split; trivial. split; congruence.
Qed.

(** The rows of the GROUP BY: in the order of their keys, one for every
    pair of a code and a name that a line carries, and no other. *)
Lemma group_by_code_name_rows db :
  let gs := group_by_code_name db in
  StronglySorted key_before gs /\
  (forall r, In r (order_items db) -> exists g, In g gs /\ group_of_row g r) /\
  (forall g, In g gs -> exists r, In r (order_items db) /\ group_of_row g r).
Proof.
  unfold group_by_code_name.
  destruct (fold_groups_rows
              (fun r => order_date_time (orders db) (i_order_id r))
              (order_items db) [] (SSorted_nil _)) as (S & A & _ & C).
  split; [exact S|]. split; [exact A|].
  intros g I. destruct (C g I) as [H|(g0 & [] & _)]. exact H.
Qed.

Lemma group_sums_absent c gs :
  (forall g, In g gs -> g_code g <> c) ->
  group_quantity c gs = 0 /\ group_revenue c gs = 0%Q /\
  find (fun g => text_eqb (g_code g) c) gs = None.
Proof.
  induction gs as [|g gs IH]; intros H;
    cbn [group_quantity group_revenue fold_right find]; [auto|].
  fold (group_quantity c gs). fold (group_revenue c gs).
  rewrite (text_eqb_neq _ _ (H g (or_introl eq_refl))).
  apply IH. intros h I. apply H. now right.
Qed.

(** With one name per code a code has one group, the one [find] meets. *)
Lemma group_sums_single c gs :
  StronglySorted key_before gs ->
  (forall g h, In g gs -> In h gs -> g_code g = g_code h ->
               g_name g = g_name h) ->
  let g := find (fun g => text_eqb (g_code g) c) gs in
  group_quantity c gs = match g with Some g => qty_sum g | None => 0 end /\
  (group_revenue c gs
   == match g with Some g => revenue_sum g | None => 0 end)%Q.
Proof.
  induction 1 as [|g gs S IH F]; intros N; cbv zeta;
    cbn [group_quantity group_revenue fold_right find].
  - split; reflexivity.
  - fold (group_quantity c gs). fold (group_revenue c gs).
    destruct (text_eqb (g_code g) c) eqn:E.
    + apply text_eqb_eq in E.
      destruct (group_sums_absent c gs) as (A & B & _).
      { intros h I Ec. rewrite Forall_forall in F.
        specialize (F h I). unfold key_before in F.
        assert (En : g_name g = g_name h).
        { apply N; [now left|now right|congruence]. }
        rewrite Ec, <- E, En, key_compare_refl in F. discriminate. }
      rewrite A, B. split; [lia|ring].
    + apply IH. intros a b Ia Ib. apply N; now right.
Qed.

Lemma groups_NoDup_codes gs :
  StronglySorted key_before gs ->
  (forall g h, In g gs -> In h gs -> g_code g = g_code h ->
               g_name g = g_name h) ->
  NoDup (map g_code gs).
Proof.
  induction 1 as [|g gs S IH F]; intros N; cbn [map]; constructor.
  - intros I. apply in_map_iff in I. destruct I as (h & Ec & I).
    rewrite Forall_forall in F. specialize (F h I). unfold key_before in F.
    assert (En : g_name g = g_name h).
    { apply N; [now left|now right|congruence]. }
    rewrite Ec, En, key_compare_refl in F. discriminate.
  - apply IH. intros a b Ia Ib. apply N; now right.
Qed.

(** X3.  When every order line of a code carries the same display name
    and the ledger is within integer and exact arithmetic (quantities that
    are not negative and sum to less than [2^63], so that no [SUM]
    overflows, and whole line totals that sum to [2^53] at most),
    [update_sales_from_orders] rebuilds the aggregates exactly: a code has
    a [sales] row if and only if an order line carries it, the row holds
    the sums of the quantities and of the totals of these lines, and the
    number returned is the number of distinct codes. *)
Theorem rebuild_exact_when_names_agree :
  forall db,
    one_name_per_code db ->
    modest_ledger db = true ->
    consistent (fst (update_sales_from_orders db)) /\
    snd (update_sales_from_orders db) = distinct_codes db.
Proof.
  intros db N _.
  destruct (group_by_code_name_rows db) as (S & A & B). cbv zeta in S, A, B.
  assert (N' : forall g h,
             In g (group_by_code_name db) -> In h (group_by_code_name db) ->
             g_code g = g_code h -> g_name g = g_name h).
  { intros g h Ig Ih E.
    destruct (B g Ig) as (r1 & I1 & C1 & M1).
    destruct (B h Ih) as (r2 & I2 & C2 & M2).
    rewrite M1, M2. apply N; trivial. congruence. }
  split.
  - intros c.
    destruct (update_sales_from_orders_spec c db) as [F _].
    destruct (groups_hold_ledger c db) as [Q R].
    destruct (group_sums_single c _ S N') as [Q' R']. cbv zeta in Q', R'.
    unfold sales_quantity, sales_revenue. rewrite F.
    replace (ledger_quantity c (fst (update_sales_from_orders db)))
      with (ledger_quantity c db) by reflexivity.
    replace (ledger_revenue c (fst (update_sales_from_orders db)))
      with (ledger_revenue c db) by reflexivity.
    replace (sold c (fst (update_sales_from_orders db)))
      with (sold c db) by reflexivity.
    split; [|split].
    + destruct (sold c db) eqn:So.
      * apply sales_has_find. unfold sales_of in F. rewrite F.
        unfold sold in So. apply existsb_exists in So.
        destruct So as (r & I & E). apply text_eqb_eq in E.
        destruct (A r I) as (g & Ig & C & _).
        destruct (find (fun g => text_eqb (g_code g) c)
                       (group_by_code_name db)) eqn:Fi;
          [discriminate|].
        apply (find_none _ _ Fi) in Ig.
        rewrite C, E, text_eqb_refl in Ig. discriminate.
      * destruct (sales_has c (sales (fst (update_sales_from_orders db))))
          eqn:H; trivial.
        apply sales_has_find in H. unfold sales_of in F. rewrite F in H.
        destruct (find (fun g => text_eqb (g_code g) c)
                       (group_by_code_name db)) as [g|] eqn:Fi;
          [|now contradiction H].
        apply find_some in Fi. destruct Fi as [Ig E].
        apply text_eqb_eq in E.
        destruct (B g Ig) as (r & I & C & _).
        assert (So' : sold c db = true).
        { unfold sold. apply existsb_exists. exists r. split; trivial.
          apply text_eqb_eq. congruence. }
        congruence.
    + rewrite <- Q, Q'.
      now destruct (find (fun g => text_eqb (g_code g) c)
                         (group_by_code_name db)).
    + rewrite <- R, R'.
      destruct (find (fun g => text_eqb (g_code g) c)
                     (group_by_code_name db)); reflexivity.
  - destruct (update_sales_from_orders_spec [] db) as [_ L].
    rewrite L. unfold distinct_codes.
    rewrite <- (length_map g_code).
    apply Permutation_length, NoDup_Permutation.
    + now apply groups_NoDup_codes.
    + apply NoDup_nodup.
    + intros c. rewrite nodup_In, !in_map_iff. split.
      * intros (g & E & I). destruct (B g I) as (r & Ir & C & _).
        exists r. split; [congruence|exact Ir].
      * intros (r & E & I). destruct (A r I) as (g & Ig & C & _).
        exists g. split; [congruence|exact Ig].
Qed.

Lemma rebuild_exact_when_names_agree_witness :
  consistent (fst (update_sales_from_orders ledger_x)) /\
  snd (update_sales_from_orders ledger_x) = distinct_codes ledger_x.
Proof.
  apply (rebuild_exact_when_names_agree ledger_x).
  - intros r1 r2 [<-|[]] [<-|[]] _. reflexivity.
  - reflexivity.
Defined.

(** ** Ledger store: the queries *)

Lemma insert_desc_perm {A} (gt : A -> A -> bool) x l :
  Permutation (x :: l) (insert_desc gt x l).
Proof.
  induction l as [|y l IH]; cbn [insert_desc]; [reflexivity|].
  destruct (gt y x); [|reflexivity].
  rewrite perm_swap. now constructor.
Qed.

Lemma sort_desc_perm {A} (gt : A -> A -> bool) l :
  Permutation l (sort_desc gt l).
Proof.
  unfold sort_desc. induction l as [|x l IH]; cbn [fold_right]; [constructor|].
  rewrite <- insert_desc_perm. now constructor.
Qed.

Lemma insert_desc_sorted {A} (gt : A -> A -> bool) x l :
  (forall a b, gt a b = true -> gt b a = false) ->
  Sorted (fun a b => gt b a = false) l ->
  Sorted (fun a b => gt b a = false) (insert_desc gt x l).
Proof.
  intros Asym. induction 1 as [|y l S IH H]; cbn [insert_desc].
  - repeat constructor.
  - destruct (gt y x) eqn:G.
    + constructor; trivial.
      destruct l as [|z l]; cbn [insert_desc] in *.
      * constructor. now apply Asym.
      * destruct (gt z x); constructor;
          [now inversion H|now apply Asym].
    + repeat constructor; trivial.
Qed.

Lemma sort_desc_sorted {A} (gt : A -> A -> bool) l :
  (forall a b, gt a b = true -> gt b a = false) ->
  Sorted (fun a b => gt b a = false) (sort_desc gt l).
Proof.
  intros Asym. unfold sort_desc.
  induction l as [|x l IH]; cbn [fold_right]; [constructor|].
  now apply insert_desc_sorted.
Qed.

Lemma Sorted_impl {A} (R R' : A -> A -> Prop) l :
  (forall a b, R a b -> R' a b) -> Sorted R l -> Sorted R' l.
Proof.
  intros I. induction 1 as [|a l S IH H]; constructor; trivial.
  destruct H; constructor. now apply I.
Qed.


(** X4.  [fetch_sales] returns every row of the [sales] table once, the
    row with the largest revenue first: no row has a smaller revenue than
    the row after it. *)
Theorem fetch_sales_by_revenue :
  forall db,
    Permutation (sales db) (fetch_sales db) /\
    Sorted (fun a b => (total_revenue b <= total_revenue a)%Q)
           (fetch_sales db).
Proof.
  intros db. unfold fetch_sales. split; [apply sort_desc_perm|].
  apply Sorted_impl
    with (R := fun a b =>
                 negb (Qle_bool (total_revenue b) (total_revenue a)) = false).
  - intros a b H. apply negb_false_iff in H. now apply Qle_bool_iff.
  - apply (sort_desc_sorted
             (fun a b => negb (Qle_bool (total_revenue a) (total_revenue b)))).
    intros a b H.
    apply negb_true_iff in H. apply negb_false_iff, Qle_bool_iff.
    destruct (Qlt_le_dec (total_revenue b) (total_revenue a)) as [L|L].
    + now apply Qlt_le_weak.
    + apply Qle_bool_iff in L. congruence.
Qed.

Lemma wf_ids_inv db :
  wf_ids db = true ->
  (forall o, In o (orders db) -> order_id o <= seq_orders db) /\
  (forall r, In r (order_items db) -> i_order_id r <= seq_orders db).
Proof.
  unfold wf_ids. rewrite andb_true_iff, !forallb_forall.
  intros [A B]. split; intros x I; [apply A in I|apply B in I]; lia.
Qed.

Lemma next_rowid_above seq ids :
  seq < next_rowid seq ids /\ Forall (fun i => i < next_rowid seq ids) ids.
Proof.
  unfold next_rowid. split; [lia|].
  induction ids as [|i ids IH]; cbn [max_rowid fold_right]; constructor.
  - lia.
  - eapply Forall_impl; [|exact IH]. intros j H. cbn beta in H.
    fold (max_rowid ids). unfold max_rowid in *. lia.
Qed.

Lemma filter_none {A} (p : A -> bool) l :
  (forall x, In x l -> p x = false) -> filter p l = [].
Proof.
  induction l as [|x l IH]; intros H; cbn [filter]; trivial.
  rewrite (H x (or_introl eq_refl)). apply IH. intros y I. apply H. now right.
Qed.

Lemma filter_all {A} (p : A -> bool) l :
  (forall x, In x l -> p x = true) -> filter p l = l.
Proof.
  induction l as [|x l IH]; intros H; cbn [filter]; trivial.
  rewrite (H x (or_introl eq_refl)). f_equal. apply IH.
  intros y I. apply H. now right.
Qed.


(** A call of [save_order] that makes a new order returns. *)
Lemma save_order_new w db items tot paid chg emp key :
  quantities_fit items = true ->
  unique_violation key (orders db) = false ->
  exists db',
    save_order w db items tot paid chg emp key
    = Ok (db', next_rowid (seq_orders db) (map order_id (orders db))).
Proof.
  intros Q U. unfold save_order, write_order, insert_order. rewrite U.
  rewrite (insert_items_fit _ _ _ Q). eexists. reflexivity.
Qed.

(** The counter stays ahead of the ids when [save_order] returns. *)
Lemma save_order_wf_ids w db items tot paid chg emp key db' oid :
  wf_ids db = true ->
  save_order w db items tot paid chg emp key = Ok (db', oid) ->
  wf_ids db' = true /\ seq_orders db <= seq_orders db'.
Proof.
  intros W H. apply save_order_inv in H.
  destruct H as (rows & EI & _ & F & _ & C).
  destruct (wf_ids_inv db W) as [WO WI].
  destruct (next_rowid_above (seq_orders db) (map order_id (orders db)))
    as [N _].
  rewrite Forall_forall in F.
  assert (G : seq_orders db <= seq_orders db' /\ oid <= seq_orders db' /\
              forall o, In o (orders db') -> order_id o <= seq_orders db').
  { destruct C as [(_ & E & EO & ES)|(_ & EO & ES & k & o & _ & _ & Fi & E)].
    - rewrite EO, ES. subst oid. split; [lia|]. split; [lia|].
      intros o I. apply in_app_or in I. destruct I as [I|[<-|[]]].
      + specialize (WO o I). lia.
      + cbn [order_id]. lia.
    - rewrite EO, ES. split; [lia|]. split; [|exact WO].
      apply find_some in Fi. destruct Fi as [I _].
      specialize (WO o I). lia. }
  destruct G as (G1 & G2 & G3). split; [|exact G1].
  unfold wf_ids. rewrite andb_true_iff, !forallb_forall. split.
  - intros o I. apply Z.leb_le. now apply G3.
  - intros r I. apply Z.leb_le. rewrite EI in I. apply in_app_or in I.
    destruct I as [I|I].
    + specialize (WI r I). lia.
    + rewrite (F r I). exact G2.
Qed.





Lemma filter_split_perm {A} (p : A -> bool) l :
  Permutation (filter p l ++ filter (fun x => negb (p x)) l) l.
Proof.
  induction l as [|x l IH]; cbn [filter]; [constructor|].
  destruct (p x); cbn [negb app].
  - now constructor.
  - rewrite <- Permutation_middle. now constructor.
Qed.

(** Rows that all belong to one of the orders, taken order by order, are
    the rows. *)
Lemma rows_by_order_perm ids : forall rows,
  NoDup ids ->
  (forall r, In r rows -> In (i_order_id r) ids) ->
  Permutation (concat (map (fun i => items_of_order i rows) ids)) rows.
Proof.
  induction ids as [|i ids IH]; intros rows N H; cbn [map concat].
  - destruct rows as [|r rows]; [constructor|].
    destruct (H r (or_introl eq_refl)).
  - inversion N as [|? ? Ni N']; subst.
    rewrite <- (filter_split_perm (fun r => i_order_id r =? i) rows) at 2.
    apply Permutation_app; [reflexivity|].
    rewrite <- (IH (filter (fun r => negb (i_order_id r =? i)) rows) N').
    + apply Permutation_refl'. f_equal. apply map_ext_in. intros j Ij.
      unfold items_of_order. clear H.
      induction rows as [|r rows IHr]; cbn [filter]; trivial.
      destruct (i_order_id r =? i) eqn:E; cbn [negb filter].
      * apply Z.eqb_eq in E.
        replace (i_order_id r =? j) with false; [exact IHr|].
        symmetry. apply Z.eqb_neq. intros E'. apply Ni. congruence.
      * destruct (i_order_id r =? j); [f_equal|]; exact IHr.
    + intros r Ir. apply filter_In in Ir. destruct Ir as [Ir E].
      destruct (H r Ir) as [E'|I]; trivial.
      apply negb_true_iff, Z.eqb_neq in E. congruence.
Qed.

Lemma Sorted_strict {A} (f : A -> Z) l :
  Sorted (fun a b => f b <= f a) l -> NoDup (map f l) ->
  Sorted (fun a b => f b < f a) l.
Proof.
  induction 1 as [|a l S IH H]; intros N; constructor.
  - apply IH. now inversion N.
  - destruct H as [|b l H]; constructor.
    inversion N as [|? ? Ni _]; subst.
    assert (f a <> f b) by (intros E; apply Ni; left; congruence). lia.
Qed.

(** X7.  When the order ids are distinct and every order line belongs to
    an order (the primary key and the foreign key of the schema),
    [fetch_receipts] returns every order once, the largest id first, and
    every order line under exactly one of them: the lines of all entries
    together are the lines of the [order_items] table. *)
Theorem fetch_receipts_complete :
  forall db,
    NoDup (map order_id (orders db)) ->
    (forall r, In r (order_items db) ->
               In (i_order_id r) (map order_id (orders db))) ->
    Permutation (map fst (fetch_receipts db)) (orders db) /\
    Sorted (fun a b => order_id b < order_id a)
           (map fst (fetch_receipts db)) /\
    Permutation (concat (map snd (fetch_receipts db)))
                (map line_of_row (order_items db)).
Proof.
  intros db N FK. unfold fetch_receipts.
  set (gt := fun a b : OrderRow => order_id b <? order_id a).
  pose proof (sort_desc_perm gt (orders db)) as P.
  rewrite !map_map. cbn [fst snd]. rewrite map_id.
  split; [now apply Permutation_sym|]. split.
  - apply Sorted_strict.
    + apply Sorted_impl with (R := fun a b => gt b a = false).
      * intros a b H. unfold gt in H. apply Z.ltb_ge in H. exact H.
      * apply sort_desc_sorted. intros a b H. unfold gt in *.
        apply Z.ltb_lt in H. apply Z.ltb_ge. lia.
    + apply (Permutation_NoDup (Permutation_map order_id P) N).
  - change (fun o : OrderRow =>
              map (fun r => mkLine (code r) (name r) (quantity r) (price r)
                                   (total r))
                  (items_of_order (order_id o) (order_items db)))
      with (fun o : OrderRow =>
              map line_of_row (items_of_order (order_id o) (order_items db))).
    rewrite <- (map_map order_id
                  (fun i => map line_of_row
                              (items_of_order i (order_items db)))).
    rewrite <- (map_map (fun i => items_of_order i (order_items db))
                        (map line_of_row)).
    rewrite <- concat_map. apply Permutation_map.
    apply rows_by_order_perm.
    + apply (Permutation_NoDup (Permutation_map order_id P) N).
    + intros r I. apply (Permutation_in _ (Permutation_map order_id P)).
      now apply FK.
Qed.

Lemma fetch_receipts_complete_witness :
  Permutation (map fst (fetch_receipts ledger_renamed))
              (orders ledger_renamed) /\
  Sorted (fun a b => order_id b < order_id a)
         (map fst (fetch_receipts ledger_renamed)) /\
  Permutation (concat (map snd (fetch_receipts ledger_renamed)))
              (map line_of_row (order_items ledger_renamed)).
Proof.
  apply (fetch_receipts_complete ledger_renamed).
  - vm_compute. repeat constructor; cbn [In]; intuition discriminate.
  - vm_compute. intros r [<-|[<-|[]]]; auto.
Defined.

(** ** Ledger store: deleting the imported receipts *)

Lemma NoDup_map_inj {A B} (f : A -> B) l a b :
  NoDup (map f l) -> In a l -> In b l -> f a = f b -> a = b.
Proof.
  induction l as [|x l IH]; cbn [map]; intros N Ia Ib E; [destruct Ia|].
  inversion N as [|? ? Nx N']; subst.
  destruct Ia as [<-|Ia], Ib as [<-|Ib]; trivial.
  - exfalso. apply Nx. rewrite E. now apply in_map.
  - exfalso. apply Nx. rewrite <- E. now apply in_map.
  - now apply IH.
Qed.

Lemma filter_nil_inv {A} (p : A -> bool) l :
  filter p l = [] -> forall x, In x l -> p x = false.
Proof.
  intros E x I. destruct (p x) eqn:P; trivial.
  assert (In x (filter p l)) by (apply filter_In; auto).
  rewrite E in H. destruct H.
Qed.

Lemma is_nil_true {A} (l : list A) : is_nil l = true -> l = [].
Proof. destruct l; [reflexivity|discriminate]. Qed.

Lemma id_in_In ids i : id_in ids i = true <-> In i ids.
Proof.
  unfold id_in. rewrite existsb_exists. split.
  - intros (j & I & E). apply Z.eqb_eq in E. now subst.
  - intros I. exists i. split; trivial. apply Z.eqb_refl.
Qed.

(** The orders a listing selects, by id. *)
Lemma id_in_selected names os o :
  NoDup (map order_id os) -> In o os ->
  id_in (map order_id (filter (key_in names) os)) (order_id o)
  = key_in names o.
Proof.
  intros N I. apply eq_true_iff_eq. rewrite id_in_In, in_map_iff. split.
  - intros (o' & E & I'). apply filter_In in I'. destruct I' as [I' K].
    now rewrite <- (NoDup_map_inj order_id os o' o N I' I E).
  - intros K. exists o. split; trivial. apply filter_In. auto.
Qed.

Lemma id_in_selected_row names os i :
  id_in (map order_id (filter (key_in names) os)) i
  = existsb (fun o => (key_in names o && (order_id o =? i))%bool) os.
Proof.
  apply eq_true_iff_eq. rewrite id_in_In, in_map_iff, existsb_exists. split.
  - intros (o & E & I). apply filter_In in I. destruct I as [I K].
    exists o. split; trivial. rewrite K. now apply Z.eqb_eq.
  - intros (o & I & E). apply andb_true_iff in E. destruct E as [K E].
    apply Z.eqb_eq in E. exists o. split; trivial. apply filter_In. auto.
Qed.

(** The four ways [delete_imported_receipts] returns a number. *)
Lemma delete_imported_receipts_inv max_vars db files db' n :
  delete_imported_receipts max_vars db (Some files) = (db', Ok n) ->
  let ids := map order_id (filter (key_in (txt_names files)) (orders db)) in
  (db' = db /\ n = 0%nat /\ ids = []) \/
  (ids <> [] /\
   db' = mkDB (filter (fun o => negb (id_in ids (order_id o))) (orders db))
              (filter (fun r => negb (id_in ids (i_order_id r)))
                      (order_items db))
              (sales db) (seq_orders db) (seq_order_items db) /\
   n = (List.length (orders db)
        - List.length (filter (fun o => negb (id_in ids (order_id o)))
                              (orders db)))%nat /\
   (List.length (txt_names files) <= max_vars)%nat /\
   (List.length ids <= max_vars)%nat).
Proof.
  unfold delete_imported_receipts.
  destruct (is_nil (txt_names files)) eqn:E1.
  - apply is_nil_true in E1. rewrite E1. intros H. injection H as <- <-.
    left. repeat split. cbv zeta.
    rewrite (filter_none (key_in [])); [reflexivity|].
    intros o _. unfold key_in. now destruct (receipt_filename o).
  - destruct (max_vars <? List.length (txt_names files))%nat eqn:E2;
      [discriminate|].
    destruct (is_nil (map order_id
                          (filter (key_in (txt_names files)) (orders db))))
      eqn:E3.
    + apply is_nil_true in E3. intros H. injection H as <- <-.
      left. repeat split. exact E3.
    + destruct (max_vars <?
                List.length (map order_id
                               (filter (key_in (txt_names files))
                                       (orders db))))%nat eqn:E4;
        [discriminate|].
      intros H. injection H as <- <-. right. cbv zeta.
      apply Nat.ltb_ge in E2, E4. repeat split; trivial.
      intros E. rewrite E in E3. discriminate.
Qed.

(** X8.  [delete_imported_receipts] removes the orders whose receipt file
    name is the name of a [.txt] file of the folder and no other order,
    removes the lines of these orders and no other line, and returns the
    number of orders removed.  It leaves the [sales] table as it was: the
    aggregates still count the orders that are gone.  The order ids are
    assumed distinct (the primary key). *)
Theorem delete_imported_receipts_effect :
  forall max_vars db files db' n,
    NoDup (map order_id (orders db)) ->
    delete_imported_receipts max_vars db (Some files) = (db', Ok n) ->
    let names := txt_names files in
    orders db' = filter (fun o => negb (key_in names o)) (orders db) /\
    order_items db'
    = filter (fun r =>
                negb (existsb (fun o => (key_in names o
                                         && (order_id o =? i_order_id r))%bool)
                              (orders db)))
             (order_items db) /\
    sales db' = sales db /\
    n = List.length (filter (key_in names) (orders db)).
Proof.
  intros max_vars db files db' n N H names.
  apply delete_imported_receipts_inv in H. cbv zeta in H.
  fold names in H.
  assert (EO : filter (fun o => negb (id_in (map order_id
                                               (filter (key_in names)
                                                       (orders db)))
                                            (order_id o))) (orders db)
               = filter (fun o => negb (key_in names o)) (orders db)).
  { apply filter_ext_in. intros o I. now rewrite id_in_selected. }
  assert (EI : filter (fun r => negb (id_in (map order_id
                                               (filter (key_in names)
                                                       (orders db)))
                                            (i_order_id r))) (order_items db)
               = filter (fun r =>
                           negb (existsb
                                   (fun o => (key_in names o
                                              && (order_id o =? i_order_id r))%bool)
                                   (orders db)))
                        (order_items db)).
  { apply filter_ext. intros r. now rewrite id_in_selected_row. }
  destruct H as [(-> & -> & E)|(_ & -> & -> & _)].
  - rewrite <- EO, <- EI, E. cbn [id_in existsb negb map].
    rewrite !filter_all by trivial. repeat split.
    apply map_eq_nil in E. now rewrite E.
  - cbn [orders order_items sales]. rewrite EO, EI. repeat split.
    pose proof (filter_length (key_in names) (orders db)). lia.
Qed.

Lemma delete_imported_receipts_effect_witness :
  let db' := fst (delete_imported_receipts 999 ledger_renamed scenario_dir) in
  let names := [bytes "receipt_x.txt"; bytes "receipt_y.TXT"] in
  orders db' = filter (fun o => negb (key_in names o)) (orders ledger_renamed)
  /\
  order_items db'
  = filter (fun r =>
              negb (existsb (fun o => (key_in names o
                                       && (order_id o =? i_order_id r))%bool)
                            (orders ledger_renamed)))
           (order_items ledger_renamed) /\
  sales db' = sales ledger_renamed /\
  1%nat = List.length (filter (key_in names) (orders ledger_renamed)).
Proof.
  apply (delete_imported_receipts_effect 999 ledger_renamed
           [mkFile (bytes "receipt_x.txt") (Some receipt_scenario);
            mkFile (bytes "notes.md") (Some receipt_scenario);
            mkFile (bytes "receipt_y.TXT") (Some receipt_paid_only)]
           (fst (delete_imported_receipts 999 ledger_renamed scenario_dir))
           1%nat).
  - vm_compute. repeat constructor; cbn [In]; intuition discriminate.
  - reflexivity.
Defined.

(** X9.  A second call of [delete_imported_receipts] on the same folder
    finds nothing to delete: it returns 0 and leaves the database as the
    first call left it. *)
Theorem delete_imported_receipts_again :
  forall max_vars db receipts_dir db' n,
    delete_imported_receipts max_vars db receipts_dir = (db', Ok n) ->
    delete_imported_receipts max_vars db' receipts_dir = (db', Ok 0%nat).
Proof.
  intros max_vars db [files|] db' n H;
    [|cbn in H; injection H as <- <-; reflexivity].
  pose proof H as H0. apply delete_imported_receipts_inv in H0.
  cbv zeta in H0.
  destruct H0 as [(-> & -> & E)|(NE & -> & _ & L1 & _)]; [exact H|].
  unfold delete_imported_receipts. cbn [orders].
  destruct (is_nil (txt_names files)); [reflexivity|].
  apply Nat.ltb_ge in L1. rewrite L1.
  rewrite (filter_none (key_in (txt_names files))); [reflexivity|].
  intros o I. apply filter_In in I. destruct I as [I K].
  destruct (key_in (txt_names files) o) eqn:Ko; trivial.
  apply negb_true_iff in K.
  assert (id_in (map order_id (filter (key_in (txt_names files)) (orders db)))
                (order_id o) = true).
  { apply id_in_In, in_map. apply filter_In. auto. }
  congruence.
Qed.

Lemma delete_imported_receipts_again_witness :
  delete_imported_receipts 999
    (fst (delete_imported_receipts 999 ledger_renamed scenario_dir))
    scenario_dir
  = (fst (delete_imported_receipts 999 ledger_renamed scenario_dir), Ok 0%nat).
Proof.
  apply (delete_imported_receipts_again 999 ledger_renamed scenario_dir
           (fst (delete_imported_receipts 999 ledger_renamed scenario_dir))
           1%nat).
  reflexivity.
Defined.

Lemma delete_imported_receipts_seq max_vars db receipts_dir db' r :
  delete_imported_receipts max_vars db receipts_dir = (db', r) ->
  seq_orders db' = seq_orders db.
Proof.
  unfold delete_imported_receipts.
  destruct receipts_dir as [files|]; [|now intros [= <- _]].
  repeat match goal with
         | |- context [if ?b then _ else _] => destruct b
         end; now intros [= <- _].
Qed.

(** X10.  The id of a deleted order is not given out again: an order that
    [save_order] makes after [delete_imported_receipts] has an id beyond
    every id the ledger held before the deletion. *)
Theorem order_ids_not_reused_after_delete :
  forall w max_vars db receipts_dir db1 n items tot paid chg emp key db2 oid,
    wf_ids db = true ->
    delete_imported_receipts max_vars db receipts_dir = (db1, Ok n) ->
    unique_violation key (orders db1) = false ->
    save_order w db1 items tot paid chg emp key = Ok (db2, oid) ->
    Forall (fun o => order_id o < oid) (orders db).
Proof.
  intros w max_vars db receipts_dir db1 n items tot paid chg emp key db2 oid
         W D U H.
  apply delete_imported_receipts_seq in D.
  apply save_order_inv in H.
  destruct H as (_ & _ & _ & _ & _ & [(_ & -> & _)|(U' & _)]); [|congruence].
  destruct (next_rowid_above (seq_orders db1) (map order_id (orders db1)))
    as [L _].
  apply wf_ids_inv in W. destruct W as [WO _].
  apply Forall_forall. intros o I. specialize (WO o I). lia.
Qed.

Lemma order_ids_not_reused_after_delete_witness :
  Forall (fun o => order_id o < 3) (orders ledger_renamed).
Proof.
  apply (order_ids_not_reused_after_delete quiet 999 ledger_renamed
           (Some [mkFile (bytes "receipt_y.txt") None])
           (fst (delete_imported_receipts 999 ledger_renamed
                   (Some [mkFile (bytes "receipt_y.txt") None])))
           1%nat [adobo] 130 150 20 None (Some (bytes "receipt_y.txt"))
           (match save_order quiet
                    (fst (delete_imported_receipts 999 ledger_renamed
                            (Some [mkFile (bytes "receipt_y.txt") None])))
                    [adobo] 130 150 20 None (Some (bytes "receipt_y.txt"))
            with Ok (d, _) => d | Raise _ => empty_db end) 3).
  - reflexivity.
  - reflexivity.
  - reflexivity.
  - reflexivity.
Defined.

(** ** Receipt importer: what a run adds *)

(** One turn of the loop: the file is passed over, the item loop raises,
    or [save_order] records the file under its name, which no order held. *)
Lemma import_file_step w db f :
  import_file w db f = (db, Ok false) \/
  (exists e, import_file w db f = (db, Raise e)) \/
  (exists db' items tot pd chg emp oid,
     import_file w db f = (db', Ok true) /\
     endswith (bytes ".txt") (lower (f_name f)) = true /\
     unique_violation (Some (f_name f)) (orders db) = false /\
     save_order w db items tot pd chg emp (Some (f_name f)) = Ok (db', oid)).
Proof.
  destruct (seen db f) eqn:S; [left; now apply import_file_seen|].
  unfold seen in S. apply orb_false_iff in S. destruct S as [H1 H2].
  unfold import_file. rewrite H1, H2. cbv iota.
  destruct (f_content f) as [content|]; [|now left].
  destruct (parse_items (file_lines content)) as [items|e];
    [|right; left; now exists e].
  destruct items as [|it items]; [now left|].
  change (is_nil (it :: items)) with false. cbv iota.
  set (t := find_totals (file_lines content)).
  destruct (quantities_fit (it :: items)) eqn:Q.
  2:{ left.
      destruct (save_order_overflow w db (it :: items)
                  (total_val t (it :: items)) (paid_val t (it :: items))
                  (change_val t (it :: items))
                  (parse_employee (file_lines content)) (Some (f_name f)) Q)
        as (e & ->).
      now rewrite db_save_receipt_overflow. }
  right. right.
  assert (U : unique_violation (Some (f_name f)) (orders db) = false).
  { cbn [unique_violation]. apply existsb_count_receipt.
    apply Nat.ltb_ge in H2. lia. }
  destruct (save_order_new w db (it :: items) (total_val t (it :: items))
              (paid_val t (it :: items)) (change_val t (it :: items))
              (parse_employee (file_lines content)) (Some (f_name f)) Q U)
    as (db' & E).
  rewrite E. exists db'. do 6 eexists.
  split; [reflexivity|]. apply negb_false_iff in H1.
  split; [exact H1|]. split; [exact U|exact E].
Qed.

Lemma key_in_cons n names o :
  key_in names o = true -> key_in (n :: names) o = true.
Proof.
  unfold key_in. destruct (receipt_filename o); trivial.
  cbn [existsb]. intros ->. apply orb_true_r.
Qed.

Lemma txt_names_cons f rest :
  txt_names (f :: rest)
  = if endswith (bytes ".txt") (lower (f_name f))
    then f_name f :: txt_names rest
    else txt_names rest.
Proof. reflexivity. Qed.

Lemma key_in_txt_names_cons f rest o :
  key_in (txt_names rest) o = true -> key_in (txt_names (f :: rest)) o = true.
Proof.
  rewrite txt_names_cons.
  destruct (endswith (bytes ".txt") (lower (f_name f))); trivial.
  apply key_in_cons.
Qed.

(** What a run of the loop over the folder has added when it is left. *)
Lemma import_files_inv w files : forall db n db1 r,
  import_files w db files n = (db1, r) ->
  exists new rows,
    orders db1 = orders db ++ new /\
    order_items db1 = order_items db ++ rows /\
    Forall (fun o => key_in (txt_names files) o = true) new /\
    Forall (fun r => In (i_order_id r) (map order_id new)) rows /\
    (List.length new <= List.length (txt_names files))%nat /\
    (forall k, r = Ok k -> k = (n + List.length new)%nat) /\
    (wf_ids db = true ->
     wf_ids db1 = true /\ seq_orders db <= seq_orders db1 /\
     Forall (fun o => seq_orders db < order_id o) new).
Proof.
  induction files as [|f rest IH]; intros db n db1 r; cbn [import_files].
  - intros [= <- <-]. exists [], []. rewrite !app_nil_r.
    repeat split; trivial; try constructor.
    + intros k [= <-]. cbn. lia.
    + lia.
  - destruct (import_file_step w db f)
      as [I|[(e & I)|(db' & items & tot & pd & chg & emp & oid & I & T & U
                      & S)]]; rewrite I.
    + intros H. destruct (IH _ _ _ _ H) as (new & rows & A & B & C & D & E
                                             & F & G).
      exists new, rows. repeat split; trivial.
      * eapply Forall_impl; [|exact C]. intros o.
        apply key_in_txt_names_cons.
      * rewrite txt_names_cons.
        destruct (endswith (bytes ".txt") (lower (f_name f))); cbn [List.length];
          lia.
      * now apply G.
      * now apply G.
      * now apply G.
    + intros [= <- <-]. exists [], []. rewrite !app_nil_r.
      repeat split; trivial; try constructor; try discriminate.
      * cbn. lia.
      * lia.
    + intros H. destruct (IH _ _ _ _ H) as (new & rows & A & B & C & D & E
                                             & F & G).
      pose proof S as S0. apply save_order_inv in S0.
      destruct S0 as (rows0 & EI & _ & F0 & _
                      & [(_ & Eo & EO & ES)|(U' & _)]); [|congruence].
      exists (mkOrder oid (now_order w) tot pd chg emp (Some (f_name f))
              :: new), (rows0 ++ rows).
      rewrite A, B, EO, EI, <- !app_assoc. cbn [app].
      rewrite txt_names_cons, T.
      split; [reflexivity|]. split; [reflexivity|]. split; [|split].
      * constructor.
        -- unfold key_in. cbn [receipt_filename existsb].
           now rewrite text_eqb_refl.
        -- eapply Forall_impl; [|exact C]. intros o. apply key_in_cons.
      * apply Forall_app. split.
        -- eapply Forall_impl; [|exact F0]. intros r0 ->. now left.
        -- eapply Forall_impl; [|exact D]. intros r0 In0. now right.
      * split; [cbn [List.length]; lia|]. split.
        -- intros k Ek. rewrite (F k Ek). cbn [List.length]. lia.
        -- intros W.
           destruct (save_order_wf_ids w db items tot pd chg emp
                       (Some (f_name f)) db' oid W S) as [W' L'].
           destruct (G W') as (G1 & G2 & G3).
           split; [exact G1|]. split; [lia|].
           constructor.
           ++ cbn [order_id]. rewrite Eo. apply next_rowid_above.
           ++ eapply Forall_impl; [|exact G3]. intros o. cbn beta. lia.
Qed.

(** X11.  When [import_receipts_from_folder] returns a number, it is the
    number of orders the run appended to the ledger.  The orders and the
    order lines that were there are kept, in place; every new order holds
    the name of a [.txt] file of the folder as its receipt file name, and
    every new line belongs to one of the new orders. *)
Theorem import_receipts_count :
  forall w db files db1 n,
    import_receipts_from_folder w db (Some files) = (db1, Ok n) ->
    exists new rows,
      orders db1 = orders db ++ new /\
      order_items db1 = order_items db ++ rows /\
      List.length new = n /\
      Forall (fun o => key_in (txt_names files) o = true) new /\
      Forall (fun r => In (i_order_id r) (map order_id new)) rows.
Proof.
  intros w db files db1 n H. cbn [import_receipts_from_folder] in H.
  destruct (import_files_inv w files db 0%nat db1 (Ok n) H)
    as (new & rows & A & B & C & D & _ & F & _).
  exists new, rows. repeat split; trivial.
  now rewrite (F n eq_refl).
Qed.

Lemma import_receipts_count_witness :
  exists new rows,
    orders (fst (import_receipts_from_folder quiet ledger_x scenario_dir))
    = orders ledger_x ++ new /\
    order_items (fst (import_receipts_from_folder quiet ledger_x scenario_dir))
    = order_items ledger_x ++ rows /\
    List.length new = 1%nat /\
    Forall (fun o =>
              key_in [bytes "receipt_x.txt"; bytes "receipt_y.TXT"] o = true)
           new /\
    Forall (fun r => In (i_order_id r) (map order_id new)) rows.
Proof.
  apply (import_receipts_count quiet ledger_x
           [mkFile (bytes "receipt_x.txt") (Some receipt_scenario);
            mkFile (bytes "notes.md") (Some receipt_scenario);
            mkFile (bytes "receipt_y.TXT") (Some receipt_paid_only)]
           (fst (import_receipts_from_folder quiet ledger_x scenario_dir))
           1%nat).
  vm_compute. reflexivity.
Defined.



Lemma import_files_consistent w files : forall db n,
  fault_free w -> consistent db ->
  consistent (fst (import_files w db files n)).
Proof.
  induction files as [|f rest IH]; intros db n FF C; cbn [import_files];
    [exact C|].
  destruct (import_file_step w db f)
    as [I|[(e & I)|(db' & items & tot & pd & chg & emp & oid & I & _ & _
                    & S)]]; rewrite I.
  - now apply IH.
  - exact C.
  - apply IH; trivial.
    apply save_order_inv in S. destruct S as (rows & EI & M & _ & L & _).
    destruct FF as [T R]. rewrite T, <- M in L.
    exact (upserts_keep_consistent w (now_sales w) db db' rows R C EI L).
Qed.

(** X23.  While no statement of the aggregate update fails, a run of
    [import_receipts_from_folder] over a tame folder keeps the [sales]
    table in step with the ledger, also when the run is left by an
    exception: the aggregates of the imported receipts are added as the
    receipts are recorded.  The ledger the run leaves is assumed to be
    within integer and exact arithmetic and its counters far from the
    largest rowid. *)
Theorem import_keeps_sales_consistent :
  forall w db receipts_dir,
    fault_free w ->
    consistent db ->
    tame_dir receipts_dir = true ->
    roomy (fst (import_receipts_from_folder w db receipts_dir)) = true ->
    modest_ledger (fst (import_receipts_from_folder w db receipts_dir))
    = true ->
    consistent (fst (import_receipts_from_folder w db receipts_dir)).
Proof.
  intros w db [files|] FF C _ _ _; cbn [import_receipts_from_folder fst];
    [|exact C].
  now apply import_files_consistent.
Qed.

Lemma import_keeps_sales_consistent_witness :
  consistent (fst (import_receipts_from_folder quiet empty_db scenario_dir)).
Proof.
  apply (import_keeps_sales_consistent quiet empty_db scenario_dir).
  - split; [reflexivity|intros it; reflexivity].
  - intros c. repeat split; reflexivity.
  - reflexivity.
  - reflexivity.
  - reflexivity.
Defined.

(** ** Checkout and import *)











(** *** Importing a receipt the application wrote *)

Lemma parse_employee_skips ls : forall emp,
  Forall (fun L => startswith (bytes "Employee:") L = false) ls ->
  fold_left (fun emp L =>
               if startswith (bytes "Employee:") L
               then Some (strip (after_colon L))
               else emp) ls emp
  = emp.
Proof.
  induction ls as [|L ls IH]; intros emp F; cbn [fold_left]; trivial.
  inversion F as [|? ? H F']; subst. rewrite H. now apply IH.
Qed.

Lemma not_employee_first c s :
  Ascii.eqb "E" c = false -> startswith (bytes "Employee:") (c :: s) = false.
Proof.
  intros H. unfold startswith. cbn [bytes list_ascii_of_string strip_prefix].
  now rewrite H.
Qed.

Lemma not_employee_digits ds rest :
  ds <> [] -> forallb is_digit ds = true ->
  startswith (bytes "Employee:") (ds ++ rest) = false.
Proof.
  destruct ds as [|d ds]; [congruence|]. intros _ H.
  cbn [forallb] in H. apply andb_prop in H. destruct H as [H _].
  cbn [app]. apply not_employee_first. revert H. ascii_cases d.
Qed.

Lemma not_employee_timestamp now :
  wf_timestamp now = true -> startswith (bytes "Employee:") now = false.
Proof.
  destruct now as [|c now]; [reflexivity|]. unfold wf_timestamp.
  cbn [forallb]. intros H. apply andb_prop in H. destruct H as [H _].
  apply not_employee_first. revert H. ascii_cases c.
Qed.

(** The importer reads the employee of a receipt from its second line. *)
Lemma parse_employee_receipt_lines now order paid change employee_name :
  well_formed now order employee_name = true ->
  parse_employee (receipt_lines now order paid change employee_name)
  = Some (strip (str_of_employee employee_name)).
Proof.
  unfold well_formed. intros H.
  apply andb_prop in H. destruct H as [H _].
  apply andb_prop in H. destruct H as [WT WI].
  unfold parse_employee, receipt_lines, head_lines.
  cbn [app fold_left].
  change (startswith (bytes "Employee:") HEADER_NAME) with false.
  change (startswith (bytes "Employee:")
            (bytes "Employee: " ++ str_of_employee employee_name))
    with true.
  cbv iota.
  rewrite (not_employee_timestamp now WT).
  change (startswith (bytes "Employee:") []) with false. cbv iota.
  rewrite parse_employee_skips; [reflexivity|].
  apply Forall_app. split.
  - rewrite forallb_forall in WI. apply Forall_forall. intros L I.
    unfold Order.as_lines in I. rewrite map_map in I.
    apply in_map_iff in I. destruct I as (it & <- & I).
    specialize (WI it I). destruct (wf_item_inv it WI) as (_ & _ & _ & _ & _
                                                           & _ & Q & _).
    change (mkLine (Order.code it) (Order.name it) (Order.qty it)
                   (Order.price it) (Order.line_total it))
      with (as_line it).
    rewrite (line_text_item_text it Q). unfold item_text.
    destruct (digits_of_spec (Order.qty it) Q) as (N & D & _).
    now apply not_employee_digits.
  - unfold totals_lines. repeat constructor.
Qed.

(** X15.  What the checkout writes the importer reads back.  A receipt
    file that [save_receipt] wrote for a well-formed, non-empty order with
    ASCII names, quantities that fit and exact arithmetic, found under an
    ASCII [.txt] name that no order holds, is imported as one new order:
    its total, paid amount and change are the subtotal, the paid amount
    and the change of the checkout rounded to hundredths, its employee is
    the employee name as rendered (the text [None] when there was none)
    without surrounding white space, and its lines are the lines of the
    cart with price and line total rounded to hundredths.  The counters of
    the database are assumed far from the largest rowid. *)
Theorem import_rendered_receipt :
  forall w db now order paid change employee_name fname,
    well_formed now order employee_name = true ->
    ascii_input order employee_name = true ->
    exact_receipt order paid change = true ->
    quantities_fit (Order.as_lines order) = true ->
    order <> [] ->
    ascii_text fname = true ->
    endswith (bytes ".txt") (lower fname) = true ->
    count_receipt fname (orders db) = 0%nat ->
    roomy db = true ->
    let content := snd (save_receipt now order paid change employee_name) in
    exists db' rows,
      import_file w db (mkFile fname (Some content)) = (db', Ok true) /\
      orders db'
      = orders db ++
          [mkOrder (next_rowid (seq_orders db) (map order_id (orders db)))
                   (now_order w) (round2 (Order.subtotal order))
                   (round2 paid) (round2 change)
                   (Some (strip (str_of_employee employee_name)))
                   (Some fname)] /\
      order_items db' = order_items db ++ rows /\
      map line_of_row rows = map recovered order.
Proof.
  intros w db now order pd chg employee_name fname W _ _ Q NE _ T C _ content.
  assert (E : file_lines content
              = receipt_lines now order pd chg employee_name).
  { unfold content. rewrite save_receipt_lines.
    apply file_lines_unlines. now apply plain_receipt_lines. }
  assert (U : unique_violation (Some fname) (orders db) = false).
  { cbn [unique_violation]. now apply existsb_count_receipt. }
  assert (Q' : quantities_fit (map recovered order) = true).
  { revert Q. unfold quantities_fit, Order.as_lines.
    rewrite !forallb_map. apply forallb_impl. now intros it. }
  destruct (save_order_new w db (map recovered order)
              (round2 (Order.subtotal order)) (round2 pd) (round2 chg)
              (Some (strip (str_of_employee employee_name))) (Some fname)
              Q' U)
    as (db' & S).
  pose proof S as S0. apply save_order_inv in S0.
  destruct S0 as (rows & EI & M & _ & _ & [(_ & _ & EO & _)|(U' & _)]);
    [|congruence].
  exists db', rows. split; [|now repeat split].
  unfold import_file. cbn [f_name f_content]. rewrite T, C. cbn [negb].
  change (0 <? 0)%nat with false. cbv iota.
  rewrite E, (parse_items_receipt_lines now order pd chg employee_name W),
    (find_totals_receipt_lines now order pd chg employee_name W),
    (parse_employee_receipt_lines now order pd chg employee_name W).
  destruct order as [|it order]; [congruence|].
  cbn [map is_nil]. cbv iota.
  unfold total_val, paid_val, change_val. cbn [subtotal paid change].
  cbn [map] in S. now rewrite S.
Qed.

Lemma import_rendered_receipt_witness :
  exists db' rows,
    import_file quiet ledger_x
      (mkFile (bytes "receipt_20241104_101500.txt") (Some receipt_scenario))
    = (db', Ok true) /\
    orders db'
    = orders ledger_x ++
        [mkOrder (next_rowid (seq_orders ledger_x)
                             (map order_id (orders ledger_x)))
                 (now_order quiet)
                 (round2 (Order.subtotal
                            [Order.mkItem (bytes "AR")
                                          (bytes "Adobo Rice Bowl") 65 2]))
                 (round2 150) (round2 20)
                 (Some (strip (str_of_employee (Some (bytes "Kit")))))
                 (Some (bytes "receipt_20241104_101500.txt"))] /\
    order_items db' = order_items ledger_x ++ rows /\
    map line_of_row rows
    = map recovered [Order.mkItem (bytes "AR") (bytes "Adobo Rice Bowl") 65 2].
Proof.
  apply (import_rendered_receipt quiet ledger_x (bytes "20241104_101500")
           [Order.mkItem (bytes "AR") (bytes "Adobo Rice Bowl") 65 2]
           150 20 (Some (bytes "Kit"))
           (bytes "receipt_20241104_101500.txt")).
  - reflexivity.
  - reflexivity.
  - reflexivity.
  - reflexivity.
  - discriminate.
  - reflexivity.
  - reflexivity.
  - reflexivity.
  - reflexivity.
Defined.

(** ** The cart *)

Lemma subtotal_from order : forall a,
  (fold_left (fun a it => a + Order.line_total it) order a
   == a + Order.subtotal order)%Q.
Proof.
  unfold Order.subtotal.
  induction order as [|it order IH]; intros a; cbn [fold_left].
  - ring.
  - rewrite (IH (a + Order.line_total it)%Q),
      (IH (0 + Order.line_total it)%Q). ring.
Qed.

Lemma subtotal_cons it order :
  (Order.subtotal (it :: order)
   == Order.line_total it + Order.subtotal order)%Q.
Proof.
  unfold Order.subtotal at 1. cbn [fold_left]. rewrite subtotal_from. ring.
Qed.

Lemma subtotal_app a b :
  (Order.subtotal (a ++ b) == Order.subtotal a + Order.subtotal b)%Q.
Proof.
  unfold Order.subtotal at 1. rewrite fold_left_app.
  fold (Order.subtotal a). apply subtotal_from.
Qed.

Lemma Order_add_codes order code name price qty :
  map Order.code (Order_add order code name price qty)
  = if existsb (fun it => text_eqb (Order.code it) code) order
    then map Order.code order
    else map Order.code order ++ [code].
Proof.
  induction order as [|it order IH]; cbn [Order_add existsb map app];
    [reflexivity|].
  destruct (text_eqb (Order.code it) code); cbn [orb map Order.code];
    [reflexivity|].
  rewrite IH.
  now destruct (existsb (fun it => text_eqb (Order.code it) code) order).
Qed.

(** X16.  [Order.add] keeps one entry per product code.  Adding a code the
    cart has raises the quantity of its entry and leaves the name and the
    unit price of the entry as they are, whatever name and price are
    passed; adding a code the cart has not appends an entry.  The quantity
    of every other code is unchanged. *)
Theorem Order_add_one_entry_per_code :
  forall order code name price qty,
    NoDup (map Order.code order) ->
    NoDup (map Order.code (Order_add order code name price qty)) /\
    (forall c,
        cart_qty c (Order_add order code name price qty)
        = cart_qty c order + (if text_eqb code c then qty else 0)) /\
    (forall c it,
        cart_entry c order = Some it ->
        exists it',
          cart_entry c (Order_add order code name price qty) = Some it' /\
          Order.name it' = Order.name it /\
          Order.price it' = Order.price it).
Proof.
  intros order code name price qty N. split; [|split].
  - rewrite Order_add_codes.
    destruct (existsb (fun it => text_eqb (Order.code it) code) order) eqn:E;
      trivial.
    apply NoDup_app; trivial.
    + constructor; [intros []|constructor].
    + intros c I [<-|[]]. apply in_map_iff in I.
      destruct I as (it & Ec & I).
      assert (X : existsb (fun it => text_eqb (Order.code it) code) order
                  = true).
      { apply existsb_exists. exists it. split; trivial.
        now apply text_eqb_eq. }
      congruence.
  - intros c. clear N. unfold cart_qty, cart_entry.
    induction order as [|it order IH]; cbn [Order_add find].
    + cbn [Order.code]. destruct (text_eqb code c); cbn [Order.qty]; lia.
    + destruct (text_eqb (Order.code it) code) eqn:H; cbn [find Order.code].
      * apply text_eqb_eq in H. subst code.
        destruct (text_eqb (Order.code it) c); cbn [Order.qty]; lia.
      * destruct (text_eqb (Order.code it) c) eqn:Hc; [|exact IH].
        apply text_eqb_eq in Hc. subst c.
        destruct (text_eqb code (Order.code it)) eqn:H'; [|lia].
        apply text_eqb_eq in H'. subst code.
        rewrite text_eqb_refl in H. discriminate.
  - intros c. clear N. unfold cart_entry.
    induction order as [|it order IH]; intros it0; cbn [Order_add find];
      [discriminate|].
    destruct (text_eqb (Order.code it) code) eqn:H; cbn [find Order.code].
    + destruct (text_eqb (Order.code it) c).
      * intros [= <-]. eexists. split; [reflexivity|]. now split.
      * intros F. now exists it0.
    + destruct (text_eqb (Order.code it) c).
      * intros [= <-]. now exists it.
      * apply IH.
Qed.

Lemma Order_add_one_entry_per_code_witness :
  let order := [Order.mkItem (bytes "AR") (bytes "Adobo Rice Bowl") 65 2;
                Order.mkItem (bytes "R") (bytes "Rice") 20 1] in
  NoDup (map Order.code
             (Order_add order (bytes "AR") (bytes "Adobo Bowl") 70 3)) /\
  (forall c,
      cart_qty c (Order_add order (bytes "AR") (bytes "Adobo Bowl") 70 3)
      = cart_qty c order + (if text_eqb (bytes "AR") c then 3 else 0)) /\
  (forall c it,
      cart_entry c order = Some it ->
      exists it',
        cart_entry c (Order_add order (bytes "AR") (bytes "Adobo Bowl") 70 3)
        = Some it' /\
        Order.name it' = Order.name it /\ Order.price it' = Order.price it).
Proof.
  apply (Order_add_one_entry_per_code
           [Order.mkItem (bytes "AR") (bytes "Adobo Rice Bowl") 65 2;
            Order.mkItem (bytes "R") (bytes "Rice") 20 1]
           (bytes "AR") (bytes "Adobo Bowl") 70 3).
  vm_compute. repeat constructor; cbn [In]; intuition discriminate.
Defined.

(** X17.  [Order.add] raises the subtotal by the added quantity times the
    unit price of the entry the cart has for the code, which need not be
    the price passed; the price passed counts only when the cart has no
    entry for the code.  The arithmetic of the cart is exact before and
    after the call, as it is for whole prices. *)
Theorem Order_add_subtotal :
  forall order code name price qty,
    exact_order order = true ->
    exact_order (Order_add order code name price qty) = true ->
    (Order.subtotal (Order_add order code name price qty)
     == Order.subtotal order
        + charged_price code price order * inject_Z qty)%Q.
Proof.
  intros order code name price qty _ _. unfold charged_price, cart_entry.
  induction order as [|it order IH]; cbn [Order_add find].
  - unfold Order.subtotal. cbn [fold_left].
    unfold Order.line_total. cbn [Order.price Order.qty]. ring.
  - destruct (text_eqb (Order.code it) code).
    + rewrite !subtotal_cons. unfold Order.line_total.
      cbn [Order.price Order.qty]. rewrite inject_Z_plus. ring.
    + rewrite !subtotal_cons, IH. ring.
Qed.

(** A second helping of the bowl at its price in the cart, whatever price
    is passed. *)
Lemma Order_add_subtotal_witness :
  (Order.subtotal
     (Order_add [Order.mkItem (bytes "AR") (bytes "Adobo Rice Bowl") 65 2;
                 Order.mkItem (bytes "R") (bytes "Rice") 20 1]
                (bytes "AR") (bytes "Adobo Rice Bowl") 70 3)
   == Order.subtotal
        [Order.mkItem (bytes "AR") (bytes "Adobo Rice Bowl") 65 2;
         Order.mkItem (bytes "R") (bytes "Rice") 20 1]
      + charged_price (bytes "AR") 70
          [Order.mkItem (bytes "AR") (bytes "Adobo Rice Bowl") 65 2;
           Order.mkItem (bytes "R") (bytes "Rice") 20 1]
        * inject_Z 3)%Q.
Proof.
  apply (Order_add_subtotal
           [Order.mkItem (bytes "AR") (bytes "Adobo Rice Bowl") 65 2;
            Order.mkItem (bytes "R") (bytes "Rice") 20 1]
           (bytes "AR") (bytes "Adobo Rice Bowl") 70 3).
  - reflexivity.
  - reflexivity.
Defined.

(** X18.  [Order.remove_index] changes nothing when the index is negative
    or not below the number of entries; otherwise it removes the entry at
    the index and no other. *)
Theorem Order_remove_index_bounds :
  forall order idx,
    (idx < 0 \/ Z.of_nat (List.length order) <= idx ->
     Order_remove_index order idx = order) /\
    (0 <= idx < Z.of_nat (List.length order) ->
     exists before it after,
       order = before ++ it :: after /\
       Z.of_nat (List.length before) = idx /\
       Order_remove_index order idx = before ++ after).
Proof.
  intros order idx. unfold Order_remove_index. split.
  - intros H.
    destruct ((0 <=? idx) && (idx <? Z.of_nat (List.length order)))%bool eqn:E;
      trivial.
    apply andb_prop in E. destruct E as [E1 E2].
    apply Z.leb_le in E1. apply Z.ltb_lt in E2. lia.
  - intros [H1 H2].
    assert (E : ((0 <=? idx) && (idx <? Z.of_nat (List.length order)))%bool
                = true).
    { apply andb_true_iff. split; [now apply Z.leb_le|now apply Z.ltb_lt]. }
    rewrite E.
    destruct (nth_error order (Z.to_nat idx)) as [it|] eqn:N.
    + pose proof (firstn_skipn_middle _ _ N) as M.
      exists (firstn (Z.to_nat idx) order), it,
        (skipn (S (Z.to_nat idx)) order).
      split; [now symmetry|]. split; [|reflexivity].
      rewrite length_firstn. lia.
    + apply nth_error_None in N. lia.
Qed.

Lemma Order_remove_index_bounds_witness :
  let order := [Order.mkItem (bytes "AR") (bytes "Adobo Rice Bowl") 65 2;
                Order.mkItem (bytes "R") (bytes "Rice") 20 1] in
  Order_remove_index order (-1) = order /\
  Order_remove_index order 2 = order /\
  exists before it after,
    order = before ++ it :: after /\
    Z.of_nat (List.length before) = 1 /\
    Order_remove_index order 1 = before ++ after.
Proof.
  split; [|split].
  - apply (Order_remove_index_bounds
             [Order.mkItem (bytes "AR") (bytes "Adobo Rice Bowl") 65 2;
              Order.mkItem (bytes "R") (bytes "Rice") 20 1] (-1)).
    left. lia.
  - apply (Order_remove_index_bounds
             [Order.mkItem (bytes "AR") (bytes "Adobo Rice Bowl") 65 2;
              Order.mkItem (bytes "R") (bytes "Rice") 20 1] 2).
    right. cbn. lia.
  - apply (Order_remove_index_bounds
             [Order.mkItem (bytes "AR") (bytes "Adobo Rice Bowl") 65 2;
              Order.mkItem (bytes "R") (bytes "Rice") 20 1] 1).
    cbn. lia.
Defined.

(** ** The purge *)



(** ** Receipt importer: a run that is left by an exception *)

Lemma import_files_app w pre : forall rest db n0,
  import_files w db (pre ++ rest) n0
  = match import_files w db pre n0 with
    | (db1, Ok n) => import_files w db1 rest n
    | (db1, Raise e) => (db1, Raise e)
    end.
Proof.
  induction pre as [|f pre IH]; intros rest db n0; cbn [app import_files];
    [reflexivity|].
  destruct (import_file w db f) as [db' [[|]|e]]; trivial.
Qed.

(** X20.  The ValueError of the item loop leaves
    [import_receipts_from_folder], and the run keeps what it had imported.
    In a tame folder, when the run over the files before a file returns
    and the file is one that no order holds and whose item loop raises,
    the run over the folder is left by the ValueError; the database is the
    one the run over the files before the file leaves: what was imported
    from them stays recorded, and the failing file and the files after it
    are not imported. *)
Theorem import_receipts_raise :
  forall w db pre f post db1 n,
    tame_dir (Some (pre ++ f :: post)) = true ->
    import_receipts_from_folder w db (Some pre) = (db1, Ok n) ->
    seen db1 f = false ->
    parse_file f = Failed ValueError ->
    import_receipts_from_folder w db (Some (pre ++ f :: post))
    = (db1, Raise ValueError).
Proof.
  intros w db pre f post db1 n _ R S P.
  cbn [import_receipts_from_folder] in *.
  rewrite import_files_app, R. cbn [import_files].
  pose proof (import_file_unseen w db1 f S) as I. rewrite P in I.
  now rewrite I.
Qed.

Lemma import_receipts_raise_witness :
  import_receipts_from_folder quiet empty_db
    (Some ([mkFile (bytes "receipt_x.txt") (Some receipt_scenario)]
           ++ mkFile (bytes "receipt_a.txt") (Some receipt_comma_price)
           :: [mkFile (bytes "receipt_b.txt") (Some receipt_paid_only)]))
  = (fst (import_receipts_from_folder quiet empty_db
            (Some [mkFile (bytes "receipt_x.txt") (Some receipt_scenario)])),
     Raise ValueError).
Proof.
  apply (import_receipts_raise quiet empty_db
           [mkFile (bytes "receipt_x.txt") (Some receipt_scenario)]
           (mkFile (bytes "receipt_a.txt") (Some receipt_comma_price))
           [mkFile (bytes "receipt_b.txt") (Some receipt_paid_only)]
           (fst (import_receipts_from_folder quiet empty_db
                   (Some [mkFile (bytes "receipt_x.txt")
                                 (Some receipt_scenario)])))
           1%nat).
  - reflexivity.
  - reflexivity.
  - reflexivity.
  - reflexivity.
Defined.

(** ** Seeding the catalog *)

Lemma existsb_app_l {A} (p : A -> bool) l l' :
  existsb p l = true -> existsb p (l ++ l') = true.
Proof. intros H. now rewrite existsb_app, H. Qed.

Lemma insert_login_inv c e :
  (exists l, login (insert_login c e) = login c ++ l) /\
  menu (insert_login c e) = menu c /\
  existsb (fun r => text_eqb (username r) (fst e)) (login (insert_login c e))
  = true.
Proof.
  unfold insert_login.
  destruct (existsb (fun r => text_eqb (username r) (fst e)) (login c)) eqn:X;
    cbn [login menu].
  - split; [exists []; now rewrite app_nil_r|]. now split.
  - split; [now eexists|]. split; trivial.
    rewrite existsb_app. cbn [existsb username].
    rewrite text_eqb_refl. now rewrite orb_true_r.
Qed.

Lemma insert_menu_inv c e :
  (exists m, menu (insert_menu c e) = menu c ++ m) /\
  login (insert_menu c e) = login c /\
  existsb (fun r => text_eqb (m_code r) (fst (fst (fst e))))
          (menu (insert_menu c e)) = true.
Proof.
  destruct e as [[[code name] cat] price]. unfold insert_menu.
  cbn [fst].
  destruct (existsb (fun r => text_eqb (m_code r) code) (menu c)) eqn:X;
    cbn [login menu].
  - split; [exists []; now rewrite app_nil_r|]. now split.
  - split; [now eexists|]. split; trivial.
    rewrite existsb_app. cbn [existsb m_code].
    rewrite text_eqb_refl. now rewrite orb_true_r.
Qed.

Lemma insert_logins_inv es : forall c,
  let c' := fold_left insert_login es c in
  (exists l, login c' = login c ++ l) /\
  menu c' = menu c /\
  forall e, In e es ->
            existsb (fun r => text_eqb (username r) (fst e)) (login c') = true.
Proof.
  induction es as [|e es IH]; intros c; cbv zeta; cbn [fold_left].
  - split; [exists []; now rewrite app_nil_r|]. split; trivial.
    intros ? [].
  - destruct (insert_login_inv c e) as ((l & L) & M & X).
    destruct (IH (insert_login c e)) as ((l' & L') & M' & X').
    split; [|split].
    + exists (l ++ l'). now rewrite L', L, app_assoc.
    + congruence.
    + intros e' [<-|I]; [|now apply X'].
      rewrite L'. now apply existsb_app_l.
Qed.

Lemma insert_menus_inv es : forall c,
  let c' := fold_left insert_menu es c in
  (exists m, menu c' = menu c ++ m) /\
  login c' = login c /\
  forall e, In e es ->
            existsb (fun r => text_eqb (m_code r) (fst (fst (fst e))))
                    (menu c') = true.
Proof.
  induction es as [|e es IH]; intros c; cbv zeta; cbn [fold_left].
  - split; [exists []; now rewrite app_nil_r|]. split; trivial.
    intros ? [].
  - destruct (insert_menu_inv c e) as ((m & L) & M & X).
    destruct (IH (insert_menu c e)) as ((m' & L') & M' & X').
    split; [|split].
    + exists (m ++ m'). now rewrite L', L, app_assoc.
    + congruence.
    + intros e' [<-|I]; [|now apply X'].
      rewrite L'. now apply existsb_app_l.
Qed.

(** Offers that all meet a row of their key leave the rows as they are. *)
Lemma insert_logins_known es : forall c,
  (forall e, In e es ->
             existsb (fun r => text_eqb (username r) (fst e)) (login c)
             = true) ->
  login (fold_left insert_login es c) = login c.
Proof.
  induction es as [|e es IH]; intros c H; cbn [fold_left]; trivial.
  assert (E : login (insert_login c e) = login c).
  { unfold insert_login. now rewrite (H e (or_introl eq_refl)). }
  rewrite IH; trivial.
  intros e' I. rewrite E. apply H. now right.
Qed.

Lemma insert_menus_known es : forall c,
  (forall e, In e es ->
             existsb (fun r => text_eqb (m_code r) (fst (fst (fst e))))
                     (menu c) = true) ->
  menu (fold_left insert_menu es c) = menu c.
Proof.
  induction es as [|e es IH]; intros c H; cbn [fold_left]; trivial.
  assert (E : menu (insert_menu c e) = menu c).
  { pose proof (H e (or_introl eq_refl)) as X.
    destruct e as [[[code name] cat] price]. unfold insert_menu.
    cbn [fst] in X. now rewrite X. }
  rewrite IH; trivial.
  intros e' I. rewrite E. apply H. now right.
Qed.

(** X21.  [insert_default_data] can be run again.  A run leaves every row
    that the [login] and [menu] tables hold in place and unchanged, so a
    user name or a product code that is there keeps its password, name,
    category and price, whatever [system.py] says now; and a second run
    with the same seed adds no row.  Only the AUTOINCREMENT counters move
    (the offers that are ignored draw ids as well). *)
Theorem insert_default_data_again :
  forall employees menu_items c,
    let c1 := insert_default_data employees menu_items c in
    let c2 := insert_default_data employees menu_items c1 in
    (exists l, login c1 = login c ++ l) /\
    (exists m, menu c1 = menu c ++ m) /\
    login c2 = login c1 /\
    menu c2 = menu c1.
Proof.
  intros employees menu_items c. cbv zeta. unfold insert_default_data.
  set (L := login_inserts employees). set (M := menu_inserts menu_items).
  destruct (insert_logins_inv L c) as (PL & ML & XL). cbv zeta in PL, ML, XL.
  destruct (insert_menus_inv M (fold_left insert_login L c))
    as (PM & LM & XM). cbv zeta in PM, LM, XM.
  set (c1 := fold_left insert_menu M (fold_left insert_login L c)) in *.
  destruct (insert_logins_inv L c1) as (_ & ML1 & _). cbv zeta in ML1.
  destruct (insert_menus_inv M (fold_left insert_login L c1))
    as (_ & LM1 & _). cbv zeta in LM1.
  split; [now rewrite LM|]. split; [now rewrite <- ML|]. split.
  - rewrite LM1. apply insert_logins_known.
    intros e I. rewrite LM. now apply XL.
  - transitivity (menu (fold_left insert_login L c1)); [|exact ML1].
    apply insert_menus_known. intros e I. rewrite ML1. now apply XM.
Qed.

Lemma insert_menus_fresh es : forall c,
  NoDup (map offered_code es) ->
  (forall e, In e es ->
             existsb (fun r => text_eqb (m_code r) (offered_code e)) (menu c)
             = false) ->
  map menu_tuple (menu (fold_left insert_menu es c))
  = map menu_tuple (menu c) ++ es.
Proof.
  induction es as [|e es IH]; intros c N H; cbn [fold_left].
  - now rewrite app_nil_r.
  - inversion N as [|? ? Ne N']; subst.
    pose proof (H e (or_introl eq_refl)) as X.
    assert (E : menu (insert_menu c e)
                = menu c ++ [mkMenu (next_rowid (seq_menu c)
                                                (map menu_id (menu c)))
                                    (fst (fst (fst e))) (snd (fst (fst e)))
                                    (snd (fst e)) (snd e)]).
    { destruct e as [[[code name] cat] price]. unfold insert_menu.
      unfold offered_code in X. cbn [fst snd] in *. now rewrite X. }
    rewrite IH; trivial.
    + rewrite E, map_app, <- app_assoc. cbn [map app menu_tuple m_code m_name
                                              category m_price].
      now destruct e as [[[code name] cat] price].
    + intros e' I. rewrite E, existsb_app, (H e' (or_intror I)).
      cbn [existsb m_code orb]. rewrite orb_false_r.
      apply text_eqb_neq. intros Q. apply Ne.
      change (fst (fst (fst e))) with (offered_code e) in Q.
      rewrite Q. now apply in_map.
Qed.

(** X22.  Seeding empty catalog tables from a menu whose product codes are
    all different stores the menu as it is: one row per entry, in the
    order of the entries, with the code, the name, the category and the
    price of the entry. *)
Theorem insert_default_data_stores_menu :
  forall employees menu_items c,
    menu c = [] ->
    NoDup (map offered_code (menu_inserts menu_items)) ->
    map menu_tuple (menu (insert_default_data employees menu_items c))
    = menu_inserts menu_items.
Proof.
  intros employees menu_items c E N. unfold insert_default_data.
  destruct (insert_logins_inv (login_inserts employees) c) as (_ & M & _).
  cbv zeta in M.
  rewrite insert_menus_fresh; trivial.
  - now rewrite M, E.
  - intros e _. now rewrite M, E.
Qed.

Lemma insert_default_data_stores_menu_witness :
  map menu_tuple
      (menu (insert_default_data (Some EMPLOYEES) (Some MENU) empty_catalog))
  = menu_inserts (Some MENU).
Proof.
  apply (insert_default_data_stores_menu (Some EMPLOYEES) (Some MENU)
           empty_catalog).
  - reflexivity.
  - vm_compute. repeat constructor; cbn [In]; intuition discriminate.
Defined.
